(** * Meeple simulation (meeples/main3.py): agents, placeables, day/night
      clock, effects, collision resolution and placement.

    The program computes on Python [float]s (IEEE binary64) and [int]s.  The
    embedding is written once over an abstract number type [F] carrying the
    float operations the program uses, and is instantiated twice:
    - at Rocq's primitive binary64 [float]s, which run bit for bit like
      CPython's floats for [+ - * / sqrt] and the comparisons, and
    - at the real numbers, the exact arithmetic the floats approximate.
    Python [int]s are [Z]; object identity is a [nat] identifier. *)

From Stdlib Require Import ZArith List Bool Arith Lia Permutation.
From Stdlib Require Import Floats.
From Stdlib Require Import Reals Lra.
Import ListNotations.

Set Implicit Arguments.

(* ================================================================== *)
(** * Numbers *)

Declare Scope py_scope.
Delimit Scope py_scope with py.

(** The float operations of the program.  [ftrunc] is C's conversion to an
    integer (toward zero), which [int(x)] and [pygame.Rect] apply to float
    arguments; [fmod] is Python's [%] on floats (result has the sign of the
    divisor). *)
Class PyFloat (F : Type) : Type := {
  of_Z : Z -> F;
  fadd : F -> F -> F;
  fsub : F -> F -> F;
  fmul : F -> F -> F;
  fdiv : F -> F -> F;
  fsqrt : F -> F;
  fneg : F -> F;
  fabs : F -> F;
  fltb : F -> F -> bool;
  ftrunc : F -> Z;
  fmod : F -> F -> F;
  math_pi : F
}.

(** [math.cos], [math.sin] and [math.atan2] come from the platform's libm;
    the program's logic never depends on their values, so they stay an
    interface. *)
Class PyTrig (F : Type) : Type := {
  math_cos : F -> F;
  math_sin : F -> F;
  math_atan2 : F -> F -> F
}.

Infix "+" := fadd : py_scope.
Infix "-" := fsub : py_scope.
Infix "*" := fmul : py_scope.
Infix "/" := fdiv : py_scope.
Infix "<?" := fltb : py_scope.
Notation "- x" := (fneg x) : py_scope.
Notation "x >? y" := (fltb y x) (only parsing) : py_scope.

(** A decimal literal [n/d] of the source, e.g. [0.8] is [lit 8 10]: on
    binary64 the correctly rounded quotient of two exactly representable
    integers is the float the literal denotes. *)
Definition lit {F} `{PyFloat F} (n d : Z) : F := fdiv (of_Z n) (of_Z d).

(** [x ** 2] *)
Definition sq {F} `{PyFloat F} (x : F) : F := fmul x x.

(** [math.hypot], modelled as the rounded square root of the sum of squares. *)
Definition math_hypot {F} `{PyFloat F} (a b : F) : F := fsqrt (fadd (sq a) (sq b)).

(** ** Binary64 instance *)

Module B64.

(** An integer as a float: exact below 2^63 in magnitude once rounded by
    [of_uint63]; the program's integers are far smaller. *)
Definition from_Z (z : Z) : float :=
  match z with
  | Z0 => PrimFloat.zero
  | Zpos _ => PrimFloat.of_uint63 (Uint63.of_Z z)
  | Zneg p => PrimFloat.opp (PrimFloat.of_uint63 (Uint63.of_Z (Zpos p)))
  end.

(** Conversion toward zero; not-a-number and infinities (on which Python
    raises) give 0. *)
Definition trunc (f : float) : Z :=
  match Prim2SF f with
  | S754_finite s m e =>
      let mag := match e with
                 | Z0 => Zpos m
                 | Zpos _ => Z.shiftl (Zpos m) e
                 | Zneg p => Z.shiftr (Zpos m) (Zpos p)
                 end in
      if s then Z.opp mag else mag
  | _ => 0%Z
  end.

(** Strip the trailing zero bits of a mantissa, [fuel] bounding the loop. *)
Fixpoint strip (fuel : nat) (m e : Z) : Z * Z :=
  match fuel with
  | O => (m, e)
  | S k => if Z.even m && negb (m =? 0)%Z then strip k (Z.div2 m) (e + 1)%Z else (m, e)
  end.

Definition of_mant (neg : bool) (m e : Z) : float :=
  match m with
  | Zpos _ =>
      let '(m', e') := strip (Z.to_nat (Z.log2 m) + 1) m e in
      match m' with
      | Zpos p => SF2Prim (S754_finite neg p e')
      | _ => PrimFloat.zero
      end
  | _ => if neg then PrimFloat.neg_zero else PrimFloat.zero
  end.

(** C's [fmod]: the exact remainder, with the sign of the dividend. *)
Definition c_fmod (x y : float) : float :=
  match Prim2SF x, Prim2SF y with
  | S754_finite sx mx ex, S754_finite _ my ey =>
      let e := Z.min ex ey in
      let X := Z.shiftl (Zpos mx) (ex - e) in
      let Y := Z.shiftl (Zpos my) (ey - e) in
      of_mant sx (Z.modulo X Y) e
  | S754_zero s, S754_finite _ _ _ => x
  | S754_finite _ _ _, S754_infinity _ => x
  | S754_zero _, S754_infinity _ => x
  | _, _ => PrimFloat.nan
  end.

(** CPython's [float_rem]: [fmod], then moved to the divisor's sign. *)
Definition py_mod (x y : float) : float :=
  let m := c_fmod x y in
  if PrimFloat.eqb m PrimFloat.zero then
    (if PrimFloat.is_nan m then m
     else if PrimFloat.get_sign y then PrimFloat.neg_zero else PrimFloat.zero)
  else if PrimFloat.is_nan m then m
  else if Bool.eqb (PrimFloat.ltb y PrimFloat.zero) (PrimFloat.ltb m PrimFloat.zero)
       then m else PrimFloat.add m y.

#[global] Instance num : PyFloat float := {|
  of_Z := from_Z;
  fadd := PrimFloat.add;
  fsub := PrimFloat.sub;
  fmul := PrimFloat.mul;
  fdiv := PrimFloat.div;
  fsqrt := PrimFloat.sqrt;
  fneg := PrimFloat.opp;
  fabs := PrimFloat.abs;
  fltb := PrimFloat.ltb;
  ftrunc := trunc;
  fmod := py_mod;
  math_pi := 0x1.921fb54442d18p+1%float
|}.

(** Series for [cos], [sin] and [atan2], good to about nine digits: libm's
    own code is not part of the program, and no property proved below
    looks at the values.  They serve to run the model on examples. *)
Fixpoint series (n : nat) (k : float) (term acc x2 : float) : float :=
  match n with
  | O => acc
  | S n' =>
      let d := PrimFloat.mul (PrimFloat.add k 1) (PrimFloat.add k 2) in
      let term' := PrimFloat.opp (PrimFloat.div (PrimFloat.mul term x2) d) in
      series n' (PrimFloat.add k 2) term' (PrimFloat.add acc term') x2
  end.

Definition two_pi : float := PrimFloat.mul 2 0x1.921fb54442d18p+1.

Definition reduce (a : float) : float :=
  let q := PrimFloat.div a two_pi in
  let n := trunc (if PrimFloat.ltb q 0 then PrimFloat.sub q 0.5 else PrimFloat.add q 0.5) in
  PrimFloat.sub a (PrimFloat.mul (from_Z n) two_pi).

Definition cos_series (a : float) : float :=
  let r := reduce a in series 14 0 1 1 (PrimFloat.mul r r).

Definition sin_series (a : float) : float :=
  let r := reduce a in series 14 1 r r (PrimFloat.mul r r).

Fixpoint atan_terms (n : nat) (k : float) (pow acc z2 : float) : float :=
  match n with
  | O => acc
  | S n' =>
      let pow' := PrimFloat.opp (PrimFloat.mul pow z2) in
      let k' := PrimFloat.add k 2 in
      atan_terms n' k' pow' (PrimFloat.add acc (PrimFloat.div pow' k')) z2
  end.

Definition halve (z : float) : float :=
  PrimFloat.div z (PrimFloat.add 1 (PrimFloat.sqrt (PrimFloat.add 1 (PrimFloat.mul z z)))).

Definition atan_small (z : float) : float :=
  let z2 := halve (halve z) in
  PrimFloat.mul 4 (atan_terms 14 1 z2 z2 (PrimFloat.mul z2 z2)).

Definition half_pi : float := PrimFloat.div 0x1.921fb54442d18p+1 2.

Definition atan_series (z : float) : float :=
  if PrimFloat.ltb 1 z then PrimFloat.sub half_pi (atan_small (PrimFloat.div 1 z))
  else if PrimFloat.ltb z (-1) then
    PrimFloat.sub (PrimFloat.opp half_pi) (atan_small (PrimFloat.div 1 z))
  else atan_small z.

Definition atan2_series (b a : float) : float :=
  if PrimFloat.ltb 0 a then atan_series (PrimFloat.div b a)
  else if PrimFloat.ltb a 0 then
    (if PrimFloat.ltb b 0
     then PrimFloat.sub (atan_series (PrimFloat.div b a)) 0x1.921fb54442d18p+1
     else PrimFloat.add (atan_series (PrimFloat.div b a)) 0x1.921fb54442d18p+1)
  else if PrimFloat.ltb 0 b then half_pi
  else if PrimFloat.ltb b 0 then PrimFloat.opp half_pi
  else 0.

#[global] Instance trig : PyTrig float := {|
  math_cos := cos_series;
  math_sin := sin_series;
  math_atan2 := atan2_series
|}.

End B64.

(** ** Real-number instance *)

Module Exact.

Definition ltb (x y : R) : bool := if Rlt_dec x y then true else false.

(** Toward zero. *)
Definition trunc (x : R) : Z :=
  if Rlt_dec x 0 then Z.opp (Int_part (Ropp x)) else Int_part x.

(** [x - y * floor (x / y)]. *)
Definition py_mod (x y : R) : R := (x - y * IZR (Int_part (x / y)))%R.

#[global] Instance num : PyFloat R := {|
  of_Z := IZR;
  fadd := Rplus;
  fsub := Rminus;
  fmul := Rmult;
  fdiv := Rdiv;
  fsqrt := sqrt;
  fneg := Ropp;
  fabs := Rabs;
  fltb := ltb;
  ftrunc := trunc;
  fmod := py_mod;
  math_pi := PI
|}.

End Exact.


(* ================================================================== *)
(** * pygame.Rect

    Integer rectangles with pygame's semantics: [center] divides with C's
    truncating division, a rectangle of zero width or height is falsy and
    collides with nothing, edges that only touch do not collide. *)

Record Rect : Type := mkRect {
  r_left : Z;
  r_top : Z;
  r_width : Z;
  r_height : Z
}.

Definition r_right (r : Rect) : Z := r_left r + r_width r.
Definition r_bottom (r : Rect) : Z := r_top r + r_height r.
Definition r_centerx (r : Rect) : Z := r_left r + Z.quot (r_width r) 2.
Definition r_centery (r : Rect) : Z := r_top r + Z.quot (r_height r) 2.
Definition r_center (r : Rect) : Z * Z := (r_centerx r, r_centery r).

(** Truth value of a [Rect]. *)
Definition rect_bool (r : Rect) : bool :=
  negb (r_width r =? 0)%Z && negb (r_height r =? 0)%Z.

Definition colliderect (a b : Rect) : bool :=
  if (r_width a =? 0)%Z || (r_height a =? 0)%Z || (r_width b =? 0)%Z || (r_height b =? 0)%Z
  then false
  else
    (Z.min (r_left a) (r_right a) <? Z.max (r_left b) (r_right b))%Z &&
    (Z.min (r_top a) (r_bottom a) <? Z.max (r_top b) (r_bottom b))%Z &&
    (Z.min (r_left b) (r_right b) <? Z.max (r_left a) (r_right a))%Z &&
    (Z.min (r_top b) (r_bottom b) <? Z.max (r_top a) (r_bottom a))%Z.

Definition collidepoint (r : Rect) (x y : Z) : bool :=
  (r_left r <=? x)%Z && (x <? r_right r)%Z && (r_top r <=? y)%Z && (y <? r_bottom r)%Z.

Definition rect_union (a b : Rect) : Rect :=
  let x := Z.min (r_left a) (r_left b) in
  let y := Z.min (r_top a) (r_top b) in
  mkRect x y (Z.max (r_right a) (r_right b) - x) (Z.max (r_bottom a) (r_bottom b) - y).

(* ================================================================== *)
(** * Constants *)

Definition TOOLBAR_WIDTH : Z := 100.
Definition SIMULATION_WIDTH : Z := 800.
Definition SCREEN_HEIGHT : Z := 600.
Definition ICON_SIZE : Z := 50.
Definition ICON_PADDING : Z := 8.
Definition INITIAL_NUM_MEEPLES : nat := 20.
Definition BODY_RADIUS : Z := 8.
Definition OUTLINE_WIDTH : Z := 1.
Definition SHADOW_OFFSET : Z := 2.
Definition HOME_PROXIMITY_THRESHOLD : Z := 15.
Definition DAY_DURATION_SECONDS : Z := 30.
Definition NIGHT_DURATION_SECONDS : Z := 20.
Definition FULL_CYCLE_SECONDS : Z := DAY_DURATION_SECONDS + NIGHT_DURATION_SECONDS.
Definition HOLE_RADIUS : Z := 30.
Definition HUT_BASE_SIZE : Z * Z := (50, 30)%Z.
Definition HUT_ROOF_HEIGHT : Z := 30.
Definition HUT_MAX_RESIDENTS : nat := 4.
Definition FARM_SIZE : Z * Z := (100, 70)%Z.
Definition FACTORY_BASE_SIZE : Z * Z := (70, 50)%Z.
Definition FACTORY_CHIMNEY_SIZE : Z * Z := (8, 30)%Z.
Definition TREE_TRUNK_WIDTH : Z := 6.
Definition HURRICANE_RADIUS : Z := 100.
Definition HURRICANE_DURATION : Z := 8.
Definition RAIN_DURATION : Z := 10.

(** Tools of the toolbar, in the order of [TOOLS]. *)
Inductive Tool : Type :=
  | T_hole | T_hut | T_farm | T_factory | T_hurricane | T_tree | T_rain | T_add_meeple.

Definition TOOLS : list Tool :=
  [T_hole; T_hut; T_farm; T_factory; T_hurricane; T_tree; T_rain; T_add_meeple].

Definition Tool_eqb (a b : Tool) : bool :=
  match a, b with
  | T_hole, T_hole | T_hut, T_hut | T_farm, T_farm | T_factory, T_factory
  | T_hurricane, T_hurricane | T_tree, T_tree | T_rain, T_rain
  | T_add_meeple, T_add_meeple => true
  | _, _ => false
  end.

(** The kinds of [Placeable] a tool can build. *)
Inductive Kind : Type := K_Hole | K_Hut | K_Farm | K_Factory | K_Tree.

Inductive MState : Type := wandering | going_home | at_home.

Definition MState_eqb (a b : MState) : bool :=
  match a, b with
  | wandering, wandering | going_home, going_home | at_home, at_home => true
  | _, _ => false
  end.

(* ================================================================== *)
(** * Objects *)

Section Objects.

Context {F : Type} {NF : PyFloat F}.
Local Open Scope py_scope.

Definition HEAD_RADIUS_RATIO : F := lit 6 10.
Definition HEAD_V_OFFSET_RATIO : F := lit 8 10.
Definition MEEPLE_BASE_SPEED : F := lit 50 1.
Definition WANDER_STRENGTH : F := lit 15 10.
Definition COLLISION_PUSH_FORCE : F := lit 1 1.
Definition OBSTACLE_PUSH_FORCE : F := lit 15 10.
Definition SPEED_CHANGE_STEP : F := lit 2 10.
Definition MIN_SPEED_MULT : F := lit 2 10.
Definition MAX_SPEED_MULT : F := lit 5 1.
Definition HURRICANE_STRENGTH : F := lit 80 1.
Definition RAIN_SPEED_MULTIPLIER : F := lit 6 10.

(** ** class Meeple

    [mid] is the object's identity: lists that alias a meeple ([residents],
    [meeples_to_remove], [unassigned]) hold its [mid], and [x in list]
    compares identities.  [home] holds the identity of a [Hut].  The colour
    attributes belong to drawing and are left out. *)
Record Meeple : Type := mkMeeple {
  mid : nat;
  x : F;
  y : F;
  body_radius : Z;
  head_radius : Z;
  head_v_offset : Z;
  collision_radius : Z;
  sim_width : Z;
  sim_height : Z;
  speed_multiplier_effect : F;
  angle : F;
  dx : F;
  dy : F;
  home : option nat;
  state : MState;
  target_pos : option (Z * Z);
  force_x : F;
  force_y : F
}.

Definition set_pos (nx ny : F) (m : Meeple) : Meeple :=
  mkMeeple (mid m) nx ny (body_radius m) (head_radius m) (head_v_offset m)
    (collision_radius m) (sim_width m) (sim_height m) (speed_multiplier_effect m)
    (angle m) (dx m) (dy m) (home m) (state m) (target_pos m) (force_x m) (force_y m).

Definition set_x (nx : F) (m : Meeple) : Meeple := set_pos nx (y m) m.
Definition set_y (ny : F) (m : Meeple) : Meeple := set_pos (x m) ny m.

Definition set_vel (ndx ndy : F) (m : Meeple) : Meeple :=
  mkMeeple (mid m) (x m) (y m) (body_radius m) (head_radius m) (head_v_offset m)
    (collision_radius m) (sim_width m) (sim_height m) (speed_multiplier_effect m)
    (angle m) ndx ndy (home m) (state m) (target_pos m) (force_x m) (force_y m).

Definition set_dx (ndx : F) (m : Meeple) : Meeple := set_vel ndx (dy m) m.
Definition set_dy (ndy : F) (m : Meeple) : Meeple := set_vel (dx m) ndy m.

Definition set_angle (a : F) (m : Meeple) : Meeple :=
  mkMeeple (mid m) (x m) (y m) (body_radius m) (head_radius m) (head_v_offset m)
    (collision_radius m) (sim_width m) (sim_height m) (speed_multiplier_effect m)
    a (dx m) (dy m) (home m) (state m) (target_pos m) (force_x m) (force_y m).

Definition set_speed_multiplier_effect (s : F) (m : Meeple) : Meeple :=
  mkMeeple (mid m) (x m) (y m) (body_radius m) (head_radius m) (head_v_offset m)
    (collision_radius m) (sim_width m) (sim_height m) s
    (angle m) (dx m) (dy m) (home m) (state m) (target_pos m) (force_x m) (force_y m).

Definition set_home (h : option nat) (m : Meeple) : Meeple :=
  mkMeeple (mid m) (x m) (y m) (body_radius m) (head_radius m) (head_v_offset m)
    (collision_radius m) (sim_width m) (sim_height m) (speed_multiplier_effect m)
    (angle m) (dx m) (dy m) h (state m) (target_pos m) (force_x m) (force_y m).

(** [self.state = s; self.target_pos = t] *)
Definition set_state (s : MState) (t : option (Z * Z)) (m : Meeple) : Meeple :=
  mkMeeple (mid m) (x m) (y m) (body_radius m) (head_radius m) (head_v_offset m)
    (collision_radius m) (sim_width m) (sim_height m) (speed_multiplier_effect m)
    (angle m) (dx m) (dy m) (home m) s t (force_x m) (force_y m).

Definition set_force (fx fy : F) (m : Meeple) : Meeple :=
  mkMeeple (mid m) (x m) (y m) (body_radius m) (head_radius m) (head_v_offset m)
    (collision_radius m) (sim_width m) (sim_height m) (speed_multiplier_effect m)
    (angle m) (dx m) (dy m) (home m) (state m) (target_pos m) fx fy.

(** [random.uniform(a, b)] is [a + (b - a) * random()]; [u] is the value
    [random()] returned. *)
Definition random_uniform (a b u : F) : F := a + (b - a) * u.

(** [Meeple.__init__]; [u] is the draw behind the initial [angle]. *)
Definition Meeple_init (id : nat) (x0 y0 : F) (w h : Z) (u : F) : Meeple :=
  {| mid := id;
     x := x0;
     y := y0;
     body_radius := BODY_RADIUS;
     head_radius := ftrunc (of_Z BODY_RADIUS * HEAD_RADIUS_RATIO);
     head_v_offset := Z.opp (ftrunc (of_Z BODY_RADIUS * HEAD_V_OFFSET_RATIO));
     collision_radius := BODY_RADIUS;
     sim_width := w;
     sim_height := h;
     speed_multiplier_effect := lit 1 1;
     angle := random_uniform (of_Z 0) (of_Z 2 * math_pi) u;
     dx := of_Z 0;
     dy := of_Z 0;
     home := None;
     state := wandering;
     target_pos := None;
     force_x := of_Z 0;
     force_y := of_Z 0 |}.

(** [Meeple.apply_force] *)
Definition apply_force (fx fy : F) (m : Meeple) : Meeple :=
  set_force (force_x m + fx) (force_y m + fy) m.

(** ** class Placeable and its subclasses

    The subclass of an object and the attributes only that subclass has
    are its [payload]; [residents] lists meeple identities. *)
Inductive Payload : Type :=
  | Hole (radius : Z)
  | Hut (rect : Rect) (residents : list nat) (max_residents : nat)
  | Farm (rect : Rect)
  | Factory (rect chimney_rect : Rect)
  | Tree (tree_collision_radius : Z).

Record Placeable : Type := mkPlaceable {
  pid : nat;
  p_x : F;
  p_y : F;
  collision_rect : Rect;
  draw_rect : Rect;
  payload : Payload
}.

Definition Hole_init (id : nat) (px py : Z) : Placeable :=
  let r := HOLE_RADIUS in
  let cr := mkRect (px - r) (py - r) (r * 2) (r * 2) in
  mkPlaceable id (of_Z px) (of_Z py) cr cr (Hole r).

Definition Hut_init (id : nat) (center_x center_y : Z) : Placeable :=
  let '(width, base_height) := HUT_BASE_SIZE in
  let roof_height := HUT_ROOF_HEIGHT in
  let rect := mkRect (center_x - width / 2) (center_y - base_height / 2) width base_height in
  let cr := mkRect (r_left rect) (r_top rect - roof_height) width (base_height + roof_height) in
  mkPlaceable id (of_Z center_x) (of_Z center_y) cr rect (Hut rect [] HUT_MAX_RESIDENTS).

Definition Farm_init (id : nat) (center_x center_y : Z) : Placeable :=
  let '(width, height) := FARM_SIZE in
  let rect := mkRect (center_x - width / 2) (center_y - height / 2) width height in
  mkPlaceable id (of_Z center_x) (of_Z center_y) rect rect (Farm rect).

Definition Factory_init (id : nat) (center_x center_y : Z) : Placeable :=
  let '(width, height) := FACTORY_BASE_SIZE in
  let rect := mkRect (center_x - width / 2) (center_y - height / 2) width height in
  let '(chimney_w, chimney_h) := FACTORY_CHIMNEY_SIZE in
  let chimney := mkRect (r_right rect - chimney_w - 5) (r_top rect - chimney_h)
                        chimney_w chimney_h in
  mkPlaceable id (of_Z center_x) (of_Z center_y) (rect_union rect chimney) rect
              (Factory rect chimney).

Definition Tree_init (id : nat) (px py : Z) : Placeable :=
  let trunk_radius := (TREE_TRUNK_WIDTH / 2)%Z in
  let cr := mkRect (px - trunk_radius) (py - trunk_radius)
                   (trunk_radius * 2) (trunk_radius * 2) in
  let dr := mkRect (px - trunk_radius) (py - trunk_radius)
                   TREE_TRUNK_WIDTH TREE_TRUNK_WIDTH in
  mkPlaceable id (of_Z px) (of_Z py) cr dr (Tree trunk_radius).

Definition new_Placeable (k : Kind) (id : nat) (px py : Z) : Placeable :=
  match k with
  | K_Hole => Hole_init id px py
  | K_Hut => Hut_init id px py
  | K_Farm => Farm_init id px py
  | K_Factory => Factory_init id px py
  | K_Tree => Tree_init id px py
  end.

(** [isinstance(p, Hut)] *)
Definition is_Hut (p : Placeable) : bool :=
  match payload p with Hut _ _ _ => true | _ => false end.

(** The [residents] of a hut; other objects have none. *)
Definition residents_of (p : Placeable) : list nat :=
  match payload p with Hut _ rs _ => rs | _ => [] end.

Definition max_residents_of (p : Placeable) : nat :=
  match payload p with Hut _ _ c => c | _ => 0 end.

Definition set_residents (rs : list nat) (p : Placeable) : Placeable :=
  match payload p with
  | Hut r _ c => mkPlaceable (pid p) (p_x p) (p_y p) (collision_rect p) (draw_rect p) (Hut r rs c)
  | _ => p
  end.

(** [Hut.rect], the base rectangle residents steer to. *)
Definition hut_rect (p : Placeable) : option Rect :=
  match payload p with Hut r _ _ => Some r | _ => None end.

Context {TF : PyTrig F}.

(** [Hut.get_random_spot_nearby]; [ua], [ur] are the two draws. *)
Definition get_random_spot_nearby (rect : Rect) (ua ur : F) : F * F :=
  let a := random_uniform (of_Z 0) (of_Z 2 * math_pi) ua in
  let radius := random_uniform (of_Z 0) (of_Z (r_width rect) * lit 3 10) ur in
  (of_Z (r_centerx rect) + math_cos a * radius,
   of_Z (r_centery rect) + math_sin a * radius).

(** ** class Hurricane; [now] is the reading of [time.time()]. *)
Record Hurricane : Type := mkHurricane {
  h_x : Z;
  h_y : Z;
  h_radius : Z;
  h_strength : F;
  h_end_time : F;
  h_max_radius_sq : Z
}.

Definition Hurricane_init (hx hy : Z) (now : F) : Hurricane :=
  mkHurricane hx hy HURRICANE_RADIUS HURRICANE_STRENGTH
    (now + of_Z HURRICANE_DURATION) (HURRICANE_RADIUS * HURRICANE_RADIUS).

Definition is_active (now : F) (e : Hurricane) : bool := now <? h_end_time e.

Definition apply_effect (e : Hurricane) (m : Meeple) : Meeple :=
  let dist_x := x m - of_Z (h_x e) in
  let dist_y := y m - of_Z (h_y e) in
  let dist_sq := sq dist_x + sq dist_y in
  if (dist_sq <? of_Z (h_max_radius_sq e)) && (dist_sq >? lit 1 100) then
    let distance := fsqrt dist_sq in
    let norm_x := dist_x / distance in
    let norm_y := dist_y / distance in
    let fx := (- norm_y) * h_strength e + norm_x * h_strength e * lit 1 10 in
    let fy := norm_x * h_strength e + norm_y * h_strength e * lit 1 10 in
    apply_force fx fy m
  else m.

End Objects.

Arguments Meeple F : clear implicits.
Arguments Payload : clear implicits.
Arguments Placeable F : clear implicits.
Arguments Hurricane F : clear implicits.

(* ================================================================== *)
(** * List helpers for Python's list operations *)

(** [x in l] on identities. *)
Definition mem (a : nat) (l : list nat) : bool := existsb (Nat.eqb a) l.

(** [l[i] = v] for an index in range (out of range nothing is written; the
    program only writes indices it has just read). *)
Fixpoint set_nth {A} (i : nat) (v : A) (l : list A) : list A :=
  match l, i with
  | [], _ => []
  | _ :: t, O => v :: t
  | h :: t, S k => h :: set_nth k v t
  end.

(** [l.remove(a)]: drops the first occurrence. *)
Fixpoint remove_first (a : nat) (l : list nat) : list nat :=
  match l with
  | [] => []
  | b :: t => if Nat.eqb a b then t else b :: remove_first a t
  end.

(** [x[i], x[j] = x[j], x[i]] *)
Definition swap {A} (i j : nat) (l : list A) : list A :=
  match nth_error l i, nth_error l j with
  | Some a, Some b => set_nth i b (set_nth j a l)
  | _, _ => l
  end.

(** [random.shuffle]: for [i] from [len - 1] down to [1], swap positions [i]
    and [randbelow(i + 1)]; [rb i] is the draw made at position [i]. *)
Fixpoint shuffle_from {A} (rb : nat -> nat) (i : nat) (l : list A) : list A :=
  match i with
  | O => l
  | S k => shuffle_from rb k (swap i (rb i mod (i + 1)) l)
  end.

Definition shuffle {A} (rb : nat -> nat) (l : list A) : list A :=
  shuffle_from rb (length l - 1) l.

(** Python's two-argument [min] and [max]: the first argument wins ties
    and failed comparisons. *)
Definition py_min {F} `{PyFloat F} (a b : F) : F := if fltb b a then b else a.
Definition py_max {F} `{PyFloat F} (a b : F) : F := if fltb a b then b else a.

(* ================================================================== *)
(** * The simulation *)

Section Sim.

Context {F : Type} {NF : PyFloat F} {TF : PyTrig F}.
Local Open Scope py_scope.

#[local] Abbreviation Meeple := (Meeple F).
#[local] Abbreviation Placeable := (Placeable F).
#[local] Abbreviation Hurricane := (Hurricane F).

(** ** The objects behind an identity *)

Definition find_meeple (id : nat) (ms : list Meeple) : option Meeple :=
  find (fun m => Nat.eqb (mid m) id) ms.

Definition find_placeable (id : nat) (ps : list Placeable) : option Placeable :=
  find (fun p => Nat.eqb (pid p) id) ps.

(** Mutating the object with identity [id] through any of its aliases:
    the object is the one [find_meeple] / [find_placeable] returns. *)
Fixpoint update_meeple (id : nat) (f : Meeple -> Meeple) (ms : list Meeple) : list Meeple :=
  match ms with
  | [] => []
  | m :: rest => if Nat.eqb (mid m) id then f m :: rest
                 else m :: update_meeple id f rest
  end.

Fixpoint update_placeable (id : nat) (f : Placeable -> Placeable)
    (ps : list Placeable) : list Placeable :=
  match ps with
  | [] => []
  | p :: rest => if Nat.eqb (pid p) id then f p :: rest
                 else p :: update_placeable id f rest
  end.

(** [self.home.rect] *)
Definition home_rect (ps : list Placeable) (m : Meeple) : option Rect :=
  match home m with
  | Some h => match find_placeable h ps with
              | Some p => hut_rect p
              | None => None
              end
  | None => None
  end.

(** ** Meeple.assign_home

    [m.assign_home(home_building)] on the meeple [m_id] and the object
    [h_id]; the result is the returned boolean. *)
Definition assign_home (m_id h_id : nat) (ms : list Meeple) (ps : list Placeable)
    : list Meeple * list Placeable * bool :=
  match find_placeable h_id ps with
  | Some hb =>
      if is_Hut hb && (length (residents_of hb) <? max_residents_of hb)%nat then
        (update_meeple m_id (set_home (Some h_id)) ms,
         update_placeable h_id (fun p => set_residents (residents_of p ++ [m_id]) p) ps,
         true)
      else (ms, ps, false)
  | None => (ms, ps, false)
  end.

(** ** Meeple.update *)

(** The draws one call may consume: the wander steer and the two of
    [get_random_spot_nearby]. *)
Record UpdateDraws : Type := mkUpdateDraws {
  u_wander : F;
  u_spot_angle : F;
  u_spot_radius : F
}.

(** "State Logic" *)
Definition update_state (ps : list Placeable) (u : UpdateDraws) (is_daytime : bool)
    (m : Meeple) : Meeple :=
  match home_rect ps m with
  | Some hr =>
      let dist_to_home_sq :=
        sq (x m - of_Z (r_centerx hr)) + sq (y m - of_Z (r_centery hr)) in
      let is_near_home := dist_to_home_sq <? of_Z (HOME_PROXIMITY_THRESHOLD ^ 2) in
      let m1 :=
        if is_daytime then
          if MState_eqb (state m) at_home then set_state wandering None m else m
        else
          if MState_eqb (state m) wandering
          then set_state going_home (Some (r_center hr)) m else m in
      if MState_eqb (state m1) going_home && is_near_home then
        let '(nx, ny) := get_random_spot_nearby hr (u_spot_angle u) (u_spot_radius u) in
        set_pos nx ny (set_state at_home None m1)
      else m1
  | None => m
  end.

(** "Movement Logic", up to the position update. *)
Definition update_movement (speed : F) (u : UpdateDraws) (dt : F) (m : Meeple) : Meeple :=
  let current_base_speed := MEEPLE_BASE_SPEED * speed_multiplier_effect m in
  let effective_speed := current_base_speed * speed in
  let m1 :=
    match state m, target_pos m with
    | at_home, _ => set_vel (of_Z 0) (of_Z 0) m
    | going_home, Some (tx, ty) =>
        let target_dx := of_Z tx - x m in
        let target_dy := of_Z ty - y m in
        let dist_to_target := math_hypot target_dx target_dy in
        if dist_to_target >? lit 1 1 then
          let a := math_atan2 target_dy target_dx in
          set_vel (math_cos a * effective_speed) (math_sin a * effective_speed)
                  (set_angle a m)
        else set_vel (of_Z 0) (of_Z 0) m
    | _, _ =>
        let angle_change :=
          random_uniform (- WANDER_STRENGTH) WANDER_STRENGTH (u_wander u) * dt * speed in
        let a := angle m + angle_change in
        set_vel (math_cos a * effective_speed) (math_sin a * effective_speed)
                (set_angle a m)
    end in
  let m2 := set_vel (dx m1 + force_x m1 * dt * speed) (dy m1 + force_y m1 * dt * speed) m1 in
  let m3 := set_force (lit 0 1) (lit 0 1) m2 in
  set_pos (x m3 + dx m3 * dt) (y m3 + dy m3 * dt) m3.

(** "Boundary Check" *)
Definition update_boundary (m : Meeple) : Meeple :=
  let buffer := (collision_radius m + OUTLINE_WIDTH)%Z in
  let head_top_y := y m + of_Z (head_v_offset m) - of_Z (head_radius m) in
  let bounce_damp := lit 5 10 in
  let m1 :=
    if x m - of_Z buffer <? of_Z 0 then
      let m' := set_dx (fabs (dx m * bounce_damp)) (set_x (of_Z buffer) m) in
      set_angle (math_atan2 (dy m') (dx m')) m'
    else if x m + of_Z buffer >? of_Z (sim_width m) then
      let m' := set_dx (- fabs (dx m * bounce_damp))
                       (set_x (of_Z (sim_width m - buffer)) m) in
      set_angle (math_atan2 (dy m') (dx m')) m'
    else m in
  if head_top_y - of_Z buffer <? of_Z 0 then
    let m' := set_dy (fabs (dy m1 * bounce_damp))
                (set_y (of_Z (buffer - (head_v_offset m1 - head_radius m1))) m1) in
    set_angle (math_atan2 (dy m') (dx m')) m'
  else if y m1 + of_Z SHADOW_OFFSET + of_Z (body_radius m1) + of_Z buffer
          >? of_Z (sim_height m1) then
    let m' := set_dy (- fabs (dy m1 * bounce_damp))
                (set_y (of_Z (sim_height m1 - (SHADOW_OFFSET + body_radius m1) - buffer)) m1) in
    set_angle (math_atan2 (dy m') (dx m')) m'
  else m1.

(** [meeple.update(dt, is_daytime)]; [speed] is the global
    [simulation_speed_multiplier], [ps] the store [self.home] points into. *)
Definition update (ps : list Placeable) (speed : F) (u : UpdateDraws) (dt : F)
    (is_daytime : bool) (m : Meeple) : Meeple :=
  update_boundary (update_movement speed u dt (update_state ps u is_daytime m)).


(** ** handle_collisions *)

(** One iteration of the inner meeple-meeple loop, on [meeples[i]] and
    [meeples[j]]. *)
Definition pair_step (to_remove : list nat) (i j : nat) (ms : list Meeple) : list Meeple :=
  match nth_error ms i, nth_error ms j with
  | Some m1, Some m2 =>
      if mem (mid m2) to_remove then ms
      else
        let dist_x := x m1 - x m2 in
        let dist_y := y m1 - y m2 in
        let dist_sq := sq dist_x + sq dist_y in
        let min_dist := (collision_radius m1 + collision_radius m2)%Z in
        let min_dist_sq := (min_dist ^ 2)%Z in
        if (dist_sq <? of_Z min_dist_sq) && (dist_sq >? lit 1 1000) then
          let distance := fsqrt dist_sq in
          let overlap := (of_Z min_dist - distance) / lit 2 1 in
          let push_scale := lit 1 1 in
          let push_x := (dist_x / distance) * overlap * COLLISION_PUSH_FORCE * push_scale in
          let push_y := (dist_y / distance) * overlap * COLLISION_PUSH_FORCE * push_scale in
          set_nth j (set_pos (x m2 - push_x) (y m2 - push_y) m2)
            (set_nth i (set_pos (x m1 + push_x) (y m1 + push_y) m1) ms)
        else ms
  | _, _ => ms
  end.

(** The "Meeple-Meeple" loops. *)
Definition meeple_meeple_pass (to_remove : list nat) (ms : list Meeple) : list Meeple :=
  let n := length ms in
  fold_left
    (fun ms i =>
       match nth_error ms i with
       | Some m1 =>
           if mem (mid m1) to_remove then ms
           else fold_left (fun ms j => pair_step to_remove i j ms)
                          (seq (S i) (n - S i)) ms
       | None => ms
       end)
    (seq 0 n) ms.

(** The push out of an obstacle whose [collision_rect] the meeple's
    rectangle meets. *)
Definition obstacle_push (dt : F) (obs : Placeable) (m : Meeple) : Meeple :=
  let '(center_x_obs, center_y_obs) := r_center (collision_rect obs) in
  let dist_x := x m - of_Z center_x_obs in
  let dist_y := y m - of_Z center_y_obs in
  let dist := math_hypot dist_x dist_y in
  let '(dist, dist_x) :=
    if dist <? lit 1 100 then (lit 1 100, lit 1 100) else (dist, dist_x) in
  let push_scale := lit 1 1 in
  let push_x := (dist_x / dist) * OBSTACLE_PUSH_FORCE * push_scale in
  let push_y := (dist_y / dist) * OBSTACLE_PUSH_FORCE * push_scale in
  let m1 := set_pos (x m + push_x) (y m + push_y) m in
  let vel_x := if dt >? of_Z 0 then dx m1 / dt else of_Z 0 in
  let vel_y := if dt >? of_Z 0 then dy m1 / dt else of_Z 0 in
  let dot_product := vel_x * (dist_x / dist) + vel_y * (dist_y / dist) in
  if dot_product <? of_Z 0 then
    set_vel (dx m1 - dot_product * (dist_x / dist) * dt * lit 8 10)
            (dy m1 - dot_product * (dist_y / dist) * dt * lit 8 10) m1
  else m1.

(** The "Meeple-Hole Check": is the meeple inside the hole's inner circle? *)
Definition hole_test (obs : Placeable) (m : Meeple) : bool :=
  match payload obs with
  | Hole radius =>
      let dist_x := x m - p_x obs in
      let dist_y := y m - p_y obs in
      sq dist_x + sq dist_y <? sq (of_Z radius * lit 8 10)
  | _ => false
  end.

(** The body of [for obs in obstacles] for one meeple: [col_rect] is the
    rectangle computed before the loop, the state is the meeple and
    [meeples_to_remove]. *)
Definition obstacle_step (dt : F) (col_rect : Rect) (st : Meeple * list nat)
    (obs : Placeable) : Meeple * list nat :=
  let '(m, to_remove) := st in
  let m1 :=
    if rect_bool (collision_rect obs) && colliderect col_rect (collision_rect obs)
    then obstacle_push dt obs m else m in
  if hole_test obs m1 then
    (m1, if negb (mem (mid m1) to_remove) then to_remove ++ [mid m1] else to_remove)
  else (m1, to_remove).

(** [pygame.Rect(x - r, y - r, r * 2, r * 2)] of a meeple. *)
Definition meeple_col_rect (m : Meeple) : Rect :=
  mkRect (ftrunc (x m - of_Z (collision_radius m)))
         (ftrunc (y m - of_Z (collision_radius m)))
         (collision_radius m * 2) (collision_radius m * 2).

(** One meeple against all obstacles. *)
Definition obstacle_visit (dt : F) (obstacles : list Placeable)
    (st : Meeple * list nat) : Meeple * list nat :=
  fold_left (obstacle_step dt (meeple_col_rect (fst st))) obstacles st.

(** The "Meeple-Obstacle" loop: the meeples as left by the loop and
    [meeples_to_remove]. *)
Fixpoint meeple_obstacle_pass (dt : F) (obstacles : list Placeable)
    (to_remove : list nat) (ms : list Meeple) : list Meeple * list nat :=
  match ms with
  | [] => ([], to_remove)
  | m :: rest =>
      if mem (mid m) to_remove then
        let '(rest', tr) := meeple_obstacle_pass dt obstacles to_remove rest in
        (m :: rest', tr)
      else
        let '(m', tr) := obstacle_visit dt obstacles (m, to_remove) in
        let '(rest', tr') := meeple_obstacle_pass dt obstacles tr rest in
        (m' :: rest', tr')
  end.

(** "Remove from home lists if assigned", for one removed meeple. *)
Definition remove_from_home (ms : list Meeple) (ps : list Placeable) (id : nat)
    : list Placeable :=
  match find_meeple id ms with
  | Some m =>
      match home m with
      | Some h =>
          match find_placeable h ps with
          | Some hb =>
              if mem id (residents_of hb)
              then update_placeable h
                     (fun p => set_residents (remove_first id (residents_of p)) p) ps
              else ps
          | None => ps
          end
      | None => ps
      end
  | None => ps
  end.

(** "Perform removal" *)
Definition perform_removal (to_remove : list nat) (ms : list Meeple) (ps : list Placeable)
    : list Meeple * list Placeable :=
  match to_remove with
  | [] => (ms, ps)
  | _ =>
      (filter (fun m => negb (mem (mid m) to_remove)) ms,
       fold_left (remove_from_home ms) to_remove ps)
  end.

Definition handle_collisions (ms : list Meeple) (obstacles : list Placeable) (dt : F)
    : list Meeple * list Placeable :=
  let meeples_to_remove := [] in
  let ms1 := meeple_meeple_pass meeples_to_remove ms in
  let '(ms2, meeples_to_remove) := meeple_obstacle_pass dt obstacles meeples_to_remove ms1 in
  perform_removal meeples_to_remove ms2 obstacles.

(** ** Global state and the game loop *)

(** The module's globals.  [next_mid] and [next_pid] are the identities the
    next [Meeple] and [Placeable] kept by the program will get; an object
    that is built and dropped leaves no trace.  The rain drops' positions
    belong to drawing and are left out. *)
Record World : Type := mkWorld {
  meeples : list Meeple;
  placeables : list Placeable;
  active_effects : list Hurricane;
  is_raining : bool;
  rain_end_time : F;
  selected_tool : option Tool;
  simulation_speed_multiplier : F;
  cycle_timer : F;
  is_daytime : bool;
  running : bool;
  next_mid : nat;
  next_pid : nat
}.

Definition set_meeples (ms : list Meeple) (w : World) : World :=
  mkWorld ms (placeables w) (active_effects w) (is_raining w) (rain_end_time w)
    (selected_tool w) (simulation_speed_multiplier w) (cycle_timer w) (is_daytime w)
    (running w) (next_mid w) (next_pid w).

Definition set_placeables (ps : list Placeable) (w : World) : World :=
  mkWorld (meeples w) ps (active_effects w) (is_raining w) (rain_end_time w)
    (selected_tool w) (simulation_speed_multiplier w) (cycle_timer w) (is_daytime w)
    (running w) (next_mid w) (next_pid w).

Definition set_active_effects (es : list Hurricane) (w : World) : World :=
  mkWorld (meeples w) (placeables w) es (is_raining w) (rain_end_time w)
    (selected_tool w) (simulation_speed_multiplier w) (cycle_timer w) (is_daytime w)
    (running w) (next_mid w) (next_pid w).

Definition set_rain (b : bool) (t : F) (w : World) : World :=
  mkWorld (meeples w) (placeables w) (active_effects w) b t
    (selected_tool w) (simulation_speed_multiplier w) (cycle_timer w) (is_daytime w)
    (running w) (next_mid w) (next_pid w).

Definition set_selected_tool (t : option Tool) (w : World) : World :=
  mkWorld (meeples w) (placeables w) (active_effects w) (is_raining w) (rain_end_time w)
    t (simulation_speed_multiplier w) (cycle_timer w) (is_daytime w)
    (running w) (next_mid w) (next_pid w).

Definition set_speed (s : F) (w : World) : World :=
  mkWorld (meeples w) (placeables w) (active_effects w) (is_raining w) (rain_end_time w)
    (selected_tool w) s (cycle_timer w) (is_daytime w)
    (running w) (next_mid w) (next_pid w).

Definition set_clock (t : F) (d : bool) (w : World) : World :=
  mkWorld (meeples w) (placeables w) (active_effects w) (is_raining w) (rain_end_time w)
    (selected_tool w) (simulation_speed_multiplier w) t d
    (running w) (next_mid w) (next_pid w).

Definition set_running (b : bool) (w : World) : World :=
  mkWorld (meeples w) (placeables w) (active_effects w) (is_raining w) (rain_end_time w)
    (selected_tool w) (simulation_speed_multiplier w) (cycle_timer w) (is_daytime w)
    b (next_mid w) (next_pid w).

Definition set_next_mid (n : nat) (w : World) : World :=
  mkWorld (meeples w) (placeables w) (active_effects w) (is_raining w) (rain_end_time w)
    (selected_tool w) (simulation_speed_multiplier w) (cycle_timer w) (is_daytime w)
    (running w) n (next_pid w).

Definition set_next_pid (n : nat) (w : World) : World :=
  mkWorld (meeples w) (placeables w) (active_effects w) (is_raining w) (rain_end_time w)
    (selected_tool w) (simulation_speed_multiplier w) (cycle_timer w) (is_daytime w)
    (running w) (next_mid w) n.

(** *** Input of one frame *)

Inductive Key : Type := K_PLUS | K_EQUALS | K_MINUS | K_other.

(** What a mouse click may read from outside: [time.time()], the draw for
    a new meeple's angle, the draws of [random.shuffle]. *)
Record ClickDraws : Type := mkClickDraws {
  c_time : F;
  c_angle : F;
  c_randbelow : nat -> nat
}.

Inductive Event : Type :=
  | QUIT
  | KEYDOWN (key : Key)
  | MOUSEBUTTONDOWN (mouse_x mouse_y : Z) (d : ClickDraws)
  | other_event.

Record FrameInput : Type := mkFrameInput {
  tick_ms : Z;                  (* clock.tick(60) *)
  events : list Event;          (* pygame.event.get() *)
  t_rain : F;                   (* time.time() in the rain check *)
  t_effect : nat -> F;          (* time.time() in is_active of the i-th effect *)
  draws : nat -> UpdateDraws    (* the draws of the i-th meeple's update *)
}.

(** *** "Update Day/Night Cycle" *)
Definition advance_clock (dt : F) (w : World) : World :=
  let ct := fmod (cycle_timer w + dt * simulation_speed_multiplier w)
                 (of_Z FULL_CYCLE_SECONDS) in
  set_clock ct (ct <? of_Z DAY_DURATION_SECONDS) w.

(** *** "Speed Control" *)
Definition clamp_speed (s : F) : F := py_max MIN_SPEED_MULT (py_min s MAX_SPEED_MULT).

Definition handle_key (k : Key) (w : World) : World :=
  let s := simulation_speed_multiplier w in
  let s1 := match k with
            | K_PLUS | K_EQUALS => s + SPEED_CHANGE_STEP
            | K_MINUS => s - SPEED_CHANGE_STEP
            | K_other => s
            end in
  set_speed (clamp_speed s1) w.

(** *** "Toolbar Click" *)
Fixpoint toolbar_click (tools : list Tool) (icon_y : Z) (mouse_x mouse_y : Z)
    (sel : option Tool) : option Tool :=
  match tools with
  | [] => sel
  | tool_name :: rest =>
      let icon_rect := mkRect (SIMULATION_WIDTH + ICON_PADDING) icon_y ICON_SIZE ICON_SIZE in
      if collidepoint icon_rect mouse_x mouse_y then
        match sel with
        | Some t => if Tool_eqb t tool_name then None else Some tool_name
        | None => Some tool_name
        end
      else toolbar_click rest (icon_y + (ICON_SIZE + ICON_PADDING)) mouse_x mouse_y sel
  end.

(** *** "Add Placeable & Check Overlap" *)

(** The loop over [placeables] with its [break]. *)
Definition can_place (new_obj : Placeable) (ps : list Placeable) : bool :=
  if rect_bool (collision_rect new_obj) then
    negb (existsb
            (fun existing_obj =>
               rect_bool (collision_rect existing_obj) &&
               colliderect (collision_rect new_obj) (collision_rect existing_obj))
            ps)
  else true.

(** "Assign residents if it's a Hut": the loop over the shuffled
    [unassigned] list, [assigned_count] so far. *)
Fixpoint assign_loop (h_id : nat) (cap : nat) (unassigned : list nat) (assigned_count : nat)
    (ms : list Meeple) (ps : list Placeable) : list Meeple * list Placeable * nat :=
  match unassigned with
  | [] => (ms, ps, assigned_count)
  | meeple_to_assign :: rest =>
      let '(ms1, ps1, ok) := assign_home meeple_to_assign h_id ms ps in
      if ok then
        if (cap <=? S assigned_count)%nat then (ms1, ps1, S assigned_count)
        else assign_loop h_id cap rest (S assigned_count) ms1 ps1
      else assign_loop h_id cap rest assigned_count ms1 ps1
  end.

Definition assign_residents (rb : nat -> nat) (new_obj : Placeable)
    (ms : list Meeple) (ps : list Placeable) : list Meeple * list Placeable * nat :=
  let unassigned :=
    map (@mid F) (filter (fun m => match home m with None => true | Some _ => false end) ms) in
  assign_loop (pid new_obj) (max_residents_of new_obj) (shuffle rb unassigned) 0 ms ps.

(** Placing an object of kind [k] at the click. *)
Definition place (k : Kind) (mouse_x mouse_y : Z) (rb : nat -> nat) (w : World) : World :=
  let new_obj := new_Placeable k (next_pid w) mouse_x mouse_y in
  if can_place new_obj (placeables w) then
    let ps := placeables w ++ [new_obj] in
    let w1 := set_next_pid (S (next_pid w)) (set_placeables ps w) in
    if is_Hut new_obj then
      let '(ms', ps', _) := assign_residents rb new_obj (meeples w1) (placeables w1) in
      set_placeables ps' (set_meeples ms' w1)
    else w1
  else w.

(** The tool "add_meeple". *)
Definition add_meeple (mouse_x mouse_y : Z) (u : F) (w : World) : World :=
  let new_meeple :=
    Meeple_init (next_mid w) (of_Z mouse_x) (of_Z mouse_y) SIMULATION_WIDTH SCREEN_HEIGHT u in
  let temp_rect := mkRect (mouse_x - 1) (mouse_y - 1) 2 2 in
  let can_place :=
    negb (existsb
            (fun obs => rect_bool (collision_rect obs) &&
                        colliderect (collision_rect obs) temp_rect)
            (placeables w)) in
  if can_place
  then set_next_mid (S (next_mid w)) (set_meeples (meeples w ++ [new_meeple]) w)
  else w.

(** "Simulation Area Click" with [tool] selected. *)
Definition use_tool (tool : Tool) (mouse_x mouse_y : Z) (d : ClickDraws) (w : World) : World :=
  match tool with
  | T_hole => place K_Hole mouse_x mouse_y (c_randbelow d) w
  | T_hut => place K_Hut mouse_x mouse_y (c_randbelow d) w
  | T_farm => place K_Farm mouse_x mouse_y (c_randbelow d) w
  | T_factory => place K_Factory mouse_x mouse_y (c_randbelow d) w
  | T_tree => place K_Tree mouse_x mouse_y (c_randbelow d) w
  | T_hurricane =>
      set_active_effects [Hurricane_init mouse_x mouse_y (c_time d)] w
  | T_rain =>
      if negb (is_raining w)
      then set_rain true (c_time d + of_Z RAIN_DURATION) w
      else set_rain false (rain_end_time w) w
  | T_add_meeple => add_meeple mouse_x mouse_y (c_angle d) w
  end.

Definition handle_event (e : Event) (w : World) : World :=
  match e with
  | QUIT => set_running false w
  | KEYDOWN k => handle_key k w
  | MOUSEBUTTONDOWN mouse_x mouse_y d =>
      if (SIMULATION_WIDTH <=? mouse_x)%Z then
        set_selected_tool
          (toolbar_click TOOLS ICON_PADDING mouse_x mouse_y (selected_tool w)) w
      else
        match selected_tool w with
        | Some tool => use_tool tool mouse_x mouse_y d w
        | None => w
        end
  | other_event => w
  end.

Definition handle_events (es : list Event) (w : World) : World :=
  fold_left (fun w e => handle_event e w) es w.

(** *** "Update Phase" *)

(** "Update timed effects" *)
Definition filter_active (t : nat -> F) (es : list Hurricane) : list Hurricane :=
  map snd (filter (fun ie => is_active (t (fst ie)) (snd ie))
                  (combine (seq 0 (length es)) es)).

Definition update_effects (inp : FrameInput) (w : World) : World :=
  let raining :=
    if is_raining w && (t_rain inp >? rain_end_time w) then false else is_raining w in
  set_active_effects (filter_active (t_effect inp) (active_effects w))
    (set_rain raining (rain_end_time w) w).

(** The body of [for meeple in meeples], for the [i]-th meeple. *)
Definition update_one (inp : FrameInput) (dt : F) (w : World) (i : nat) (m : Meeple) : Meeple :=
  let current_speed_mod_rain := if is_raining w then RAIN_SPEED_MULTIPLIER else lit 1 1 in
  let m1 := set_speed_multiplier_effect current_speed_mod_rain m in
  let m2 := fold_left (fun m e => apply_effect e m) (active_effects w) m1 in
  update (placeables w) (simulation_speed_multiplier w) (draws inp i) dt (is_daytime w) m2.

Definition update_meeples (inp : FrameInput) (dt : F) (w : World) : World :=
  set_meeples
    (map (fun im => update_one inp dt w (fst im) (snd im))
         (combine (seq 0 (length (meeples w))) (meeples w)))
    w.

(** *** One iteration of the game loop, up to drawing *)
Definition frame_dt (inp : FrameInput) : F :=
  py_min (of_Z (tick_ms inp) / lit 1000 1) (lit 5 100).

Definition frame (inp : FrameInput) (w : World) : World :=
  let dt := frame_dt inp in
  let w1 := advance_clock dt w in
  let w2 := handle_events (events inp) w1 in
  let w3 := update_effects inp w2 in
  let w4 := update_meeples inp dt w3 in
  let '(ms, ps) := handle_collisions (meeples w4) (placeables w4) dt in
  set_placeables ps (set_meeples ms w4).

(** *** The state before the first frame

    [spawn i] gives the three draws behind the [i]-th initial meeple: its
    spawn angle, its spawn radius and its heading. *)
Definition initial_meeples (spawn : nat -> F * F * F) : list Meeple :=
  let center_x := (SIMULATION_WIDTH / 2)%Z in
  let center_y := (SCREEN_HEIGHT / 2)%Z in
  let spawn_radius := 70%Z in
  map (fun i => let '(ua, ur, u) := spawn i in
                let a := random_uniform (of_Z 0) (of_Z 2 * math_pi) ua in
                let r := random_uniform (of_Z 0) (of_Z spawn_radius) ur in
                Meeple_init i (of_Z center_x + math_cos a * r) (of_Z center_y + math_sin a * r)
                            SIMULATION_WIDTH SCREEN_HEIGHT u)
      (seq 0 INITIAL_NUM_MEEPLES).

Definition initial_world (spawn : nat -> F * F * F) : World :=
  {| meeples := initial_meeples spawn;
     placeables := [];
     active_effects := [];
     is_raining := false;
     rain_end_time := of_Z 0;
     selected_tool := None;
     simulation_speed_multiplier := lit 1 1;
     cycle_timer := lit 0 1;
     is_daytime := true;
     running := true;
     next_mid := INITIAL_NUM_MEEPLES;
     next_pid := 0 |}.

End Sim.

Arguments UpdateDraws F : clear implicits.
Arguments World F : clear implicits.
Arguments ClickDraws F : clear implicits.
Arguments Event F : clear implicits.
Arguments FrameInput F : clear implicits.

(* ================================================================== *)
(** * Properties: definitions *)

Section Invariants.

Context {F : Type} {NF : PyFloat F}.

(** An object never holds more residents than its capacity, and the
    capacity of a hut is [HUT_MAX_RESIDENTS]. *)
Definition capacity_bound (p : Placeable F) : Prop :=
  length (residents_of p) <= max_residents_of p /\
  (is_Hut p = true -> max_residents_of p = HUT_MAX_RESIDENTS).

Definition cap_ok (ps : list (Placeable F)) : Prop := Forall capacity_bound ps.

(** What the membership relation sees of a meeple: identity and home. *)
Definition skel (ms : list (Meeple F)) : list (nat * option nat) :=
  map (fun m => (mid m, home m)) ms.

Definition homeless (m : Meeple F) : bool :=
  match home m with None => true | Some _ => false end.

(** What [handle_collisions] leaves alone in a meeple: everything but
    position and velocity. *)
Definition still (m : Meeple F)
  : nat * option nat * MState * option (Z * Z) * F * Z :=
  (mid m, home m, state m, target_pos m, speed_multiplier_effect m, collision_radius m).

(** A well-formed store: identities are unique, and the two sides of the
    meeple/hut relation agree ([home] of a meeple is a hut listing it; every
    resident listed is a present meeple whose [home] is that hut, listed
    once).  The meeples enter through their [skel]. *)
Record wf_skel (sk : list (nat * option nat)) (ps : list (Placeable F)) : Prop := {
  wf_mids : NoDup (map fst sk);
  wf_pids : NoDup (map (@pid F) ps);
  wf_home : forall i h, In (i, Some h) sk ->
              exists p, In p ps /\ pid p = h /\ In i (residents_of p);
  wf_res : forall p r, In p ps -> In r (residents_of p) -> In (r, Some (pid p)) sk;
  wf_res_nodup : forall p, In p ps -> NoDup (residents_of p)
}.

Definition wf_store (ms : list (Meeple F)) (ps : list (Placeable F)) : Prop :=
  wf_skel (skel ms) ps.

(** Well-formed store whose identities are below the counters. *)
Definition wf_counted (sk : list (nat * option nat)) (ps : list (Placeable F))
    (nm np : nat) : Prop :=
  wf_skel sk ps /\
  (forall i o, In (i, o) sk -> i < nm) /\
  (forall p, In p ps -> pid p < np).

Definition wf (w : World F) : Prop :=
  wf_counted (skel (meeples w)) (placeables w) (next_mid w) (next_pid w).

End Invariants.

Section Reachable.

Context {F : Type} {NF : PyFloat F} {TF : PyTrig F}.

(** The states the game loop can be in between two frames. *)
Inductive reachable : World F -> Prop :=
  | reach_init : forall spawn, reachable (initial_world spawn)
  | reach_frame : forall inp w, reachable w -> reachable (frame inp w).

End Reachable.

(* ================================================================== *)
(** * Lists *)

Lemma mem_In (a : nat) (l : list nat) : mem a l = true <-> In a l.
Proof.
  unfold mem. rewrite existsb_exists. split.
  - intros [b [Hb Heq]]. apply Nat.eqb_eq in Heq. now subst.
  - intros Hin. exists a. split; [exact Hin | apply Nat.eqb_refl].
Qed.

Lemma mem_false (a : nat) (l : list nat) : mem a l = false <-> ~ In a l.
Proof.
  rewrite <- mem_In. destruct (mem a l); split; intros; congruence.
Qed.

Lemma length_set_nth {A} (i : nat) (v : A) (l : list A) :
  length (set_nth i v l) = length l.
Proof.
  revert i. induction l as [|h t IH]; intros [|k]; simpl; auto.
Qed.

Lemma map_set_nth {A B} (f : A -> B) (i : nat) (v a : A) (l : list A) :
  nth_error l i = Some a -> f v = f a -> map f (set_nth i v l) = map f l.
Proof.
  revert i. induction l as [|h t IH]; intros [|k] Hn Hf; simpl in *; try discriminate.
  - injection Hn as ->. now rewrite Hf.
  - f_equal. now apply IH.
Qed.

Lemma nth_error_set_nth_eq {A} (i : nat) (v : A) (l : list A) :
  i < length l -> nth_error (set_nth i v l) i = Some v.
Proof.
  revert i. induction l as [|h t IH]; intros [|k] Hl; simpl in *; try lia; auto.
  apply IH. lia.
Qed.


Lemma remove_first_length_le (a : nat) (l : list nat) :
  length (remove_first a l) <= length l.
Proof.
  induction l as [|b t IH]; simpl; auto.
  destruct (Nat.eqb a b); simpl; lia.
Qed.

Lemma remove_first_In (a b : nat) (l : list nat) :
  In b (remove_first a l) -> In b l.
Proof.
  induction l as [|c t IH]; simpl; auto.
  destruct (Nat.eqb a c); simpl; intuition.
Qed.

Lemma remove_first_In_neq (a b : nat) (l : list nat) :
  a <> b -> In b l -> In b (remove_first a l).
Proof.
  intros Hne. induction l as [|c t IH]; simpl; auto.
  intros [->|Hin].
  - destruct (Nat.eqb_spec a b); [congruence | now left].
  - destruct (Nat.eqb a c); [exact Hin | right; auto].
Qed.

Lemma remove_first_NoDup (a : nat) (l : list nat) :
  NoDup l -> NoDup (remove_first a l) /\ ~ In a (remove_first a l).
Proof.
  induction 1 as [|c t Hc Hnd [IH1 IH2]]; simpl.
  - split; [constructor | auto].
  - destruct (Nat.eqb_spec a c) as [->|Hne].
    + split; assumption.
    + split.
      * constructor; [|exact IH1]. intros Hin. apply Hc. eapply remove_first_In; eauto.
      * intros [Heq|Hin]; [congruence | contradiction].
Qed.

(* ================================================================== *)
(** * The store: finding and updating objects *)

Section Store.

Context {F : Type} {NF : PyFloat F}.
Implicit Types (p hb : Placeable F) (ps : list (Placeable F)).
Implicit Types (m : Meeple F) (ms : list (Meeple F)).

Lemma set_residents_hut rs p :
  is_Hut p = true -> residents_of (set_residents rs p) = rs.
Proof. destruct p as [? ? ? ? ? []]; cbv; intros; congruence. Qed.

Lemma set_residents_not_hut rs p :
  is_Hut p = false -> set_residents rs p = p.
Proof. destruct p as [? ? ? ? ? []]; cbv; intros; congruence. Qed.

Lemma max_residents_set_residents rs p :
  max_residents_of (set_residents rs p) = max_residents_of p.
Proof. destruct p as [? ? ? ? ? []]; cbv; intros; congruence. Qed.

Lemma pid_set_residents rs p : pid (set_residents rs p) = pid p.
Proof. destruct p as [? ? ? ? ? []]; cbv; intros; congruence. Qed.

Lemma is_Hut_set_residents rs p : is_Hut (set_residents rs p) = is_Hut p.
Proof. destruct p as [? ? ? ? ? []]; cbv; intros; congruence. Qed.

Lemma collision_rect_set_residents rs p :
  collision_rect (set_residents rs p) = collision_rect p.
Proof. destruct p as [? ? ? ? ? []]; cbv; intros; congruence. Qed.

Lemma residents_not_hut p : is_Hut p = false -> residents_of p = [].
Proof. destruct p as [? ? ? ? ? []]; cbv; intros; congruence. Qed.

Lemma find_placeable_In id ps p :
  find_placeable id ps = Some p -> In p ps /\ pid p = id.
Proof.
  unfold find_placeable. intros H. apply find_some in H.
  destruct H as [Hin Heq]. apply Nat.eqb_eq in Heq. auto.
Qed.

Lemma find_meeple_In id ms m :
  find_meeple id ms = Some m -> In m ms /\ mid m = id.
Proof.
  unfold find_meeple. intros H. apply find_some in H.
  destruct H as [Hin Heq]. apply Nat.eqb_eq in Heq. auto.
Qed.

Lemma update_placeable_none id f ps :
  find_placeable id ps = None -> update_placeable id f ps = ps.
Proof.
  unfold find_placeable. induction ps as [|p t IH]; simpl; auto.
  destruct (Nat.eqb (pid p) id); [discriminate|]. intros H. now rewrite IH.
Qed.

(** Updating an identity rewrites exactly the object found under it. *)
Lemma update_placeable_split id f ps hb :
  find_placeable id ps = Some hb ->
  exists l1 l2, ps = l1 ++ hb :: l2 /\
                update_placeable id f ps = l1 ++ f hb :: l2 /\
                (forall q, In q l1 -> pid q <> id).
Proof.
  unfold find_placeable. induction ps as [|p t IH]; simpl; [discriminate|].
  destruct (Nat.eqb_spec (pid p) id) as [Heq|Hne].
  - intros [= ->]. exists [], t. repeat split; auto; intros q [].
  - intros H. destruct (IH H) as (l1 & l2 & -> & Hu & Hl1).
    exists (p :: l1), l2. simpl. rewrite Hu. repeat split; auto.
    intros q [<-|Hq]; auto.
Qed.

Lemma update_meeple_split id f ms m :
  find_meeple id ms = Some m ->
  exists l1 l2, ms = l1 ++ m :: l2 /\
                update_meeple id f ms = l1 ++ f m :: l2 /\
                (forall q, In q l1 -> mid q <> id).
Proof.
  unfold find_meeple. induction ms as [|p t IH]; simpl; [discriminate|].
  destruct (Nat.eqb_spec (mid p) id) as [Heq|Hne].
  - intros [= ->]. exists [], t. repeat split; auto; intros q [].
  - intros H. destruct (IH H) as (l1 & l2 & -> & Hu & Hl1).
    exists (p :: l1), l2. simpl. rewrite Hu. repeat split; auto.
    intros q [<-|Hq]; auto.
Qed.

Lemma update_meeple_none id f ms :
  find_meeple id ms = None -> update_meeple id f ms = ms.
Proof.
  unfold find_meeple. induction ms as [|p t IH]; simpl; auto.
  destruct (Nat.eqb (mid p) id); [discriminate|]. intros H. now rewrite IH.
Qed.

Lemma map_pid_update id f ps :
  (forall p, pid (f p) = pid p) ->
  map (@pid F) (update_placeable id f ps) = map (@pid F) ps.
Proof.
  intros Hf. induction ps as [|p t IH]; simpl; auto.
  destruct (Nat.eqb (pid p) id); simpl; [now rewrite Hf | now rewrite IH].
Qed.

Lemma map_mid_update id f ms :
  (forall m, mid (f m) = mid m) ->
  map (@mid F) (update_meeple id f ms) = map (@mid F) ms.
Proof.
  intros Hf. induction ms as [|p t IH]; simpl; auto.
  destruct (Nat.eqb (mid p) id); simpl; [now rewrite Hf | now rewrite IH].
Qed.

Lemma map_rect_update id f ps :
  (forall p, collision_rect (f p) = collision_rect p) ->
  map (@collision_rect F) (update_placeable id f ps) = map (@collision_rect F) ps.
Proof.
  intros Hf. induction ps as [|p t IH]; simpl; auto.
  destruct (Nat.eqb (pid p) id); simpl; [now rewrite Hf | now rewrite IH].
Qed.

End Store.

(* ================================================================== *)
(** * Capacity *)

Section Capacity.

Context {F : Type} {NF : PyFloat F}.
Implicit Types (p hb : Placeable F) (ps : list (Placeable F)).
Implicit Types (m : Meeple F) (ms : list (Meeple F)).

Lemma cap_update_found id f ps hb :
  find_placeable id ps = Some hb ->
  capacity_bound (f hb) -> cap_ok ps -> cap_ok (update_placeable id f ps).
Proof.
  intros Hfind Hf Hcap.
  destruct (update_placeable_split id f ps Hfind) as (l1 & l2 & -> & -> & _).
  unfold cap_ok in *. rewrite Forall_app in *. destruct Hcap as [H1 H2].
  split; [exact H1|]. inversion H2; subst. constructor; assumption.
Qed.

Lemma cap_update_shrink id rs ps :
  (forall p, length (rs p) <= length (residents_of p)) ->
  cap_ok ps -> cap_ok (update_placeable id (fun p => set_residents (rs p) p) ps).
Proof.
  intros Hrs Hcap.
  destruct (find_placeable id ps) as [hb|] eqn:Hfind.
  - eapply cap_update_found; eauto.
    destruct (find_placeable_In _ _ Hfind) as [Hin _].
    unfold cap_ok in Hcap. rewrite Forall_forall in Hcap.
    destruct (Hcap _ Hin) as [H1 H2]. unfold capacity_bound.
    rewrite max_residents_set_residents, is_Hut_set_residents. split; [|exact H2].
    destruct (is_Hut hb) eqn:Hh.
    + rewrite set_residents_hut by exact Hh. specialize (Hrs hb). lia.
    + now rewrite set_residents_not_hut.
  - now rewrite update_placeable_none.
Qed.

Lemma assign_home_cap m_id h_id ms ps :
  cap_ok ps -> cap_ok (snd (fst (assign_home m_id h_id ms ps))).
Proof.
  intros Hcap. unfold assign_home.
  destruct (find_placeable h_id ps) as [hb|] eqn:Hfind; [|exact Hcap].
  destruct (is_Hut hb) eqn:Hh; simpl; [|exact Hcap].
  destruct (Nat.ltb_spec (length (residents_of hb)) (max_residents_of hb)) as [Hlt|Hge];
    simpl; [|exact Hcap].
  eapply cap_update_found; eauto.
  destruct (find_placeable_In _ _ Hfind) as [Hin _].
  unfold cap_ok in Hcap. rewrite Forall_forall in Hcap.
  destruct (Hcap _ Hin) as [H1 H2]. unfold capacity_bound.
  rewrite max_residents_set_residents, is_Hut_set_residents, set_residents_hut by exact Hh.
  rewrite length_app. simpl. split; [lia | exact H2].
Qed.

(** On a full hut [assign_home] returns [False] and changes nothing. *)
Lemma assign_home_full m_id h_id ms ps hb :
  find_placeable h_id ps = Some hb ->
  max_residents_of hb <= length (residents_of hb) ->
  assign_home m_id h_id ms ps = (ms, ps, false).
Proof.
  intros Hfind Hfull. unfold assign_home. rewrite Hfind.
  destruct (Nat.ltb_spec (length (residents_of hb)) (max_residents_of hb)); [lia|].
  now rewrite andb_false_r.
Qed.

Lemma assign_loop_cap h_id cap l n ms ps :
  cap_ok ps ->
  cap_ok (snd (fst (assign_loop h_id cap l n ms ps))).
Proof.
  revert n ms ps. induction l as [|a l IH]; intros n ms ps Hcap; simpl; [exact Hcap|].
  pose proof (assign_home_cap a h_id ms Hcap) as H1.
  destruct (assign_home a h_id ms ps) as [[ms1 ps1] ok]. simpl in H1.
  destruct ok.
  - destruct (cap <=? S n); [exact H1 | now apply IH].
  - now apply IH.
Qed.

Lemma new_Placeable_cap k id px py : capacity_bound (new_Placeable (F:=F) k id px py).
Proof. destruct k; unfold capacity_bound; cbn; split; intros; (lia || congruence). Qed.

Lemma place_cap k px py rb (w : World F) :
  cap_ok (placeables w) -> cap_ok (placeables (place k px py rb w)).
Proof.
  intros Hcap. unfold place.
  destruct (can_place _ _); [|exact Hcap].
  assert (Hcap' : cap_ok (placeables w ++ [new_Placeable k (next_pid w) px py])).
  { unfold cap_ok. rewrite Forall_app. split; [exact Hcap|].
    constructor; [apply new_Placeable_cap | constructor]. }
  destruct (is_Hut _); [|exact Hcap'].
  unfold assign_residents. simpl meeples. simpl placeables.
  match goal with
  | |- context [assign_loop ?h ?c ?l ?n ?ms ?ps] =>
      pose proof (@assign_loop_cap h c l n ms ps Hcap') as H1;
      destruct (assign_loop h c l n ms ps) as [[ms' ps'] cnt]
  end.
  exact H1.
Qed.

Lemma remove_from_home_cap ms ps id :
  cap_ok ps -> cap_ok (remove_from_home ms ps id).
Proof.
  intros Hcap. unfold remove_from_home.
  destruct (find_meeple id ms) as [m|]; [|exact Hcap].
  destruct (home m) as [h|]; [|exact Hcap].
  destruct (find_placeable h ps) as [hb|]; [|exact Hcap].
  destruct (mem id (residents_of hb)); [|exact Hcap].
  apply cap_update_shrink with (rs := fun p => remove_first id (residents_of p)); auto.
  intros p. apply remove_first_length_le.
Qed.

Lemma fold_remove_from_home_cap ms l ps :
  cap_ok ps -> cap_ok (fold_left (remove_from_home ms) l ps).
Proof.
  revert ps. induction l as [|b l IH]; intros ps Hcap; simpl; [exact Hcap|].
  apply IH. now apply remove_from_home_cap.
Qed.

Lemma perform_removal_cap tr ms ps :
  cap_ok ps -> cap_ok (snd (perform_removal tr ms ps)).
Proof.
  intros Hcap. unfold perform_removal. destruct tr as [|a tr]; [exact Hcap|].
  now apply fold_remove_from_home_cap.
Qed.

Lemma handle_collisions_cap ms ps dt :
  cap_ok ps -> cap_ok (snd (handle_collisions ms ps dt)).
Proof.
  intros Hcap. unfold handle_collisions.
  destruct (meeple_obstacle_pass _ _ _ _) as [ms2 tr].
  now apply perform_removal_cap.
Qed.

End Capacity.

(* ================================================================== *)
(** * The game loop, phase by phase *)

Section Phases.

Context {F : Type} {NF : PyFloat F} {TF : PyTrig F}.
Implicit Types (w : World F) (m : Meeple F) (ms : list (Meeple F)).
Implicit Types (p : Placeable F) (ps : list (Placeable F)).

(** [update] moves a meeple and steers its state; identity and home stay. *)
Lemma update_boundary_keeps m :
  mid (update_boundary m) = mid m /\ home (update_boundary m) = home m /\
  state (update_boundary m) = state m /\ target_pos (update_boundary m) = target_pos m /\
  speed_multiplier_effect (update_boundary m) = speed_multiplier_effect m.
Proof.
  unfold update_boundary.
  repeat match goal with
         | |- context [if ?b then _ else _] => destruct b
         end; cbn; auto.
Qed.

Lemma update_movement_keeps speed u dt m :
  mid (update_movement speed u dt m) = mid m /\
  home (update_movement speed u dt m) = home m /\
  state (update_movement speed u dt m) = state m /\
  target_pos (update_movement speed u dt m) = target_pos m /\
  speed_multiplier_effect (update_movement speed u dt m) = speed_multiplier_effect m.
Proof.
  unfold update_movement.
  destruct (state m) eqn:Hs; destruct (target_pos m) as [[tx ty]|] eqn:Ht;
    repeat match goal with
           | |- context [if ?b then _ else _] => destruct b
           end; cbn; auto.
Qed.

Lemma update_state_keeps ps u d m :
  mid (update_state ps u d m) = mid m /\ home (update_state ps u d m) = home m /\
  speed_multiplier_effect (update_state ps u d m) = speed_multiplier_effect m.
Proof.
  unfold update_state. destruct (home_rect ps m) as [hr|]; [|auto].
  destruct (get_random_spot_nearby hr _ _) as [nx ny].
  destruct d; destruct (state m);
    repeat match goal with
           | |- context [if ?b then _ else _] => destruct b
           end; cbn; auto.
Qed.

Lemma update_keeps ps speed u dt d m :
  mid (update ps speed u dt d m) = mid m /\ home (update ps speed u dt d m) = home m /\
  speed_multiplier_effect (update ps speed u dt d m) = speed_multiplier_effect m.
Proof.
  unfold update.
  destruct (update_boundary_keeps (update_movement speed u dt (update_state ps u d m)))
    as (-> & -> & _ & _ & ->).
  destruct (update_movement_keeps speed u dt (update_state ps u d m))
    as (-> & -> & _ & _ & ->).
  apply update_state_keeps.
Qed.

Lemma apply_effect_keeps e m :
  mid (apply_effect e m) = mid m /\ home (apply_effect e m) = home m /\
  speed_multiplier_effect (apply_effect e m) = speed_multiplier_effect m /\
  state (apply_effect e m) = state m /\ target_pos (apply_effect e m) = target_pos m /\
  x (apply_effect e m) = x m /\ y (apply_effect e m) = y m.
Proof.
  unfold apply_effect.
  match goal with |- context [if ?b then _ else _] => destruct b end; cbn; auto 10.
Qed.

Lemma apply_effects_keeps es m :
  let m' := fold_left (fun m e => apply_effect e m) es m in
  mid m' = mid m /\ home m' = home m /\
  speed_multiplier_effect m' = speed_multiplier_effect m /\
  state m' = state m /\ target_pos m' = target_pos m /\ x m' = x m /\ y m' = y m.
Proof.
  revert m. induction es as [|e es IH]; intros m; simpl; [auto 10|].
  destruct (IH (apply_effect e m)) as (-> & -> & -> & -> & -> & -> & ->).
  apply apply_effect_keeps.
Qed.

Lemma update_one_keeps inp dt w i m :
  mid (update_one inp dt w i m) = mid m /\ home (update_one inp dt w i m) = home m.
Proof.
  unfold update_one.
  match goal with
  | |- context [update ?ps ?s ?u ?dt ?d ?m0] =>
      destruct (update_keeps ps s u dt d m0) as (-> & -> & _)
  end.
  match goal with
  | |- context [fold_left ?f ?es ?m0] =>
      destruct (apply_effects_keeps es m0) as (-> & -> & _)
  end.
  cbn. auto.
Qed.

Lemma map_combine_seq {A B} (f : nat -> A -> A) (g : A -> B) (l : list A) (n : nat) :
  (forall i a, g (f i a) = g a) ->
  map g (map (fun ia => f (fst ia) (snd ia)) (combine (seq n (length l)) l)) = map g l.
Proof.
  intros Hfg. revert n. induction l as [|a l IH]; intros n; simpl; auto.
  rewrite Hfg. f_equal. apply IH.
Qed.

Lemma update_meeples_skel inp dt w :
  skel (meeples (update_meeples inp dt w)) = skel (meeples w).
Proof.
  unfold update_meeples, skel. cbn.
  apply (map_combine_seq (update_one inp dt w) (fun m => (mid m, home m))).
  intros i a. destruct (update_one_keeps inp dt w i a) as [-> ->]. reflexivity.
Qed.

Lemma update_meeples_rest inp dt w :
  placeables (update_meeples inp dt w) = placeables w /\
  next_mid (update_meeples inp dt w) = next_mid w /\
  next_pid (update_meeples inp dt w) = next_pid w /\
  is_raining (update_meeples inp dt w) = is_raining w /\
  simulation_speed_multiplier (update_meeples inp dt w) = simulation_speed_multiplier w.
Proof. unfold update_meeples. cbn. auto. Qed.

Lemma update_effects_rest inp w :
  meeples (update_effects inp w) = meeples w /\
  placeables (update_effects inp w) = placeables w /\
  next_mid (update_effects inp w) = next_mid w /\
  next_pid (update_effects inp w) = next_pid w /\
  simulation_speed_multiplier (update_effects inp w) = simulation_speed_multiplier w.
Proof. unfold update_effects. cbn. auto. Qed.

Lemma advance_clock_rest dt w :
  meeples (advance_clock dt w) = meeples w /\
  placeables (advance_clock dt w) = placeables w /\
  next_mid (advance_clock dt w) = next_mid w /\
  next_pid (advance_clock dt w) = next_pid w /\
  simulation_speed_multiplier (advance_clock dt w) = simulation_speed_multiplier w /\
  is_raining (advance_clock dt w) = is_raining w /\
  rain_end_time (advance_clock dt w) = rain_end_time w.
Proof. unfold advance_clock. cbn. auto 10. Qed.

(** A property of the store that every operation on the store keeps is
    kept by a whole frame.  [P] sees the meeples only through [skel]. *)
Section FrameInvariant.

Variable P : list (nat * option nat) -> list (Placeable F) -> nat -> nat -> Prop.

Definition holds (w : World F) : Prop :=
  P (skel (meeples w)) (placeables w) (next_mid w) (next_pid w).

Hypothesis P_place : forall k px py rb w, holds w -> holds (place k px py rb w).
Hypothesis P_add_meeple : forall px py u w, holds w -> holds (add_meeple px py u w).
Hypothesis P_collisions : forall w ms ps dt,
  holds w -> handle_collisions (meeples w) (placeables w) dt = (ms, ps) ->
  holds (set_placeables ps (set_meeples ms w)).

Lemma holds_handle_event e w : holds w -> holds (handle_event e w).
Proof.
  intros H. destruct e as [|k|px py d|]; cbn; auto.
  destruct (SIMULATION_WIDTH <=? px)%Z; [exact H|].
  destruct (selected_tool w) as [t|]; [|exact H].
  destruct t; cbn; auto.
  destruct (negb (is_raining w)); exact H.
Qed.

Lemma holds_handle_events es w : holds w -> holds (handle_events es w).
Proof.
  unfold handle_events. revert w.
  induction es as [|e es IH]; intros w H; simpl; auto using holds_handle_event.
Qed.

Lemma holds_frame inp w : holds w -> holds (frame inp w).
Proof.
  intros H. unfold frame.
  set (dt := frame_dt inp).
  assert (H1 : holds (advance_clock dt w)) by exact H.
  apply (holds_handle_events (events inp)) in H1.
  set (w2 := handle_events (events inp) (advance_clock dt w)) in *.
  assert (H3 : holds (update_effects inp w2)) by exact H1.
  assert (H4 : holds (update_meeples inp dt (update_effects inp w2))).
  { unfold holds. rewrite update_meeples_skel.
    destruct (update_meeples_rest inp dt (update_effects inp w2)) as (-> & -> & -> & _).
    exact H3. }
  destruct (handle_collisions _ _ dt) as [ms ps] eqn:Hc.
  eapply P_collisions; eauto.
Qed.

End FrameInvariant.

End Phases.


(* ================================================================== *)
(** * Capacity of a hut (C1) *)

Section CapacityClaim.

Context {F : Type} {NF : PyFloat F} {TF : PyTrig F}.

Lemma frame_cap (inp : FrameInput F) (w : World F) :
  cap_ok (placeables w) -> cap_ok (placeables (frame inp w)).
Proof.
  apply (holds_frame (fun _ ps _ _ => cap_ok ps)).
  - intros k px py rb w0. apply place_cap.
  - intros px py u w0 H. unfold holds, add_meeple in *.
    destruct (negb _); cbn; exact H.
  - intros w0 ms ps dt H Hc. unfold holds in *. cbn.
    pose proof (handle_collisions_cap (meeples w0) dt H) as H1.
    now rewrite Hc in H1.
Qed.

Lemma reachable_cap (w : World F) : reachable w -> cap_ok (placeables w).
Proof.
  induction 1 as [spawn | inp w Hr IH].
  - constructor.
  - now apply frame_cap.
Qed.

(** C1.  Capacity bound: in a world where every hut holds at most
    [max_residents] residents (and that capacity is [HUT_MAX_RESIDENTS = 4]),
    the same holds after each operation that touches the membership: any
    [assign_home] call, a placement (with the resident assignment of a hut),
    the per-frame update of the meeples, the collision pass with its hazard
    removals, and a whole frame.  The state before the first frame satisfies
    the bound, and [assign_home] on a full hut returns [False] and leaves
    meeples and placeables as they were. *)
Theorem hut_capacity_bound (w : World F) (Hcap : cap_ok (placeables w)) :
  (forall spawn, cap_ok (placeables (initial_world spawn))) /\
  (forall m_id h_id,
     cap_ok (snd (fst (assign_home m_id h_id (meeples w) (placeables w))))) /\
  (forall k px py rb, cap_ok (placeables (place k px py rb w))) /\
  (forall inp dt, cap_ok (placeables (update_meeples inp dt w))) /\
  (forall dt, cap_ok (snd (handle_collisions (meeples w) (placeables w) dt))) /\
  (forall inp, cap_ok (placeables (frame inp w))) /\
  (forall m_id h_id hb,
     find_placeable h_id (placeables w) = Some hb ->
     max_residents_of hb <= length (residents_of hb) ->
     assign_home m_id h_id (meeples w) (placeables w) = (meeples w, placeables w, false)).
Proof.
  repeat split.
  - intros spawn. constructor.
  - intros m_id h_id. now apply assign_home_cap.
  - intros k px py rb. now apply place_cap.
  - intros inp dt. destruct (update_meeples_rest inp dt w) as (-> & _). exact Hcap.
  - intros dt. now apply handle_collisions_cap.
  - intros inp. now apply frame_cap.
  - intros m_id h_id hb Hfind Hfull. eapply assign_home_full; eauto.
Qed.

End CapacityClaim.


(* ================================================================== *)
(** * The collision pass *)

Section CollisionPass.

Context {F : Type} {NF : PyFloat F}.
Implicit Types (m : Meeple F) (ms : list (Meeple F)).
Implicit Types (p obs : Placeable F) (ps obstacles : list (Placeable F)).
Implicit Types (tr : list nat).

(** The meeple after the push of [obs], if its rectangle [col_rect] meets
    the obstacle. *)
Definition moved (dt : F) (col_rect : Rect) (obs : Placeable F) (m : Meeple F) : Meeple F :=
  if rect_bool (collision_rect obs) && colliderect col_rect (collision_rect obs)
  then obstacle_push dt obs m else m.

(** The meeple after the pushes of all of [obstacles], in their order. *)
Definition pushed_through (dt : F) (col_rect : Rect) (obstacles : list (Placeable F))
    (m : Meeple F) : Meeple F :=
  fold_left (fun m obs => moved dt col_rect obs m) obstacles m.

(** Does some hole test succeed while the meeple goes through [obstacles]?
    Each hole is tested on the position its own push has left. *)
Fixpoint consumed (dt : F) (col_rect : Rect) (obstacles : list (Placeable F))
    (m : Meeple F) : bool :=
  match obstacles with
  | [] => false
  | obs :: rest =>
      let m1 := moved dt col_rect obs m in
      hole_test obs m1 || consumed dt col_rect rest m1
  end.

Lemma still_set_pos a b m : still (set_pos a b m) = still m.
Proof. reflexivity. Qed.

Lemma still_set_vel a b m : still (set_vel a b m) = still m.
Proof. reflexivity. Qed.

Lemma map_set_nth_gen {A B} (f : A -> B) (i : nat) (v : A) (l : list A) :
  (forall a, nth_error l i = Some a -> f v = f a) ->
  map f (set_nth i v l) = map f l.
Proof.
  revert i. induction l as [|h t IH]; intros [|k] Hf; simpl in *; auto.
  - now rewrite (Hf h eq_refl).
  - f_equal. now apply IH.
Qed.

Lemma fold_left_inv {A B} (P : A -> Prop) (f : A -> B -> A) (l : list B) (a : A) :
  (forall acc b, P acc -> P (f acc b)) -> P a -> P (fold_left f l a).
Proof.
  intros Hf. revert a. induction l as [|b l IH]; intros a Ha; simpl; auto.
Qed.

Lemma map_set_nth2 {A B} (f : A -> B) (i j : nat) (v1 v2 a1 a2 : A) (l : list A) :
  nth_error l i = Some a1 -> nth_error l j = Some a2 ->
  f v1 = f a1 -> f v2 = f a2 ->
  map f (set_nth j v2 (set_nth i v1 l)) = map f l.
Proof.
  intros H1 H2 F1 F2.
  assert (E1 : map f (set_nth i v1 l) = map f l).
  { apply map_set_nth_gen. intros a Ha. rewrite H1 in Ha. now injection Ha as <-. }
  rewrite <- E1. apply map_set_nth_gen. intros a Ha.
  assert (E2 : nth_error (map f (set_nth i v1 l)) j = Some (f a))
    by (rewrite nth_error_map, Ha; reflexivity).
  rewrite E1, nth_error_map, H2 in E2. simpl in E2. injection E2 as E2. congruence.
Qed.

Lemma pair_step_still tr i j ms :
  map still (pair_step tr i j ms) = map still ms.
Proof.
  unfold pair_step.
  destruct (nth_error ms i) as [m1|] eqn:H1; [|reflexivity].
  destruct (nth_error ms j) as [m2|] eqn:H2; [|reflexivity].
  destruct (mem (mid m2) tr); [reflexivity|].
  match goal with |- context [if ?b then _ else _] => destruct b end; [|reflexivity].
  eapply map_set_nth2; eauto.
Qed.

Lemma meeple_meeple_pass_still tr ms :
  map still (meeple_meeple_pass tr ms) = map still ms.
Proof.
  unfold meeple_meeple_pass.
  apply (fold_left_inv (fun acc => map still acc = map still ms)); [|reflexivity].
  intros acc i Hacc.
  destruct (nth_error acc i) as [m1|]; [|exact Hacc].
  destruct (mem (mid m1) tr); [exact Hacc|].
  apply (fold_left_inv (fun acc => map still acc = map still ms)); [|exact Hacc].
  intros acc' j Hacc'. now rewrite pair_step_still.
Qed.

Lemma obstacle_push_still dt obs m : still (obstacle_push dt obs m) = still m.
Proof.
  unfold obstacle_push. destruct (r_center (collision_rect obs)) as [cx cy].
  repeat match goal with
         | |- context [if ?b then _ else _] => destruct b
         end; reflexivity.
Qed.

Lemma moved_still dt r obs m : still (moved dt r obs m) = still m.
Proof.
  unfold moved. destruct (_ && _); [apply obstacle_push_still | reflexivity].
Qed.

Lemma pushed_through_still dt r obstacles m :
  still (pushed_through dt r obstacles m) = still m.
Proof.
  unfold pushed_through.
  apply (fold_left_inv (fun acc => still acc = still m)); [|reflexivity].
  intros acc o Hacc. now rewrite moved_still.
Qed.

Lemma still_mid m m' : still m = still m' -> mid m = mid m'.
Proof. unfold still. congruence. Qed.

Lemma still_home m m' : still m = still m' -> home m = home m'.
Proof. unfold still. congruence. Qed.

Lemma skel_still ms ms' : map still ms = map still ms' -> skel ms = skel ms'.
Proof.
  unfold skel. revert ms'. induction ms as [|a l IH]; intros [|b l']; simpl;
    try discriminate; auto.
  intros Heq.
  pose proof (f_equal (hd (still a)) Heq) as Hab.
  pose proof (f_equal (@tl _) Heq) as Hl. simpl in Hab, Hl.
  f_equal; [|now apply IH].
  now rewrite (still_mid Hab), (still_home Hab).
Qed.


Lemma obstacle_step_eq dt r m tr obs :
  obstacle_step dt r (m, tr) obs =
    (moved dt r obs m,
     if hole_test obs (moved dt r obs m) && negb (mem (mid m) tr)
     then tr ++ [mid m] else tr).
Proof.
  unfold obstacle_step. fold (moved dt r obs m).
  rewrite (still_mid (moved_still dt r obs m)).
  destruct (hole_test obs (moved dt r obs m)); destruct (mem (mid m) tr); reflexivity.
Qed.

(** One meeple's visit of the obstacles: where it ends, and whether it was
    marked. *)
Lemma obstacle_visit_char dt obstacles m tr :
  obstacle_visit dt obstacles (m, tr) =
    (pushed_through dt (meeple_col_rect m) obstacles m,
     if consumed dt (meeple_col_rect m) obstacles m && negb (mem (mid m) tr)
     then tr ++ [mid m] else tr).
Proof.
  unfold obstacle_visit, pushed_through. simpl fst.
  generalize (meeple_col_rect m) as r. intros r.
  assert (G : forall m0, mid m0 = mid m ->
    fold_left (obstacle_step dt r) obstacles (m0, tr) =
    (fold_left (fun m1 obs => moved dt r obs m1) obstacles m0,
     if consumed dt r obstacles m0 && negb (mem (mid m) tr) then tr ++ [mid m] else tr) /\
    forall tr', mem (mid m) tr' = true ->
      fold_left (obstacle_step dt r) obstacles (m0, tr') =
      (fold_left (fun m1 obs => moved dt r obs m1) obstacles m0, tr')).
  { induction obstacles as [|o rest IH]; intros m0 Hid.
    - simpl. split; reflexivity || auto.
    - cbn [fold_left consumed].
      assert (Hid1 : mid (moved dt r o m0) = mid m)
        by (rewrite (still_mid (moved_still dt r o m0)); exact Hid).
      destruct (IH _ Hid1) as [IH1 IH2]. split.
      + rewrite obstacle_step_eq, Hid.
        destruct (hole_test o (moved dt r o m0)); simpl.
        * destruct (mem (mid m) tr) eqn:Hm; simpl.
          -- rewrite IH2 by exact Hm. reflexivity.
          -- rewrite IH2; [reflexivity|].
             apply mem_In. apply in_or_app. right. now left.
        * exact IH1.
      + intros tr' Hm. rewrite obstacle_step_eq, Hid, Hm, andb_false_r.
        now apply IH2. }
  apply (G m eq_refl).
Qed.

Lemma meeple_obstacle_pass_nil dt tr ms :
  meeple_obstacle_pass dt [] tr ms = (ms, tr).
Proof.
  induction ms as [|m rest IH]; simpl; [reflexivity|].
  rewrite IH. destruct (mem (mid m) tr); reflexivity.
Qed.

(** The obstacle loop: positions and velocities aside the meeples are as
    before, and the marked identities are those of the meeples a hole test
    caught. *)
Lemma meeple_obstacle_pass_char dt obstacles ms :
  forall tr ms2 tr2,
  meeple_obstacle_pass dt obstacles tr ms = (ms2, tr2) ->
  map still ms2 = map still ms /\
  (forall id, In id tr2 <->
     In id tr \/
     exists m, In m ms /\ mid m = id /\
               consumed dt (meeple_col_rect m) obstacles m = true).
Proof.
  induction ms as [|m rest IH]; intros tr ms2 tr2 H; simpl in H.
  - injection H as <- <-. split; [reflexivity|].
    intros id. split; [auto|]. intros [Hin|(m & [] & _)]. exact Hin.
  - destruct (mem (mid m) tr) eqn:Hm.
    + destruct (meeple_obstacle_pass dt obstacles tr rest) as [rest' tr'] eqn:Hr.
      injection H as <- <-. destruct (IH _ _ _ Hr) as [IH1 IH2].
      split; [simpl; now rewrite IH1|].
      intros id. rewrite IH2. split.
      * intros [Hin|(m' & Hin & Hid & Hc)]; [now left|].
        right. exists m'. simpl. auto.
      * intros [Hin|(m' & [<-|Hin] & Hid & Hc)]; [now left| |].
        -- left. subst id. now apply mem_In.
        -- right. exists m'. auto.
    + rewrite obstacle_visit_char, Hm, andb_true_r in H.
      destruct (meeple_obstacle_pass dt obstacles _ rest) as [rest' tr'] eqn:Hr.
      injection H as <- <-. destruct (IH _ _ _ Hr) as [IH1 IH2].
      split; [simpl; now rewrite IH1, pushed_through_still|].
      intros id. rewrite IH2. split.
      * intros [Hin|(m' & Hin & Hid & Hc)].
        -- destruct (consumed dt (meeple_col_rect m) obstacles m) eqn:Hc; [|now left].
           apply in_app_or in Hin. destruct Hin as [Hin|[<-|[]]]; [now left|].
           right. exists m. simpl. auto.
        -- right. exists m'. simpl. auto.
      * intros [Hin|(m' & [<-|Hin] & Hid & Hc)].
        -- left. destruct (consumed _ _ _ _); [apply in_or_app|]; auto.
        -- left. rewrite Hc. apply in_or_app. right. subst id. now left.
        -- right. exists m'. auto.
Qed.

Lemma filter_all {A} (l : list A) : filter (fun _ => true) l = l.
Proof. induction l; simpl; congruence. Qed.

(** [handle_collisions] as its three steps. *)
Lemma handle_collisions_eq ms ps dt ms2 tr :
  meeple_obstacle_pass dt ps [] (meeple_meeple_pass [] ms) = (ms2, tr) ->
  handle_collisions ms ps dt =
    (filter (fun m => negb (mem (mid m) tr)) ms2,
     fold_left (remove_from_home ms2) tr ps).
Proof.
  intros H. unfold handle_collisions. rewrite H. unfold perform_removal.
  destruct tr as [|a tr]; [|reflexivity].
  simpl. now rewrite filter_all.
Qed.

End CollisionPass.

(* ================================================================== *)
(** * The removal batch *)

Lemma NoDup_map_inj {A B} (f : A -> B) (l : list A) (a b : A) :
  NoDup (map f l) -> In a l -> In b l -> f a = f b -> a = b.
Proof.
  induction l as [|c l IH]; simpl; [intros _ []|].
  intros Hnd Ha Hb Hf. inversion Hnd as [|? ? Hc Hnd']; subst.
  destruct Ha as [->|Ha], Hb as [->|Hb]; auto.
  - exfalso. apply Hc. rewrite Hf. now apply in_map.
  - exfalso. apply Hc. rewrite <- Hf. now apply in_map.
Qed.

Lemma mem_app_single (r : nat) (done : list nat) (a : nat) :
  mem r (done ++ [a]) = mem r done || Nat.eqb r a.
Proof. unfold mem. rewrite existsb_app. simpl. now rewrite orb_false_r. Qed.

Lemma remove_first_filter (a : nat) (l : list nat) :
  NoDup l -> remove_first a l = filter (fun r => negb (Nat.eqb r a)) l.
Proof.
  induction 1 as [|b l Hb Hnd IH]; simpl; [reflexivity|].
  rewrite (Nat.eqb_sym b a). destruct (Nat.eqb_spec a b) as [->|Hne]; simpl.
  - symmetry. transitivity (filter (fun _ => true) l); [|apply filter_all].
    apply filter_ext_in.
    intros r Hr. destruct (Nat.eqb_spec r b) as [->|]; [contradiction|reflexivity].
  - now rewrite IH.
Qed.

Lemma filter_filter {A} (f g : A -> bool) (l : list A) :
  filter f (filter g l) = filter (fun a => g a && f a) l.
Proof.
  induction l as [|a l IH]; simpl; [reflexivity|].
  destruct (g a); simpl; [destruct (f a); simpl; now rewrite IH | exact IH].
Qed.

Section Removal.

Context {F : Type} {NF : PyFloat F}.
Implicit Types (m : Meeple F) (ms : list (Meeple F)).
Implicit Types (p : Placeable F) (ps : list (Placeable F)).

(** The object without the residents that are in [tr]. *)
Definition purge (tr : list nat) (p : Placeable F) : Placeable F :=
  set_residents (filter (fun r => negb (mem r tr)) (residents_of p)) p.

Lemma set_residents_same p : set_residents (residents_of p) p = p.
Proof. destruct p as [? ? ? ? ? []]; reflexivity. Qed.

Lemma set_residents_twice r1 r2 p :
  set_residents r1 (set_residents r2 p) = set_residents r1 p.
Proof. destruct p as [? ? ? ? ? []]; reflexivity. Qed.

Lemma residents_set_residents_In rs p r :
  In r (residents_of (set_residents rs p)) -> In r rs.
Proof. destruct p as [? ? ? ? ? []]; cbn; intros H; (exact H || contradiction). Qed.

Lemma purge_nil p : purge [] p = p.
Proof. unfold purge. simpl. rewrite filter_all. apply set_residents_same. Qed.

Lemma pid_purge tr p : pid (purge tr p) = pid p.
Proof. apply pid_set_residents. Qed.

Lemma residents_purge tr p :
  residents_of (purge tr p) = filter (fun r => negb (mem r tr)) (residents_of p).
Proof.
  unfold purge. destruct (is_Hut p) eqn:Hh.
  - now apply set_residents_hut.
  - rewrite set_residents_not_hut by exact Hh. now rewrite (residents_not_hut p Hh).
Qed.

Lemma purge_ext tr tr' p :
  (forall r, In r (residents_of p) -> mem r tr = mem r tr') -> purge tr p = purge tr' p.
Proof.
  intros H. unfold purge. f_equal. apply filter_ext_in. intros r Hr. now rewrite H.
Qed.

Lemma find_placeable_map (g : Placeable F -> Placeable F) h ps :
  (forall p, pid (g p) = pid p) ->
  find_placeable h (map g ps) = option_map g (find_placeable h ps).
Proof.
  intros Hg. unfold find_placeable. induction ps as [|p t IH]; simpl; [reflexivity|].
  rewrite Hg. destruct (Nat.eqb (pid p) h); [reflexivity | exact IH].
Qed.

Lemma update_placeable_map (f g g' : Placeable F -> Placeable F) h ps :
  (forall p, pid (g p) = pid p) ->
  NoDup (map (@pid F) ps) ->
  (forall p, In p ps -> pid p = h -> f (g p) = g' p) ->
  (forall p, In p ps -> pid p <> h -> g p = g' p) ->
  update_placeable h f (map g ps) = map g' ps.
Proof.
  intros Hg. induction ps as [|p t IH]; intros Hnd H1 H2; simpl; [reflexivity|].
  inversion Hnd as [|? ? Hp Hnd']; subst. rewrite Hg.
  destruct (Nat.eqb_spec (pid p) h) as [Heq|Hne].
  - rewrite H1 by (simpl; auto). f_equal. apply map_ext_in. intros q Hq.
    apply H2; [simpl; auto|]. intros Hq'. apply Hp. rewrite Heq, <- Hq'. now apply in_map.
  - rewrite H2 by (simpl; auto). f_equal. apply IH; auto.
    + intros q Hq. apply H1. simpl; auto.
    + intros q Hq. apply H2. simpl; auto.
Qed.

Lemma skel_In ms i o :
  In (i, o) (skel ms) <-> exists m, In m ms /\ mid m = i /\ home m = o.
Proof.
  unfold skel. rewrite in_map_iff. split.
  - intros (m & [= <- <-] & Hin). eauto.
  - intros (m & Hin & <- & <-). eauto.
Qed.

Lemma map_fst_skel ms : map fst (skel ms) = map (@mid F) ms.
Proof. unfold skel. rewrite map_map. reflexivity. Qed.

Lemma find_meeple_none ms a : find_meeple a ms = None -> forall o, ~ In (a, o) (skel ms).
Proof.
  intros Hf o Hin. apply skel_In in Hin. destruct Hin as (m & Hin & Hid & _).
  unfold find_meeple in Hf. apply (find_none _ _ Hf) in Hin.
  rewrite Hid, Nat.eqb_refl in Hin. discriminate.
Qed.

Lemma find_meeple_skel ms a m :
  find_meeple a ms = Some m -> In (a, home m) (skel ms).
Proof.
  intros Hf. apply find_meeple_In in Hf. destruct Hf as [Hin Hid].
  apply skel_In. eauto.
Qed.

Lemma wf_skel_home_unique sk ps i o1 o2 :
  wf_skel sk ps -> In (i, o1) sk -> In (i, o2) sk -> o1 = o2.
Proof.
  intros Hwf H1 H2.
  assert (E : (i, o1) = (i, o2)).
  { eapply (NoDup_map_inj fst); eauto. eapply wf_mids; eauto. }
  congruence.
Qed.

Lemma wf_skel_pid_unique sk ps p q :
  wf_skel sk ps -> In p ps -> In q ps -> pid p = pid q -> p = q.
Proof.
  intros Hwf Hp Hq E. eapply (NoDup_map_inj (@pid F)); eauto. eapply wf_pids; eauto.
Qed.

(** One step of the "remove from home lists" loop. *)
Lemma remove_from_home_step ms ps done a :
  wf_store ms ps ->
  remove_from_home ms (map (purge done) ps) a = map (purge (done ++ [a])) ps.
Proof.
  intros Hwf. unfold wf_store in Hwf.
  assert (Hsame : (forall p, In p ps -> In a (residents_of p) -> mem a done = true) ->
                  map (purge done) ps = map (purge (done ++ [a])) ps).
  { intros H. apply map_ext_in. intros p Hp. apply purge_ext. intros r Hr.
    rewrite mem_app_single. destruct (Nat.eqb_spec r a) as [->|]; [|now rewrite orb_false_r].
    now rewrite (H p Hp Hr). }
  unfold remove_from_home.
  destruct (find_meeple a ms) as [m|] eqn:Hfm.
  2:{ apply Hsame. intros p Hp Hr. exfalso.
      eapply find_meeple_none; eauto. eapply wf_res; eauto. }
  pose proof (find_meeple_skel _ _ Hfm) as Hsk.
  destruct (home m) as [h|] eqn:Hh.
  2:{ apply Hsame. intros p Hp Hr. exfalso.
      pose proof (wf_res Hwf p a Hp Hr) as Hsk'.
      pose proof (@wf_skel_home_unique _ _ _ _ _ Hwf Hsk Hsk'). discriminate. }
  destruct (wf_home Hwf a h Hsk) as (p0 & Hp0 & Hpid0 & Hr0).
  rewrite find_placeable_map by apply pid_purge.
  destruct (find_placeable h ps) as [hb|] eqn:Hfp; simpl.
  2:{ exfalso. unfold find_placeable in Hfp. apply (find_none _ _ Hfp) in Hp0.
      rewrite Hpid0, Nat.eqb_refl in Hp0. discriminate. }
  destruct (find_placeable_In _ _ Hfp) as [Hhb Hpidhb].
  assert (hb = p0) as -> by (eapply wf_skel_pid_unique; eauto; congruence).
  assert (Hother : forall p, In p ps -> In a (residents_of p) -> p = p0).
  { intros p Hp Hr. pose proof (wf_res Hwf p a Hp Hr) as Hsk'.
    pose proof (@wf_skel_home_unique _ _ _ _ _ Hwf Hsk Hsk') as E. injection E as E.
    eapply wf_skel_pid_unique; eauto. congruence. }
  rewrite residents_purge.
  destruct (mem a (filter _ (residents_of p0))) eqn:Hmem.
  - apply mem_In in Hmem. apply filter_In in Hmem. destruct Hmem as [_ Hnd].
    apply update_placeable_map.
    + apply pid_purge.
    + eapply wf_pids; eauto.
    + intros p Hp Hpid.
      assert (p = p0) as -> by (eapply wf_skel_pid_unique; eauto; congruence).
      unfold purge at 2. rewrite set_residents_twice, residents_purge.
      unfold purge. f_equal.
      rewrite remove_first_filter.
      * rewrite filter_filter. apply filter_ext. intros r.
        rewrite mem_app_single, negb_orb. reflexivity.
      * apply NoDup_filter. eapply wf_res_nodup; eauto.
    + intros p Hp Hpid. apply purge_ext. intros r Hr. rewrite mem_app_single.
      destruct (Nat.eqb_spec r a) as [->|]; [|now rewrite orb_false_r].
      exfalso. apply Hpid. rewrite (Hother p Hp Hr). exact Hpid0.
  - apply Hsame. intros p Hp Hr. rewrite (Hother p Hp Hr) in Hr.
    apply mem_false in Hmem. rewrite filter_In in Hmem.
    destruct (mem a done); [reflexivity|]. exfalso. apply Hmem. auto.
Qed.

(** The whole loop: every hut loses exactly its residents that are removed. *)
Lemma remove_from_home_all ms ps tr :
  wf_store ms ps ->
  fold_left (remove_from_home ms) tr ps = map (purge tr) ps.
Proof.
  intros Hwf.
  assert (G : forall l done,
             fold_left (remove_from_home ms) l (map (purge done) ps)
             = map (purge (done ++ l)) ps).
  { induction l as [|a l IH]; intros done; simpl.
    - now rewrite app_nil_r.
    - rewrite remove_from_home_step by exact Hwf. rewrite IH, <- app_assoc. reflexivity. }
  specialize (G tr []). simpl in G. rewrite <- G. f_equal.
  rewrite <- (map_id ps) at 1. apply map_ext. intros p. now rewrite purge_nil.
Qed.

End Removal.

(* ================================================================== *)
(** * Well-formedness under removal and assignment *)

Lemma NoDup_map_filter {A B} (f : A -> B) (g : A -> bool) (l : list A) :
  NoDup (map f l) -> NoDup (map f (filter g l)).
Proof.
  induction l as [|a l IH]; simpl; [auto|].
  intros Hnd. inversion Hnd as [|? ? Ha Hnd']; subst.
  destruct (g a); simpl; [|auto].
  constructor; [|auto]. intros Hin. apply Ha.
  apply in_map_iff in Hin. destruct Hin as (b & Hb & Hin).
  apply filter_In in Hin. rewrite <- Hb. apply in_map. tauto.
Qed.

Section WfSteps.

Context {F : Type} {NF : PyFloat F}.
Implicit Types (m : Meeple F) (ms : list (Meeple F)).
Implicit Types (p hb : Placeable F) (ps : list (Placeable F)).
Implicit Types (sk : list (nat * option nat)).

Lemma skel_filter (g : nat -> bool) ms :
  skel (filter (fun m => g (mid m)) ms) = filter (fun io => g (fst io)) (skel ms).
Proof.
  unfold skel. induction ms as [|m l IH]; simpl; [reflexivity|].
  destruct (g (mid m)); simpl; now rewrite IH.
Qed.

Lemma wf_skel_removal sk ps tr :
  wf_skel sk ps ->
  wf_skel (filter (fun io => negb (mem (fst io) tr)) sk) (map (purge tr) ps).
Proof.
  intros Hwf. constructor.
  - apply NoDup_map_filter. eapply wf_mids; eauto.
  - rewrite map_map. erewrite map_ext; [eapply wf_pids; eauto|].
    intros p. apply pid_purge.
  - intros i h Hin. apply filter_In in Hin. destruct Hin as [Hin Hi]. simpl in Hi.
    destruct (wf_home Hwf i h Hin) as (p & Hp & Hpid & Hr).
    exists (purge tr p). split; [now apply in_map|]. split; [now rewrite pid_purge|].
    rewrite residents_purge. apply filter_In. auto.
  - intros p' r Hp' Hr. apply in_map_iff in Hp'. destruct Hp' as (p & <- & Hp).
    rewrite residents_purge in Hr. apply filter_In in Hr. destruct Hr as [Hr Hi].
    rewrite pid_purge. apply filter_In. split; [|exact Hi]. eapply wf_res; eauto.
  - intros p' Hp'. apply in_map_iff in Hp'. destruct Hp' as (p & <- & Hp).
    rewrite residents_purge. apply NoDup_filter. eapply wf_res_nodup; eauto.
Qed.

(** The meeples in [chosen] get [h] as their home. *)
Definition house (h : nat) (chosen : list nat) (sk : list (nat * option nat))
  : list (nat * option nat) :=
  map (fun io => if mem (fst io) chosen then (fst io, Some h) else io) sk.

(** The hut [h] gets [chosen] appended to its residents. *)
Definition lodge (h : nat) (chosen : list nat) (ps : list (Placeable F)) : list (Placeable F) :=
  update_placeable h (fun p => set_residents (residents_of p ++ chosen) p) ps.

Lemma house_nil h sk : house h [] sk = sk.
Proof. unfold house. simpl. rewrite <- (map_id sk) at 2. apply map_ext. now intros []. Qed.

Lemma map_fst_house h chosen sk : map fst (house h chosen sk) = map fst sk.
Proof.
  unfold house. rewrite map_map. apply map_ext. intros io.
  destruct (mem (fst io) chosen); reflexivity.
Qed.

Lemma house_cons h a chosen sk :
  house h chosen (house h [a] sk) = house h (a :: chosen) sk.
Proof.
  unfold house. rewrite map_map. apply map_ext. intros [i o]. simpl.
  rewrite orb_false_r. destruct (Nat.eqb i a); simpl; [|reflexivity].
  destruct (mem i chosen); reflexivity.
Qed.

Lemma lodge_nil h ps : lodge h [] ps = ps.
Proof.
  unfold lodge. induction ps as [|p l IH]; simpl; [reflexivity|].
  destruct (Nat.eqb (pid p) h); [|now rewrite IH].
  now rewrite app_nil_r, set_residents_same.
Qed.

Lemma lodge_cons h a chosen ps hb :
  find_placeable h ps = Some hb -> is_Hut hb = true ->
  lodge h chosen (lodge h [a] ps) = lodge h (a :: chosen) ps.
Proof.
  unfold lodge, find_placeable. induction ps as [|p l IH]; simpl; [discriminate|].
  destruct (Nat.eqb (pid p) h) eqn:E; simpl.
  - intros [= ->] Hh. rewrite pid_set_residents, E.
    rewrite set_residents_twice, set_residents_hut by exact Hh.
    now rewrite <- app_assoc.
  - intros Hf Hh. rewrite E. f_equal. now apply IH.
Qed.

Lemma find_lodge h chosen ps hb :
  find_placeable h ps = Some hb ->
  find_placeable h (lodge h chosen ps) = Some (set_residents (residents_of hb ++ chosen) hb).
Proof.
  unfold lodge, find_placeable. induction ps as [|p l IH]; simpl; [discriminate|].
  destruct (Nat.eqb (pid p) h) eqn:E; simpl.
  - intros [= ->]. now rewrite pid_set_residents, E.
  - intros Hf. rewrite E. now apply IH.
Qed.

Lemma skel_update_home a h ms :
  NoDup (map (@mid F) ms) ->
  skel (update_meeple a (set_home (Some h)) ms) = house h [a] (skel ms).
Proof.
  unfold skel, house. induction ms as [|m l IH]; simpl; [reflexivity|].
  intros Hnd. inversion Hnd as [|? ? Hm Hnd']; subst.
  rewrite orb_false_r. destruct (Nat.eqb_spec (mid m) a) as [Heq|Hne]; simpl.
  - f_equal. rewrite map_map. apply map_ext_in. intros m' Hm'. simpl.
    rewrite orb_false_r. destruct (Nat.eqb_spec (mid m') a) as [Heq'|]; [|reflexivity].
    exfalso. apply Hm. rewrite Heq, <- Heq'. now apply in_map.
  - f_equal. now apply IH.
Qed.

(** A successful [assign_home]. *)
Lemma assign_home_ok a h ms ps hb :
  find_placeable h ps = Some hb -> is_Hut hb = true ->
  length (residents_of hb) < max_residents_of hb ->
  assign_home a h ms ps =
    (update_meeple a (set_home (Some h)) ms, lodge h [a] ps, true).
Proof.
  intros Hf Hh Hlt. unfold assign_home. rewrite Hf, Hh.
  destruct (Nat.ltb_spec (length (residents_of hb)) (max_residents_of hb)); [|lia].
  reflexivity.
Qed.

(** The assignment loop on a hut with room: it takes the first
    [cap - n] entries of the list, in the list's order. *)
Lemma assign_loop_char h cap l :
  forall n ms ps hb,
  find_placeable h ps = Some hb -> is_Hut hb = true ->
  max_residents_of hb = cap -> length (residents_of hb) = n -> n < cap ->
  NoDup (map (@mid F) ms) ->
  let chosen := firstn (cap - n) l in
  let '(ms', ps', cnt) := assign_loop h cap l n ms ps in
  skel ms' = house h chosen (skel ms) /\
  map (@mid F) ms' = map (@mid F) ms /\
  ps' = lodge h chosen ps /\
  cnt = n + length chosen.
Proof.
  induction l as [|a l IH]; intros n ms ps hb Hf Hh Hcap Hlen Hlt Hnd; simpl.
  - rewrite firstn_nil, house_nil, lodge_nil. simpl. auto.
  - rewrite (assign_home_ok a h ms ps Hf Hh) by lia.
    destruct (cap - n) as [|k] eqn:Hk; [lia|].
    destruct (Nat.leb_spec cap (S n)) as [Hle|Hgt].
    + assert (k = 0) as -> by lia. simpl.
      rewrite skel_update_home by exact Hnd.
      rewrite map_mid_update by reflexivity. repeat split; auto. lia.
    + specialize (IH (S n) (update_meeple a (set_home (Some h)) ms) (lodge h [a] ps)
                     (set_residents (residents_of hb ++ [a]) hb)).
      rewrite map_mid_update in IH by reflexivity.
      replace (cap - S n) with k in IH by lia.
      destruct (assign_loop h cap l (S n) _ _) as [[ms' ps'] cnt].
      destruct IH as (E1 & E2 & E3 & E4); auto.
      * now apply find_lodge.
      * now rewrite is_Hut_set_residents.
      * now rewrite max_residents_set_residents.
      * rewrite set_residents_hut by exact Hh. rewrite length_app. simpl. lia.
      * rewrite E1, E2, E3, E4, skel_update_home by exact Hnd.
        rewrite house_cons, (lodge_cons h a _ ps Hf Hh). simpl. repeat split; auto; lia.
Qed.

(** A hut of capacity zero takes nobody. *)
Lemma assign_loop_zero h l ms ps hb :
  find_placeable h ps = Some hb -> max_residents_of hb = 0 ->
  assign_loop h 0 l 0 ms ps = (ms, ps, 0).
Proof.
  intros Hf Hcap. induction l as [|a l IH]; simpl; [reflexivity|].
  unfold assign_home. rewrite Hf, Hcap.
  destruct (is_Hut hb); simpl; exact IH.
Qed.

End WfSteps.

(* ================================================================== *)
(** * random.shuffle permutes *)

Lemma set_nth_app_r {A} (l1 r : list A) (k : nat) (v : A) :
  set_nth (length l1 + k) v (l1 ++ r) = l1 ++ set_nth k v r.
Proof. induction l1 as [|a l1 IH]; simpl; [reflexivity | now rewrite IH]. Qed.

Lemma set_nth_same {A} (i : nat) (a : A) (l : list A) :
  nth_error l i = Some a -> set_nth i a l = l.
Proof.
  revert i. induction l as [|h t IH]; intros [|k] H; simpl in *; try discriminate.
  - now injection H as ->.
  - now rewrite IH.
Qed.

Lemma swap_lt_perm {A} (i j : nat) (a b : A) (l : list A) :
  i < j -> nth_error l i = Some a -> nth_error l j = Some b ->
  Permutation (set_nth i b (set_nth j a l)) l /\
  Permutation (set_nth j a (set_nth i b l)) l.
Proof.
  intros Hlt Hi Hj.
  destruct (nth_error_split l i Hi) as (l1 & r & -> & Hl1).
  assert (Hj' : nth_error r (j - i - 1) = Some b).
  { rewrite nth_error_app2 in Hj by lia. rewrite Hl1 in Hj.
    replace (j - i) with (S (j - i - 1)) in Hj by lia. exact Hj. }
  destruct (nth_error_split r _ Hj') as (l2 & l3 & -> & Hl2).
  assert (Ej : j = length l1 + S (length l2 + 0)) by lia.
  assert (Ei : i = length l1 + 0) by lia.
  assert (P : Permutation (l1 ++ b :: l2 ++ a :: l3) (l1 ++ a :: l2 ++ b :: l3)).
  { apply Permutation_app_head.
    transitivity (b :: a :: l2 ++ l3).
    - apply perm_skip. symmetry. apply Permutation_middle.
    - transitivity (a :: b :: l2 ++ l3); [apply perm_swap|].
      apply perm_skip. apply Permutation_middle. }
  split.
  - rewrite Ej at 1. rewrite set_nth_app_r. simpl set_nth at 2.
    rewrite set_nth_app_r. simpl set_nth at 2.
    rewrite Ei at 1. rewrite set_nth_app_r. simpl. exact P.
  - rewrite Ei at 1. rewrite set_nth_app_r. simpl set_nth at 2.
    rewrite Ej at 1. rewrite set_nth_app_r. simpl set_nth at 1.
    rewrite set_nth_app_r. simpl. exact P.
Qed.

Lemma swap_perm {A} (i j : nat) (l : list A) : Permutation (swap i j l) l.
Proof.
  unfold swap.
  destruct (nth_error l i) as [a|] eqn:Hi; [|reflexivity].
  destruct (nth_error l j) as [b|] eqn:Hj; [|reflexivity].
  destruct (Nat.lt_trichotomy i j) as [Hlt|[->|Hgt]].
  - destruct (@swap_lt_perm A i j a b l Hlt Hi Hj) as [P _]. exact P.
  - rewrite Hi in Hj. injection Hj as <-.
    rewrite (set_nth_same _ _ Hi), (set_nth_same _ _ Hi). reflexivity.
  - destruct (@swap_lt_perm A j i b a l Hgt Hj Hi) as [_ P]. exact P.
Qed.

Lemma shuffle_perm {A} (rb : nat -> nat) (l : list A) : Permutation (shuffle rb l) l.
Proof.
  unfold shuffle. generalize (length l - 1) as i. intros i. revert l.
  induction i as [|k IH]; intros l; simpl; [reflexivity|].
  rewrite IH. apply swap_perm.
Qed.

(* ================================================================== *)
(** * Well-formedness is kept by the game loop *)

Section WfFrame.

Context {F : Type} {NF : PyFloat F}.
Implicit Types (m : Meeple F) (ms : list (Meeple F)).
Implicit Types (p hb : Placeable F) (ps : list (Placeable F)).
Implicit Types (sk : list (nat * option nat)).

Lemma In_house h chosen sk i o :
  In (i, o) (house h chosen sk) <->
  (mem i chosen = true /\ o = Some h /\ exists o', In (i, o') sk) \/
  (mem i chosen = false /\ In (i, o) sk).
Proof.
  unfold house. rewrite in_map_iff. split.
  - intros ([i' o'] & E & Hin). simpl in E.
    destruct (mem i' chosen) eqn:Hm; injection E as <- <-; eauto 6.
  - intros [(Hm & -> & o' & Hin)|(Hm & Hin)].
    + exists (i, o'). simpl. now rewrite Hm.
    + exists (i, o). simpl. now rewrite Hm.
Qed.

Lemma In_lodge h chosen ps hb p' :
  NoDup (map (@pid F) ps) -> find_placeable h ps = Some hb ->
  (In p' (lodge h chosen ps) <->
   (In p' ps /\ pid p' <> h) \/ p' = set_residents (residents_of hb ++ chosen) hb).
Proof.
  intros Hnd Hf. unfold lodge.
  destruct (update_placeable_split h
              (fun p => set_residents (residents_of p ++ chosen) p) ps Hf)
    as (l1 & l2 & -> & -> & Hl1).
  destruct (find_placeable_In _ _ Hf) as [_ Hpid].
  assert (Hl2 : forall q, In q l2 -> pid q <> h).
  { intros q Hq E. rewrite map_app in Hnd. simpl in Hnd.
    apply NoDup_remove_2 in Hnd. apply Hnd. apply in_or_app. right.
    rewrite Hpid, <- E. now apply in_map. }
  rewrite !in_app_iff. simpl. split.
  - intros [H|[<-|H]]; [left|right|left]; auto.
  - intros [[[H|[<-|H]] Hne]| ->]; auto. congruence.
Qed.

Lemma wf_skel_house_lodge sk ps h hb chosen :
  wf_skel sk ps -> find_placeable h ps = Some hb -> is_Hut hb = true ->
  NoDup chosen -> (forall a, In a chosen -> In (a, None) sk) ->
  wf_skel (house h chosen sk) (lodge h chosen ps).
Proof.
  intros Hwf Hf Hh Hnd Hc.
  pose proof (wf_pids Hwf) as Hpids.
  destruct (find_placeable_In _ _ Hf) as [Hhb Hpid].
  assert (Hnone : forall r o, In r chosen -> In (r, o) sk -> o = None).
  { intros r o Hr Hin. eapply wf_skel_home_unique; eauto. }
  constructor.
  - rewrite map_fst_house. eapply wf_mids; eauto.
  - unfold lodge. rewrite map_pid_update; [exact Hpids|].
    intros p. apply pid_set_residents.
  - intros i h' Hin. apply In_house in Hin.
    destruct Hin as [(Hm & [= ->] & o' & Hin)|(Hm & Hin)].
    + exists (set_residents (residents_of hb ++ chosen) hb).
      rewrite (In_lodge h chosen ps _ Hpids Hf), pid_set_residents, set_residents_hut by exact Hh.
      repeat split; auto. apply in_or_app. right. now apply mem_In.
    + destruct (wf_home Hwf i h' Hin) as (p & Hp & Hpidp & Hr).
      destruct (Nat.eq_dec (pid p) h) as [E|E].
      * assert (p = hb) as -> by (eapply wf_skel_pid_unique; eauto; congruence).
        exists (set_residents (residents_of hb ++ chosen) hb).
        rewrite (In_lodge h chosen ps _ Hpids Hf), pid_set_residents, set_residents_hut by exact Hh.
        repeat split; auto. apply in_or_app. now left.
      * exists p. rewrite (In_lodge h chosen ps _ Hpids Hf). auto.
  - intros p' r Hp' Hr. apply (In_lodge h chosen ps _ Hpids Hf) in Hp'. apply In_house.
    destruct Hp' as [[Hp' Hne]| ->].
    + right. pose proof (wf_res Hwf p' r Hp' Hr) as Hin. split; [|exact Hin].
      apply mem_false. intros Hrc. pose proof (Hnone _ _ Hrc Hin). discriminate.
    + rewrite pid_set_residents, Hpid. rewrite set_residents_hut in Hr by exact Hh.
      apply in_app_or in Hr. destruct Hr as [Hr|Hr].
      * right. pose proof (wf_res Hwf hb r Hhb Hr) as Hin. rewrite Hpid in Hin.
        split; [|exact Hin].
        apply mem_false. intros Hrc. pose proof (Hnone _ _ Hrc Hin). discriminate.
      * left. split; [now apply mem_In|]. split; [reflexivity|]. eauto.
  - intros p' Hp'. apply (In_lodge h chosen ps _ Hpids Hf) in Hp'.
    destruct Hp' as [[Hp' Hne]| ->]; [eapply wf_res_nodup; eauto|].
    rewrite set_residents_hut by exact Hh.
    apply NoDup_app; [eapply wf_res_nodup; eauto | exact Hnd |].
    intros r Hr Hrc. pose proof (wf_res Hwf hb r Hhb Hr) as Hin.
    pose proof (Hnone _ _ Hrc Hin). discriminate.
Qed.

(** The identities of the homeless meeples. *)
Definition unassigned_ids (ms : list (Meeple F)) : list nat :=
  map (@mid F) (filter (fun m => match home m with None => true | Some _ => false end) ms).

Lemma unassigned_ids_In ms a : In a (unassigned_ids ms) <-> In (a, None) (skel ms).
Proof.
  unfold unassigned_ids. rewrite in_map_iff, skel_In. split.
  - intros (m & <- & Hin). apply filter_In in Hin. destruct Hin as [Hin Hh].
    exists m. destruct (home m); [discriminate | auto].
  - intros (m & Hin & <- & Hh). exists m. split; [reflexivity|].
    apply filter_In. now rewrite Hh.
Qed.

Lemma unassigned_ids_NoDup ms : NoDup (map (@mid F) ms) -> NoDup (unassigned_ids ms).
Proof. apply NoDup_map_filter. Qed.

(** What the assignment of residents to a newly placed hut does. *)
Lemma assign_residents_char rb new_obj ms ps :
  find_placeable (pid new_obj) ps = Some new_obj -> is_Hut new_obj = true ->
  residents_of new_obj = [] -> 0 < max_residents_of new_obj ->
  NoDup (map (@mid F) ms) ->
  let chosen := firstn (max_residents_of new_obj) (shuffle rb (unassigned_ids ms)) in
  let '(ms', ps', cnt) := assign_residents rb new_obj ms ps in
  skel ms' = house (pid new_obj) chosen (skel ms) /\
  map (@mid F) ms' = map (@mid F) ms /\
  ps' = lodge (pid new_obj) chosen ps /\
  cnt = length chosen.
Proof.
  intros Hf Hh Hr Hcap Hnd. unfold assign_residents. fold (unassigned_ids ms).
  pose proof (@assign_loop_char F (pid new_obj) (max_residents_of new_obj)
                (shuffle rb (unassigned_ids ms)) 0 ms ps new_obj Hf Hh eq_refl) as H.
  rewrite Hr in H. specialize (H eq_refl Hcap Hnd). rewrite Nat.sub_0_r in H.
  cbv zeta in H. exact H.
Qed.

Lemma chosen_ok rb ms n :
  NoDup (map (@mid F) ms) ->
  let chosen := firstn n (shuffle rb (unassigned_ids ms)) in
  NoDup chosen /\ (forall a, In a chosen -> In (a, None) (skel ms)) /\
  length chosen = Nat.min n (length (unassigned_ids ms)).
Proof.
  intros Hnd chosen.
  pose proof (shuffle_perm rb (unassigned_ids ms)) as Hp.
  assert (Hs : NoDup (shuffle rb (unassigned_ids ms))).
  { eapply Permutation_NoDup; [symmetry; exact Hp|]. now apply unassigned_ids_NoDup. }
  repeat split.
  - unfold chosen. rewrite <- (firstn_skipn n (shuffle rb (unassigned_ids ms))) in Hs.
    now apply NoDup_app_remove_r in Hs.
  - intros a Ha. apply unassigned_ids_In. eapply Permutation_in; [exact Hp|].
    unfold chosen in Ha.
    rewrite <- (firstn_skipn n (shuffle rb (unassigned_ids ms))).
    apply in_or_app. now left.
  - unfold chosen. rewrite length_firstn. now rewrite (Permutation_length Hp).
Qed.

Lemma wf_skel_new sk ps new :
  wf_skel sk ps -> (forall p, In p ps -> pid p <> pid new) -> residents_of new = [] ->
  wf_skel sk (ps ++ [new]).
Proof.
  intros Hwf Hfresh Hr. constructor.
  - eapply wf_mids; eauto.
  - rewrite map_app. simpl. apply NoDup_app; [eapply wf_pids; eauto | repeat constructor; auto |].
    intros i Hi [<-|[]]. apply in_map_iff in Hi. destruct Hi as (p & E & Hp).
    now apply (Hfresh p Hp).
  - intros i h Hin. destruct (wf_home Hwf i h Hin) as (p & Hp & Hpid & Hres).
    exists p. split; [apply in_or_app; now left | auto].
  - intros p r Hp Hres. apply in_app_or in Hp. destruct Hp as [Hp|[<-|[]]].
    + eapply wf_res; eauto.
    + rewrite Hr in Hres. contradiction.
  - intros p Hp. apply in_app_or in Hp. destruct Hp as [Hp|[<-|[]]].
    + eapply wf_res_nodup; eauto.
    + rewrite Hr. constructor.
Qed.

Lemma wf_skel_new_meeple sk ps i :
  wf_skel sk ps -> ~ In i (map fst sk) -> wf_skel (sk ++ [(i, None)]) ps.
Proof.
  intros Hwf Hfresh. constructor.
  - rewrite map_app. simpl. apply NoDup_app; [eapply wf_mids; eauto | repeat constructor; auto |].
    intros j Hj [<-|[]]. contradiction.
  - eapply wf_pids; eauto.
  - intros j h Hin. apply in_app_or in Hin. destruct Hin as [Hin|[[=]|[]]].
    eapply wf_home; eauto.
  - intros p r Hp Hres. apply in_or_app. left. eapply wf_res; eauto.
  - intros p Hp. eapply wf_res_nodup; eauto.
Qed.

Lemma find_placeable_app_fresh ps new :
  (forall p, In p ps -> pid p <> pid new) ->
  find_placeable (pid new) (ps ++ [new]) = Some new.
Proof.
  intros Hfresh. unfold find_placeable. induction ps as [|p l IH]; simpl.
  - now rewrite Nat.eqb_refl.
  - destruct (Nat.eqb_spec (pid p) (pid new)) as [E|E].
    + exfalso. apply (Hfresh p); simpl; auto.
    + apply IH. intros q Hq. apply Hfresh. simpl; auto.
Qed.

Lemma lodge_app_fresh chosen ps new :
  (forall p, In p ps -> pid p <> pid new) ->
  lodge (pid new) chosen (ps ++ [new]) =
    ps ++ [set_residents (residents_of new ++ chosen) new].
Proof.
  intros Hfresh. unfold lodge. induction ps as [|p l IH]; simpl.
  - now rewrite Nat.eqb_refl.
  - destruct (Nat.eqb_spec (pid p) (pid new)) as [E|E].
    + exfalso. apply (Hfresh p); simpl; auto.
    + f_equal. apply IH. intros q Hq. apply Hfresh. simpl; auto.
Qed.

Lemma new_Placeable_facts k id px py :
  let new_obj := new_Placeable (F:=F) k id px py in
  pid new_obj = id /\ residents_of new_obj = [] /\
  (is_Hut new_obj = true -> max_residents_of new_obj = HUT_MAX_RESIDENTS) /\
  (is_Hut new_obj = match k with K_Hut => true | _ => false end) /\
  rect_bool (collision_rect new_obj) = true.
Proof.
  destruct k; repeat split; try reflexivity; cbn; intros; try discriminate.
  unfold rect_bool, rect_union, r_right, r_bottom. cbn.
  apply andb_true_intro. split; apply negb_true_iff, Z.eqb_neq; lia.
Qed.

(** The meeples chosen as residents when an object is placed. *)
Definition chosen_residents (rb : nat -> nat) (new_obj : Placeable F) (ms : list (Meeple F))
  : list nat :=
  if is_Hut new_obj
  then firstn (max_residents_of new_obj) (shuffle rb (unassigned_ids ms))
  else [].

(** A successful placement, in full. *)
Lemma place_char k px py rb (w : World F) :
  wf w ->
  let new_obj := new_Placeable k (next_pid w) px py in
  can_place new_obj (placeables w) = true ->
  let chosen := chosen_residents rb new_obj (meeples w) in
  let w' := place k px py rb w in
  skel (meeples w') = house (next_pid w) chosen (skel (meeples w)) /\
  map (@mid F) (meeples w') = map (@mid F) (meeples w) /\
  placeables w' = placeables w ++ [set_residents chosen new_obj] /\
  next_pid w' = S (next_pid w) /\ next_mid w' = next_mid w.
Proof.
  intros (Hwf & Hfm & Hfp) new_obj Hcan chosen w'.
  destruct (new_Placeable_facts k (next_pid w) px py) as (Hpid & Hres & Hmax & Hk & _).
  fold new_obj in Hpid, Hres, Hmax, Hk.
  assert (Hfresh : forall p, In p (placeables w) -> pid p <> pid new_obj).
  { intros p Hp. rewrite Hpid. specialize (Hfp p Hp). lia. }
  unfold w', place. fold new_obj. rewrite Hcan.
  unfold chosen, chosen_residents.
  destruct (is_Hut new_obj) eqn:Hh.
  - cbn [meeples placeables set_next_pid set_placeables].
    pose proof (assign_residents_char rb (new_obj:=new_obj) (meeples w)
                  (placeables w ++ [new_obj])) as H.
    rewrite find_placeable_app_fresh in H by exact Hfresh.
    specialize (H eq_refl Hh Hres).
    rewrite (Hmax eq_refl) in H |- *.
    specialize (H ltac:(unfold HUT_MAX_RESIDENTS; lia)).
    specialize (H ltac:(rewrite <- map_fst_skel; eapply wf_mids; eauto)).
    cbv zeta in H.
    destruct (assign_residents rb new_obj (meeples w) (placeables w ++ [new_obj]))
      as [[ms' ps'] cnt].
    destruct H as (E1 & E2 & E3 & _).
    cbn [meeples placeables next_pid next_mid set_placeables set_meeples set_next_pid].
    rewrite E1, E2, E3, lodge_app_fresh by exact Hfresh.
    rewrite Hres, Hpid. cbn [app]. auto.
  - cbn [meeples placeables next_pid next_mid set_placeables set_meeples set_next_pid].
    rewrite house_nil. rewrite set_residents_not_hut by exact Hh. auto.
Qed.

Lemma place_rejected k px py rb (w : World F) :
  can_place (new_Placeable k (next_pid w) px py) (placeables w) = false ->
  place k px py rb w = w.
Proof. intros H. unfold place. now rewrite H. Qed.

Lemma place_wf k px py rb (w : World F) : wf w -> wf (place k px py rb w).
Proof.
  intros Hw.
  destruct (can_place (new_Placeable k (next_pid w) px py) (placeables w)) eqn:Hcan;
    [|now rewrite place_rejected].
  destruct (place_char k px py rb Hw Hcan) as (E1 & E2 & E3 & E4 & E5).
  destruct Hw as (Hwf & Hfm & Hfp).
  destruct (new_Placeable_facts k (next_pid w) px py) as (Hpid & Hres & Hmax & Hk & _).
  set (new_obj := new_Placeable k (next_pid w) px py) in *.
  assert (Hfresh : forall p, In p (placeables w) -> pid p <> pid new_obj).
  { intros p Hp. rewrite Hpid. specialize (Hfp p Hp). lia. }
  unfold wf, wf_counted. rewrite E1, E3, E4, E5.
  assert (Hwf1 : wf_skel (skel (meeples w)) (placeables w ++ [new_obj]))
    by (apply wf_skel_new; auto).
  split; [|split].
  - unfold chosen_residents. destruct (is_Hut new_obj) eqn:Hh.
    + set (chosen := firstn _ _).
      assert (E : placeables w ++ [set_residents chosen new_obj]
                  = lodge (pid new_obj) chosen (placeables w ++ [new_obj]))
        by (rewrite lodge_app_fresh, Hres by exact Hfresh; reflexivity).
      rewrite E, <- Hpid. subst chosen.
      destruct (chosen_ok rb (meeples w) (max_residents_of new_obj)) as (C1 & C2 & _).
      { rewrite <- map_fst_skel. eapply wf_mids; eauto. }
      eapply wf_skel_house_lodge; eauto.
      apply find_placeable_app_fresh. exact Hfresh.
    + rewrite house_nil, set_residents_not_hut by exact Hh. exact Hwf1.
  - intros i o Hin. apply In_house in Hin.
    destruct Hin as [(_ & _ & o' & Hin)|(_ & Hin)]; eapply Hfm; eauto.
  - intros p Hp. apply in_app_or in Hp. destruct Hp as [Hp|[<-|[]]].
    + specialize (Hfp p Hp). lia.
    + rewrite pid_set_residents, Hpid. lia.
Qed.

Lemma add_meeple_wf px py u (w : World F) : wf w -> wf (add_meeple px py u w).
Proof.
  intros (Hwf & Hfm & Hfp). unfold add_meeple.
  destruct (negb _); [|split; [|split]; auto].
  unfold wf, wf_counted. cbn. unfold skel. rewrite map_app. cbn. fold (skel (meeples w)).
  split; [|split].
  - apply wf_skel_new_meeple; [exact Hwf|].
    intros Hin. apply in_map_iff in Hin. destruct Hin as ([i o] & E & Hin).
    simpl in E. subst i. specialize (Hfm _ _ Hin). lia.
  - intros i o Hin. apply in_app_or in Hin. destruct Hin as [Hin|[[= <- <-]|[]]].
    + specialize (Hfm _ _ Hin). lia.
    + lia.
  - exact Hfp.
Qed.

(** [handle_collisions] on a well-formed store. *)
Lemma handle_collisions_char ms ps dt :
  wf_store ms ps ->
  exists ms2 tr,
    meeple_obstacle_pass dt ps [] (meeple_meeple_pass [] ms) = (ms2, tr) /\
    map still ms2 = map still ms /\
    handle_collisions ms ps dt =
      (filter (fun m => negb (mem (mid m) tr)) ms2, map (purge tr) ps).
Proof.
  intros Hwf.
  destruct (meeple_obstacle_pass dt ps [] (meeple_meeple_pass [] ms)) as [ms2 tr] eqn:Hp.
  exists ms2, tr. split; [reflexivity|].
  destruct (meeple_obstacle_pass_char _ _ _ _ Hp) as [Hs _].
  rewrite meeple_meeple_pass_still in Hs. split; [exact Hs|].
  rewrite (handle_collisions_eq ms ps dt Hp). f_equal.
  apply remove_from_home_all. unfold wf_store. now rewrite (skel_still _ _ Hs).
Qed.

Lemma handle_collisions_wf ms ps dt nm np :
  wf_counted (skel ms) ps nm np ->
  wf_counted (skel (fst (handle_collisions ms ps dt)))
             (snd (handle_collisions ms ps dt)) nm np.
Proof.
  intros (Hwf & Hfm & Hfp).
  destruct (handle_collisions_char dt Hwf) as (ms2 & tr & _ & Hs & ->). simpl.
  rewrite (skel_filter (fun i => negb (mem i tr))), (skel_still _ _ Hs).
  split; [|split].
  - now apply wf_skel_removal.
  - intros i o Hin. apply filter_In in Hin. destruct Hin as [Hin _]. eauto.
  - intros p' Hp'. apply in_map_iff in Hp'. destruct Hp' as (p & <- & Hp).
    rewrite pid_purge. auto.
Qed.

End WfFrame.

Section WfReachable.

Context {F : Type} {NF : PyFloat F} {TF : PyTrig F}.

Lemma frame_wf (inp : FrameInput F) (w : World F) : wf w -> wf (frame inp w).
Proof.
  apply (holds_frame (@wf_counted F)).
  - intros k px py rb w0. apply place_wf.
  - intros px py u w0. apply add_meeple_wf.
  - intros w0 ms ps dt H Hc. unfold holds in *. cbn.
    pose proof (@handle_collisions_wf F NF (meeples w0) (placeables w0) dt _ _ H) as H1.
    now rewrite Hc in H1.
Qed.

Lemma initial_world_wf (spawn : nat -> F * F * F) : wf (initial_world spawn).
Proof.
  unfold wf, wf_counted, initial_world. cbn [meeples placeables next_mid next_pid].
  assert (E : skel (initial_meeples spawn) = map (fun i => (i, None)) (seq 0 INITIAL_NUM_MEEPLES)).
  { unfold skel, initial_meeples. rewrite map_map. apply map_ext. intros i.
    destruct (spawn i) as [[ua ur] u]. reflexivity. }
  rewrite E. split; [constructor|split].
  - rewrite map_map. cbn [fst]. rewrite map_id. apply seq_NoDup.
  - constructor.
  - intros i h Hin. apply in_map_iff in Hin. destruct Hin as (j & [=] & _).
  - intros p r [].
  - intros p [].
  - intros i o Hin. apply in_map_iff in Hin. destruct Hin as (j & [= <- <-] & Hj).
    apply in_seq in Hj. lia.
  - intros p [].
Qed.

Lemma reachable_wf (w : World F) : reachable w -> wf w.
Proof.
  induction 1 as [spawn | inp w Hr IH]; [apply initial_world_wf | now apply frame_wf].
Qed.

End WfReachable.

(* ================================================================== *)
(** * Residents are present agents (C9) *)

Section ResidentsClaim.

Context {F : Type} {NF : PyFloat F} {TF : PyTrig F}.

Lemma wf_store_residents_present (ms : list (Meeple F)) (ps : list (Placeable F)) :
  wf_store ms ps ->
  forall p r, In p ps -> In r (residents_of p) -> In r (map (@mid F) ms).
Proof.
  intros Hwf p r Hp Hr. pose proof (wf_res Hwf p r Hp Hr) as Hin.
  rewrite <- map_fst_skel. apply (in_map fst) in Hin. exact Hin.
Qed.

(** C9.  In every state the game loop reaches, each entry of each
    [residents] list is the identity of a meeple of the [meeples] list, and
    that meeple's [home] is the hut listing it.  The same holds right after
    the collision pass of such a state: a meeple the removal batch drops from
    [meeples] is dropped from its hut's list by the same batch. *)
Theorem residents_are_present (w : World F) (Hr : reachable w) :
  (forall p r, In p (placeables w) -> In r (residents_of p) ->
     exists m, In m (meeples w) /\ mid m = r /\ home m = Some (pid p)) /\
  (forall dt p r,
     In p (snd (handle_collisions (meeples w) (placeables w) dt)) ->
     In r (residents_of p) ->
     In r (map (@mid F) (fst (handle_collisions (meeples w) (placeables w) dt)))).
Proof.
  apply reachable_wf in Hr. destruct Hr as (Hwf & Hfm & Hfp). split.
  - intros p r Hp Hres. apply skel_In. eapply wf_res; eauto.
  - intros dt p r Hp Hres.
    pose proof (@handle_collisions_wf F NF (meeples w) (placeables w) dt _ _
                  (conj Hwf (conj Hfm Hfp))) as (Hwf' & _).
    eapply wf_store_residents_present; eauto.
Qed.

End ResidentsClaim.

(* ================================================================== *)
(** * Placement (C3, C10) and the residents of a new hut (C4) *)


Section PlacementClaims.

Context {F : Type} {NF : PyFloat F}.
Implicit Types (w : World F) (p : Placeable F) (ps : list (Placeable F)).

(** The loop of the overlap check says yes exactly when the candidate's
    rectangle collides with no rectangle already placed. *)
Lemma can_place_spec (new_obj : Placeable F) ps :
  rect_bool (collision_rect new_obj) = true ->
  (can_place new_obj ps = true <->
   forall p, In p ps -> colliderect (collision_rect new_obj) (collision_rect p) = false).
Proof.
  intros Hb. unfold can_place. rewrite Hb, negb_true_iff. split.
  - intros H p Hp. destruct (colliderect _ (collision_rect p)) eqn:Hc; [|reflexivity].
    assert (Hex : existsb (fun q => rect_bool (collision_rect q) &&
                     colliderect (collision_rect new_obj) (collision_rect q)) ps = true).
    { apply existsb_exists. exists p. split; [exact Hp|]. rewrite Hc, andb_true_r.
      unfold colliderect in Hc. unfold rect_bool.
      destruct (r_width (collision_rect p) =? 0)%Z; [now rewrite !orb_true_r in Hc|].
      destruct (r_height (collision_rect p) =? 0)%Z; [now rewrite !orb_true_r in Hc|].
      reflexivity. }
    congruence.
  - intros H. destruct (existsb _ ps) eqn:Hex; [|reflexivity].
    apply existsb_exists in Hex. destruct Hex as (p & Hp & Hc).
    apply andb_true_iff in Hc. destruct Hc as [_ Hc]. rewrite (H p Hp) in Hc. discriminate.
Qed.

Lemma collision_rect_new k id id' px py :
  collision_rect (new_Placeable (F:=F) k id px py) =
  collision_rect (new_Placeable (F:=F) k id' px py).
Proof. destruct k; reflexivity. Qed.

Lemma can_place_id k id id' px py ps :
  can_place (new_Placeable (F:=F) k id px py) ps =
  can_place (new_Placeable (F:=F) k id' px py) ps.
Proof. unfold can_place. now rewrite (collision_rect_new k id id'). Qed.

Lemma assign_home_lengths a h (ms : list (Meeple F)) ps :
  length (snd (fst (assign_home a h ms ps))) = length ps.
Proof.
  unfold assign_home. destruct (find_placeable h ps); [|reflexivity].
  destruct (_ && _); [|reflexivity]. simpl.
  rewrite <- (length_map (@pid F)), map_pid_update, length_map; [reflexivity|].
  intros q. apply pid_set_residents.
Qed.

Lemma assign_loop_lengths h cap l n (ms : list (Meeple F)) ps :
  length (snd (fst (assign_loop h cap l n ms ps))) = length ps.
Proof.
  revert n ms ps. induction l as [|a l IH]; intros n ms ps; simpl; [reflexivity|].
  pose proof (assign_home_lengths a h ms ps) as H.
  destruct (assign_home a h ms ps) as [[ms1 ps1] ok]. simpl in H.
  destruct ok; [destruct (cap <=? S n)|]; simpl; rewrite ?IH; exact H.
Qed.

(** An accepted placement makes the collection one longer. *)
Lemma place_accepted_length k px py rb w :
  can_place (new_Placeable k (next_pid w) px py) (placeables w) = true ->
  length (placeables (place k px py rb w)) = S (length (placeables w)).
Proof.
  intros Hcan. unfold place. rewrite Hcan.
  destruct (is_Hut _).
  - unfold assign_residents.
    match goal with
    | |- context [assign_loop ?h ?c ?l ?n ?ms ?ps] =>
        pose proof (assign_loop_lengths h c l n ms ps) as H;
        destruct (assign_loop h c l n ms ps) as [[ms' ps'] cnt]
    end.
    cbn in H |- *. rewrite H, length_app. simpl. lia.
  - cbn. rewrite length_app. simpl. lia.
Qed.

Lemma place_unchanged_iff k px py rb w :
  place k px py rb w = w <->
  can_place (new_Placeable k (next_pid w) px py) (placeables w) = false.
Proof.
  split.
  - intros E. destruct (can_place _ _) eqn:Hcan; [|reflexivity].
    pose proof (place_accepted_length k px py rb w Hcan) as H. rewrite E in H. lia.
  - apply place_rejected.
Qed.

(** C3.  Placing an object of kind [k] at a click: if the candidate's
    collision rectangle collides with that of an object already placed, the
    whole world is returned as it was; if it collides with none, the
    candidate is appended to [placeables] (a hut with the residents its
    placement assigns), and nothing already placed changes. *)
Theorem try_place_contract (k : Kind) (px py : Z) (rb : nat -> nat) (w : World F)
    (Hw : wf w) :
  let candidate := new_Placeable k (next_pid w) px py in
  ((exists p, In p (placeables w) /\
              colliderect (collision_rect candidate) (collision_rect p) = true) ->
   place k px py rb w = w) /\
  ((forall p, In p (placeables w) ->
              colliderect (collision_rect candidate) (collision_rect p) = false) ->
   placeables (place k px py rb w) =
     placeables w ++ [set_residents (chosen_residents rb candidate (meeples w)) candidate]).
Proof.
  intros candidate.
  destruct (new_Placeable_facts (F:=F) k (next_pid w) px py) as (_ & _ & _ & _ & Hb).
  split.
  - intros (p & Hp & Hc). apply place_rejected. fold candidate.
    destruct (can_place candidate (placeables w)) eqn:Hcan; [|reflexivity].
    rewrite (proj1 (can_place_spec candidate (placeables w) Hb) Hcan p Hp) in Hc.
    discriminate.
  - intros Hnone. apply (can_place_spec candidate (placeables w) Hb) in Hnone.
    destruct (place_char k px py rb Hw Hnone) as (_ & _ & E & _). exact E.
Qed.

(** C10.  Whether a placement is accepted depends on the placeables alone:
    in two worlds with the same [placeables], whatever their meeples (and
    whatever else differs), placing the same kind at the same point leaves
    the one world unchanged exactly when it leaves the other unchanged.  With
    nothing placed yet every placement is accepted, wherever the meeples
    stand. *)
Theorem placement_ignores_agents (k : Kind) (px py : Z) (rb1 rb2 : nat -> nat)
    (w1 w2 : World F) (Hsame : placeables w1 = placeables w2) :
  (place k px py rb1 w1 = w1 <-> place k px py rb2 w2 = w2) /\
  (placeables w1 = [] -> length (placeables (place k px py rb1 w1)) = 1).
Proof.
  split.
  - rewrite !place_unchanged_iff, Hsame.
    now rewrite (can_place_id k (next_pid w1) (next_pid w2)).
  - intros Hnil. rewrite place_accepted_length; [now rewrite Hnil|].
    rewrite Hnil. unfold can_place. simpl. now destruct (rect_bool _).
Qed.

End PlacementClaims.

(* ================================================================== *)
(** * Hazard consumption (C2) *)

Section HazardClaim.

Context {F : Type} {NF : PyFloat F}.
Implicit Types (m : Meeple F) (ms : list (Meeple F)).
Implicit Types (p hole : Placeable F) (ps : list (Placeable F)).



End HazardClaim.

(* ================================================================== *)
(** * Day/night transitions (C5) and rain (C8) *)

Section ClockAndRain.

Context {F : Type} {NF : PyFloat F} {TF : PyTrig F}.
Implicit Types (w : World F) (m : Meeple F) (ms : list (Meeple F)).

(** Placing, adding a meeple and the pass over the events leave the clock,
    the rain and the speed to the handlers of their own. *)
Lemma place_rest k px py rb w :
  is_daytime (place k px py rb w) = is_daytime w /\
  is_raining (place k px py rb w) = is_raining w /\
  rain_end_time (place k px py rb w) = rain_end_time w /\
  simulation_speed_multiplier (place k px py rb w) = simulation_speed_multiplier w.
Proof.
  unfold place. destruct (can_place _ _); [|auto].
  destruct (is_Hut _); [|cbn; auto].
  destruct (assign_residents _ _ _ _) as [[ms' ps'] cnt]. cbn. auto.
Qed.

Lemma add_meeple_rest px py u w :
  is_daytime (add_meeple px py u w) = is_daytime w /\
  is_raining (add_meeple px py u w) = is_raining w /\
  rain_end_time (add_meeple px py u w) = rain_end_time w /\
  simulation_speed_multiplier (add_meeple px py u w) = simulation_speed_multiplier w.
Proof. unfold add_meeple. destruct (negb _); cbn; auto. Qed.

Lemma handle_event_daytime e w : is_daytime (handle_event e w) = is_daytime w.
Proof.
  destruct e as [|k|px py d|]; cbn; auto.
  destruct (SIMULATION_WIDTH <=? px)%Z; [reflexivity|].
  destruct (selected_tool w) as [t|]; [|reflexivity].
  destruct t; cbn; try apply place_rest; try apply add_meeple_rest; auto.
  destruct (negb (is_raining w)); reflexivity.
Qed.

Lemma handle_events_daytime es w : is_daytime (handle_events es w) = is_daytime w.
Proof.
  unfold handle_events. revert w. induction es as [|e es IH]; intros w; simpl; auto.
  now rewrite IH, handle_event_daytime.
Qed.

Lemma handle_event_speed_cases e w :
  simulation_speed_multiplier (handle_event e w) = simulation_speed_multiplier w \/
  exists s, simulation_speed_multiplier (handle_event e w) = clamp_speed s.
Proof.
  destruct e as [|k|px py d|]; cbn; auto.
  - right. eexists. reflexivity.
  - destruct (SIMULATION_WIDTH <=? px)%Z; [now left|].
    destruct (selected_tool w) as [t|]; [|now left].
    left. destruct t; cbn; try apply place_rest; try apply add_meeple_rest; auto.
    destruct (negb (is_raining w)); reflexivity.
Qed.

(** A call of [update]: [state] and [target_pos] come out of the state
    logic. *)
Lemma update_state_target ps speed u dt d m :
  state (update ps speed u dt d m) = state (update_state ps u d m) /\
  target_pos (update ps speed u dt d m) = target_pos (update_state ps u d m).
Proof.
  unfold update.
  destruct (update_boundary_keeps (update_movement speed u dt (update_state ps u d m)))
    as (_ & _ & -> & -> & _).
  destruct (update_movement_keeps speed u dt (update_state ps u d m))
    as (_ & _ & -> & -> & _).
  auto.
Qed.

(** The state logic on a homed, wandering meeple. *)
Lemma update_state_wandering ps u d m hr :
  home_rect ps m = Some hr -> state m = wandering ->
  let near := fltb (fadd (sq (fsub (x m) (of_Z (r_centerx hr))))
                         (sq (fsub (y m) (of_Z (r_centery hr)))))
                   (of_Z (HOME_PROXIMITY_THRESHOLD ^ 2)) in
  let m' := update_state ps u d m in
  (d = true -> state m' = wandering /\ target_pos m' = target_pos m) /\
  (d = false -> near = false ->
     state m' = going_home /\ target_pos m' = Some (r_center hr)) /\
  (d = false -> near = true -> state m' = at_home /\ target_pos m' = None).
Proof.
  intros Hh Hs near m'. unfold m', update_state. rewrite Hh, Hs. fold near.
  destruct (get_random_spot_nearby hr _ _) as [nx ny].
  split; [|split].
  - intros ->. cbn. rewrite ?Hs. cbn. auto.
  - intros -> Hn. cbn. rewrite ?Hs, ?Hn. cbn. auto.
  - intros -> Hn. cbn. rewrite ?Hs, ?Hn. cbn. auto.
Qed.

(** C5, as the code has it.  A meeple with a home that is [wandering] when
    the frame's update reaches it: the flag its [update] gets is the one the
    clock has just computed; while that flag says day the meeple stays
    [wandering]; when it says night - so on the very frame of the flip from
    day to night - the update turns it to [going_home] with [target_pos] the
    centre of the hut's base rectangle, unless it already stands within
    [HOME_PROXIMITY_THRESHOLD] of that centre, in which case the same update
    takes it on to [at_home] and clears [target_pos]. *)
Theorem night_flip_transition (inp : FrameInput F) (w : World F) (i : nat)
    (m : Meeple F) (hr : Rect) :
  let dt := frame_dt inp in
  let w1 := advance_clock dt w in
  let w3 := update_effects inp (handle_events (events inp) w1) in
  home_rect (placeables w3) m = Some hr -> state m = wandering ->
  let near := fltb (fadd (sq (fsub (x m) (of_Z (r_centerx hr))))
                         (sq (fsub (y m) (of_Z (r_centery hr)))))
                   (of_Z (HOME_PROXIMITY_THRESHOLD ^ 2)) in
  let m' := update_one inp dt w3 i m in
  is_daytime w3 = is_daytime w1 /\
  (is_daytime w1 = true -> state m' = wandering /\ target_pos m' = target_pos m) /\
  (is_daytime w1 = false -> near = false ->
     state m' = going_home /\ target_pos m' = Some (r_center hr)) /\
  (is_daytime w1 = false -> near = true -> state m' = at_home /\ target_pos m' = None).
Proof.
  intros dt w1 w3 Hh Hs near m'.
  assert (Hd : is_daytime w3 = is_daytime w1).
  { unfold w3, update_effects. cbn. apply handle_events_daytime. }
  split; [exact Hd|].
  unfold m', update_one.
  remember (fold_left (fun m0 e => apply_effect e m0) (active_effects w3)
              (set_speed_multiplier_effect
                 (if is_raining w3 then RAIN_SPEED_MULTIPLIER else lit 1 1) m)) as ma eqn:Ema.
  assert (K : home ma = home m /\ state ma = state m /\
              target_pos ma = target_pos m /\ x ma = x m /\ y ma = y m).
  { subst ma.
    match goal with
    | |- context [fold_left ?f ?es ?mb] =>
        destruct (apply_effects_keeps es mb) as (_ & -> & _ & -> & -> & -> & ->)
    end. repeat split; reflexivity. }
  clear Ema. destruct K as (Kh & Ks & Kt & Kx & Ky).
  destruct (update_state_target (placeables w3) (simulation_speed_multiplier w3)
              (draws inp i) dt (is_daytime w3) ma) as [-> ->].
  assert (Hh' : home_rect (placeables w3) ma = Some hr)
    by (unfold home_rect in *; now rewrite Kh).
  assert (Hs' : state ma = wandering) by congruence.
  destruct (update_state_wandering (placeables w3) (draws inp i) (is_daytime w3) ma Hh' Hs')
    as (H1 & H2 & H3).
  rewrite Kx, Ky in H2, H3. fold near in H2, H3. rewrite Kt in H1.
  rewrite Hd in *. auto.
Qed.

(** The collision pass keeps what [still] shows of the meeples it keeps. *)
Lemma handle_collisions_still (P : Meeple F -> Prop) ms (ps : list (Placeable F)) dt :
  (forall a b, still a = still b -> P a -> P b) ->
  Forall P ms -> Forall P (fst (handle_collisions ms ps dt)).
Proof.
  intros HP Hms.
  destruct (meeple_obstacle_pass dt ps [] (meeple_meeple_pass [] ms)) as [ms2 tr] eqn:Hp.
  rewrite (handle_collisions_eq ms ps dt Hp). cbn [fst].
  destruct (meeple_obstacle_pass_char _ _ _ _ Hp) as [Hs _].
  rewrite meeple_meeple_pass_still in Hs.
  assert (H2 : Forall P ms2).
  { clear Hp. revert ms Hms Hs. induction ms2 as [|b l IH]; intros [|a ms] Hms Hs;
      simpl in Hs; try discriminate; constructor.
    - inversion Hms; subst. apply (HP a b); [|assumption].
      symmetry. exact (f_equal (hd (still a)) Hs).
    - inversion Hms; subst. eapply IH; eauto. exact (f_equal (@tl _) Hs). }
  rewrite Forall_forall in *. intros m Hm. apply filter_In in Hm. now apply H2.
Qed.

(** C8.  After every frame each meeple's [speed_multiplier_effect] is
    [RAIN_SPEED_MULTIPLIER] if it rains and [1.0] if not.  With no event in
    the frame, rain that is on stays on while [time.time()] has not passed
    [rain_end_time] and is off once it has, and rain that is off stays off.
    Switching the rain on sets [rain_end_time] to the time of the click plus
    [RAIN_DURATION]. *)
Theorem rain_slowdown (inp : FrameInput F) (w : World F) :
  let w' := frame inp w in
  Forall (fun m => speed_multiplier_effect m =
                   if is_raining w' then RAIN_SPEED_MULTIPLIER else lit 1 1)
         (meeples w') /\
  (events inp = [] -> is_raining w = true ->
     is_raining w' = negb (fltb (rain_end_time w) (t_rain inp)) /\
     rain_end_time w' = rain_end_time w) /\
  (events inp = [] -> is_raining w = false -> is_raining w' = false) /\
  (forall px py d,
     is_raining w = false ->
     is_raining (use_tool T_rain px py d w) = true /\
     rain_end_time (use_tool T_rain px py d w) = fadd (c_time d) (of_Z RAIN_DURATION)).
Proof.
  intros w'. unfold w', frame.
  set (dt := frame_dt inp).
  set (w2 := handle_events (events inp) (advance_clock dt w)).
  set (w3 := update_effects inp w2).
  destruct (handle_collisions (meeples (update_meeples inp dt w3))
              (placeables (update_meeples inp dt w3)) dt) as [ms ps] eqn:Hc.
  cbn [is_raining rain_end_time meeples set_placeables set_meeples update_meeples].
  split; [|split; [|split]].
  - pose proof (@handle_collisions_still
                  (fun m => speed_multiplier_effect m =
                            if is_raining w3 then RAIN_SPEED_MULTIPLIER else lit 1 1)
                  (meeples (update_meeples inp dt w3))
                  (placeables (update_meeples inp dt w3)) dt) as H.
    rewrite Hc in H. apply H.
    + intros a b E Ha. unfold still in E. congruence.
    + unfold update_meeples. cbn [meeples set_meeples].
      apply Forall_forall. intros m Hm. apply in_map_iff in Hm.
      destruct Hm as ([j m0] & <- & _). cbn [fst snd]. unfold update_one.
      match goal with
      | |- context [update ?ps ?s ?u ?dt ?d ?m1] =>
          destruct (update_keeps ps s u dt d m1) as (_ & _ & ->)
      end.
      match goal with
      | |- context [fold_left ?f ?es ?m1] =>
          destruct (apply_effects_keeps es m1) as (_ & _ & -> & _)
      end.
      reflexivity.
  - intros He Hr. unfold w3, w2. rewrite He. unfold handle_events, update_effects.
    cbn. rewrite Hr. cbn. split; [|reflexivity].
    destruct (fltb (rain_end_time w) (t_rain inp)); reflexivity.
  - intros He Hr. unfold w3, w2. rewrite He. unfold handle_events, update_effects.
    cbn. rewrite Hr. reflexivity.
  - intros px py d Hr. cbn. rewrite Hr. cbn. auto.
Qed.

End ClockAndRain.

(* ================================================================== *)
(** * A checker for well-formedness *)

Fixpoint nodupb (l : list nat) : bool :=
  match l with
  | [] => true
  | a :: t => negb (mem a t) && nodupb t
  end.

Lemma nodupb_sound (l : list nat) : nodupb l = true -> NoDup l.
Proof.
  induction l as [|a t IH]; simpl; [constructor|].
  intros H. apply andb_true_iff in H. destruct H as [Ha Ht].
  constructor; [|auto]. apply mem_false. now apply negb_true_iff.
Qed.

Definition entry_eqb (a b : nat * option nat) : bool :=
  Nat.eqb (fst a) (fst b) &&
  match snd a, snd b with
  | Some h, Some h' => Nat.eqb h h'
  | None, None => true
  | _, _ => false
  end.

Lemma entry_eqb_eq (a b : nat * option nat) : entry_eqb a b = true -> a = b.
Proof.
  destruct a as [i [h|]], b as [j [h'|]]; unfold entry_eqb; simpl;
    intros H; apply andb_true_iff in H; destruct H as [H1 H2];
    apply Nat.eqb_eq in H1; subst; try discriminate; auto.
  apply Nat.eqb_eq in H2. now subst.
Qed.

Section WfCheck.

Context {F : Type} {NF : PyFloat F}.

Definition wf_homeb (sk : list (nat * option nat)) (ps : list (Placeable F)) : bool :=
  forallb (fun io => match snd io with
                     | Some h => existsb (fun p => Nat.eqb (pid p) h &&
                                                   mem (fst io) (residents_of p)) ps
                     | None => true
                     end) sk.

Definition wf_resb (sk : list (nat * option nat)) (ps : list (Placeable F)) : bool :=
  forallb (fun p => forallb (fun r => existsb (entry_eqb (r, Some (pid p))) sk)
                            (residents_of p)
                    && nodupb (residents_of p)) ps.

Definition wf_countedb (sk : list (nat * option nat)) (ps : list (Placeable F))
    (nm np : nat) : bool :=
  nodupb (map fst sk) && nodupb (map (@pid F) ps)
  && wf_homeb sk ps && wf_resb sk ps
  && forallb (fun io => fst io <? nm) sk
  && forallb (fun p => pid p <? np) ps.

Definition wfb (w : World F) : bool :=
  wf_countedb (skel (meeples w)) (placeables w) (next_mid w) (next_pid w).

Lemma wf_countedb_sound sk ps nm np :
  wf_countedb sk ps nm np = true -> wf_counted sk ps nm np.
Proof.
  unfold wf_countedb. rewrite !andb_true_iff.
  intros [[[[[H1 H2] H3] H4] H5] H6].
  unfold wf_homeb in H3. unfold wf_resb in H4.
  rewrite forallb_forall in H3, H4, H5, H6.
  split; [constructor|split].
  - now apply nodupb_sound.
  - now apply nodupb_sound.
  - intros i h Hin. specialize (H3 _ Hin). simpl in H3.
    apply existsb_exists in H3. destruct H3 as (p & Hp & Hc).
    apply andb_true_iff in Hc. destruct Hc as [Hc1 Hc2].
    exists p. split; [exact Hp|]. split; [now apply Nat.eqb_eq | now apply mem_In].
  - intros p r Hp Hr. specialize (H4 _ Hp). apply andb_true_iff in H4.
    destruct H4 as [H4 _]. rewrite forallb_forall in H4. specialize (H4 _ Hr).
    apply existsb_exists in H4. destruct H4 as (io & Hio & He).
    apply entry_eqb_eq in He. now subst.
  - intros p Hp. specialize (H4 _ Hp). apply andb_true_iff in H4.
    destruct H4 as [_ H4]. now apply nodupb_sound.
  - intros i o Hin. specialize (H5 _ Hin). simpl in H5. now apply Nat.ltb_lt.
  - intros p Hp. specialize (H6 _ Hp). now apply Nat.ltb_lt.
Qed.

Lemma wfb_sound (w : World F) : wfb w = true -> wf w.
Proof. apply wf_countedb_sound. Qed.





End WfCheck.

Section CapCheck.

Context {F : Type} {NF : PyFloat F}.

Definition cap_okb (ps : list (Placeable F)) : bool :=
  forallb (fun p => (length (residents_of p) <=? max_residents_of p) &&
                    (if is_Hut p then max_residents_of p =? HUT_MAX_RESIDENTS else true)) ps.

Lemma cap_okb_sound (ps : list (Placeable F)) : cap_okb ps = true -> cap_ok ps.
Proof.
  unfold cap_okb, cap_ok. rewrite forallb_forall, Forall_forall.
  intros H p Hp. specialize (H p Hp). apply andb_true_iff in H. destruct H as [H1 H2].
  split; [now apply Nat.leb_le|].
  intros Hh. rewrite Hh in H2. now apply Nat.eqb_eq.
Qed.

End CapCheck.

(* ================================================================== *)
(** * Worlds to run the model on (binary64) *)

Module Examples.

Definition meeple_at (id : nat) (px py : Z) : Meeple float :=
  Meeple_init id (of_Z px) (of_Z py) SIMULATION_WIDTH SCREEN_HEIGHT 0%float.

(** [n] homeless meeples in a row. *)
Definition crowd (n : nat) : list (Meeple float) :=
  map (fun i => meeple_at i (100 + 30 * Z.of_nat i) 300) (seq 0 n).

Definition world_of (ms : list (Meeple float)) (ps : list (Placeable float)) : World float :=
  {| meeples := ms;
     placeables := ps;
     active_effects := [];
     is_raining := false;
     rain_end_time := 0%float;
     selected_tool := None;
     simulation_speed_multiplier := 1%float;
     cycle_timer := 0%float;
     is_daytime := true;
     running := true;
     next_mid := length ms;
     next_pid := length ps |}.

Definition ten_homeless : World float := world_of (crowd 10) [].

Definition draws_a : nat -> nat := fun i => 7 * i + 3.
Definition draws_b : nat -> nat := fun _ => 0.

(** Ten homeless meeples and a hut placed among them. *)
Definition housed : World float := place K_Hut 400 100 draws_a ten_homeless.

(** A world with one hole. *)
Definition holed : World float := world_of (crowd 3) [Hole_init 0 100 100].

(** The same hole, with other meeples, standing on the spot to build on. *)
Definition holed_crowded : World float :=
  world_of [meeple_at 0 400 400; meeple_at 1 405 395; meeple_at 2 398 402;
            meeple_at 3 100 100] [Hole_init 0 100 100].

Definition click_draws : ClickDraws float :=
  {| c_time := 1000%float; c_angle := 0.25%float; c_randbelow := draws_a |}.

Definition quiet_draws : nat -> UpdateDraws float :=
  fun _ => {| u_wander := 0.5%float; u_spot_angle := 0.5%float; u_spot_radius := 0.5%float |}.

Definition spawn : nat -> float * float * float :=
  fun i => (PrimFloat.div (B64.from_Z (Z.of_nat i)) 20, 0.75, 0.5)%float.

(** A frame in which the player picks the hut tool and builds a hut. *)
Definition build_hut_input : FrameInput float :=
  {| tick_ms := 16;
     events := [MOUSEBUTTONDOWN 830 70 click_draws; MOUSEBUTTONDOWN 400 100 click_draws];
     t_rain := 1000%float;
     t_effect := fun _ => 1000%float;
     draws := quiet_draws |}.

Definition after_build : World float := frame build_hut_input (initial_world spawn).

End Examples.

(* ================================================================== *)
(** * The claims on concrete worlds *)

Lemma hut_capacity_bound_witness :
  cap_ok (placeables Examples.housed) /\
  assign_home 9 0 (meeples Examples.housed) (placeables Examples.housed)
  = (meeples Examples.housed, placeables Examples.housed, false).
Proof.
  assert (H : cap_ok (placeables Examples.housed))
    by (apply cap_okb_sound; vm_compute; reflexivity).
  split; [exact H|].
  destruct (hut_capacity_bound (TF := B64.trig) Examples.housed H)
    as (_ & _ & _ & _ & _ & _ & Hfull).
  eapply Hfull; [vm_compute; reflexivity | vm_compute; repeat constructor].
Defined.

Lemma residents_are_present_witness :
  map (@residents_of float) (placeables Examples.after_build) = [[19; 18; 17; 0]] /\
  Forall (fun p => Forall (fun r => In r (map (@mid float) (meeples Examples.after_build)))
                          (residents_of p))
         (placeables Examples.after_build).
Proof.
  split; [vm_compute; reflexivity|].
  unfold Examples.after_build.
  apply Forall_forall. intros p Hp. apply Forall_forall. intros r Hr.
  destruct (residents_are_present (reach_frame Examples.build_hut_input
              (reach_init Examples.spawn))) as [H _].
  destruct (H p r Hp Hr) as (m & Hm & Hid & _). subst r.
  exact (in_map (@mid float) _ m Hm).
Defined.

Lemma try_place_contract_witness :
  place K_Tree 125 110 Examples.draws_a Examples.holed = Examples.holed /\
  placeables (place K_Farm 400 400 Examples.draws_a Examples.holed)
  = [Hole_init 0 100 100; Farm_init 1 400 400].
Proof.
  assert (Hw : wf Examples.holed) by (apply wfb_sound; vm_compute; reflexivity).
  split.
  - refine (proj1 (try_place_contract K_Tree 125 110 Examples.draws_a Hw) _).
    exists (Hole_init 0 100 100). split; [left; reflexivity | vm_compute; reflexivity].
  - refine (eq_trans
              (proj2 (try_place_contract K_Farm 400 400 Examples.draws_a Hw) _) _).
    + intros p [<-|[]]. vm_compute. reflexivity.
    + vm_compute. reflexivity.
Defined.

Lemma placement_ignores_agents_witness :
  placeables Examples.holed = placeables Examples.holed_crowded /\
  (place K_Farm 400 400 Examples.draws_a Examples.holed = Examples.holed <->
   place K_Farm 400 400 Examples.draws_b Examples.holed_crowded = Examples.holed_crowded).
Proof.
  split; [reflexivity|].
  exact (proj1 (placement_ignores_agents K_Farm 400 400 Examples.draws_a Examples.draws_b
                  Examples.holed Examples.holed_crowded eq_refl)).
Defined.


(** The residents follow the draws of the shuffle: other draws, other
    residents. *)
Example hut_assignment_follows_shuffle :
  map (@residents_of float)
      (placeables (place K_Hut 400 100 Examples.draws_a Examples.ten_homeless))
    = [[7; 9; 8; 0]] /\
  map (@residents_of float)
      (placeables (place K_Hut 400 100 Examples.draws_b Examples.ten_homeless))
    = [[1; 2; 3; 4]].
Proof. split; vm_compute; reflexivity. Qed.

(* ================================================================== *)
(** * The speed multiplier stays clamped (C7) *)

Lemma SFcompare_antisym (a b : spec_float) :
  SFcompare b a = option_map CompOpp (SFcompare a b).
Proof.
  destruct a as [sa|sa| |sa ma ea], b as [sb|sb| |sb mb eb]; simpl;
    try reflexivity; try (destruct sa; reflexivity); try (destruct sb; reflexivity);
    try (destruct sa, sb; reflexivity).
  destruct sa, sb; simpl; try reflexivity;
    rewrite (Z.compare_antisym ea eb); destruct (ea ?= eb)%Z; simpl; try reflexivity;
    change (Pos.compare_cont Eq mb ma) with (Pos.compare mb ma);
    change (Pos.compare_cont Eq ma mb) with (Pos.compare ma mb);
    rewrite (Pos.compare_antisym ma mb); try reflexivity.
Qed.

Lemma SFcompare_None (a b : spec_float) :
  SFcompare a b = None -> a = S754_nan \/ b = S754_nan.
Proof.
  destruct a as [sa|sa| |sa ma ea], b as [sb|sb| |sb mb eb]; simpl; auto; discriminate.
Qed.

Lemma float_ltb_leb (a b : float) :
  PrimFloat.ltb a b = true -> PrimFloat.leb a b = true.
Proof.
  rewrite ltb_spec, leb_spec. unfold SFltb, SFleb.
  destruct (SFcompare _ _) as [[]|]; auto.
Qed.

(** [s] is above [c], and [M], a number, is not below [s]: then [s <= M]. *)
Lemma float_not_ltb_leb (c s M : float) :
  PrimFloat.ltb c s = true -> PrimFloat.ltb M s = false ->
  PrimFloat.leb M M = true -> PrimFloat.leb s M = true.
Proof.
  rewrite !ltb_spec, !leb_spec. unfold SFltb, SFleb.
  rewrite (SFcompare_antisym (Prim2SF M) (Prim2SF s)).
  destruct (SFcompare (Prim2SF M) (Prim2SF s)) as [[]|] eqn:E; simpl; auto; try discriminate.
  intros Hc _ HM. apply SFcompare_None in E. destruct E as [E|E].
  - rewrite E in HM. discriminate.
  - rewrite E in Hc. destruct (Prim2SF c); discriminate.
Qed.

(** The clamp lands in the interval from any float, not-a-number included. *)
Lemma clamp_speed_bounds (s : float) :
  PrimFloat.leb MIN_SPEED_MULT (clamp_speed s) = true /\
  PrimFloat.leb (clamp_speed s) MAX_SPEED_MULT = true.
Proof.
  unfold clamp_speed, py_max, py_min.
  change (@fltb float B64.num) with PrimFloat.ltb.
  destruct (PrimFloat.ltb MAX_SPEED_MULT s) eqn:E1.
  - split; vm_compute; reflexivity.
  - destruct (PrimFloat.ltb MIN_SPEED_MULT s) eqn:E2.
    + split; [now apply float_ltb_leb|].
      eapply float_not_ltb_leb; eauto.
    + split; vm_compute; reflexivity.
Qed.

Section SpeedClaim.

Context {TF : PyTrig float}.

Definition speed_in_bounds (w : World float) : Prop :=
  PrimFloat.leb MIN_SPEED_MULT (simulation_speed_multiplier w) = true /\
  PrimFloat.leb (simulation_speed_multiplier w) MAX_SPEED_MULT = true.

Lemma handle_event_speed (e : Event float) (w : World float) :
  speed_in_bounds w -> speed_in_bounds (handle_event e w).
Proof.
  unfold speed_in_bounds. intros H.
  destruct (handle_event_speed_cases e w) as [-> | [s ->]];
    [exact H | apply clamp_speed_bounds].
Qed.

Lemma frame_speed (inp : FrameInput float) (w : World float) :
  speed_in_bounds w -> speed_in_bounds (frame inp w).
Proof.
  intros H. unfold frame.
  set (dt := frame_dt inp).
  assert (H2 : speed_in_bounds (handle_events (events inp) (advance_clock dt w))).
  { unfold handle_events.
    apply (fold_left_inv speed_in_bounds); [|exact H].
    intros acc e. apply handle_event_speed. }
  destruct (handle_collisions _ _ dt) as [ms ps]. exact H2.
Qed.

(** C7.  The speed multiplier is in [[MIN_SPEED_MULT, MAX_SPEED_MULT]] =
    [[0.2, 5.0]] at the start, after any key press in any world (the clamp
    follows every key), and so after any run of frames from the start,
    whatever keys, clicks and other events they bring. *)
Theorem speed_multiplier_clamped :
  (forall spawn, speed_in_bounds (initial_world spawn)) /\
  (forall (k : Key) (w : World float), speed_in_bounds (handle_key k w)) /\
  (forall spawn (inputs : list (FrameInput float)),
     speed_in_bounds (fold_left (fun w inp => frame inp w) inputs (initial_world spawn))).
Proof.
  assert (H0 : forall spawn, speed_in_bounds (initial_world spawn))
    by (intros spawn; split; vm_compute; reflexivity).
  split; [exact H0|]. split.
  - intros k w. apply clamp_speed_bounds.
  - intros spawn inputs. apply (fold_left_inv speed_in_bounds); [|apply H0].
    intros acc inp. apply frame_speed.
Qed.

End SpeedClaim.

(* ================================================================== *)
(** * Two overlapping agents (C6) *)

Section PairPass.

Context {F : Type} {NF : PyFloat F}.


End PairPass.

Module ExactPair.

Local Open Scope R_scope.







End ExactPair.

Module Binary64Pair.


Definition distance (a b : Meeple float) : float :=
  PrimFloat.sqrt (PrimFloat.add (PrimFloat.mul (PrimFloat.sub (x a) (x b))
                                               (PrimFloat.sub (x a) (x b)))
                                (PrimFloat.mul (PrimFloat.sub (y a) (y b))
                                               (PrimFloat.sub (y a) (y b)))).


End Binary64Pair.


(* ================================================================== *)
(** * The hole and the nightfall on concrete worlds *)

Module Scenarios.

(** A frame with no event, sixteen milliseconds after the last. *)
Definition quiet_frame : FrameInput float :=
  {| tick_ms := 16;
     events := [];
     t_rain := 1000%float;
     t_effect := fun _ => 1000%float;
     draws := Examples.quiet_draws |}.





(** A hundredth of a second before nightfall, a hut is built on the spot
    where the first of two meeples stands. *)
Definition dusk : World float :=
  place K_Hut 400 300 Examples.draws_b
    (set_clock (lit 2999 100) true
       (Examples.world_of [Examples.meeple_at 0 400 300; Examples.meeple_at 1 100 500] [])).

Definition at_the_door : Meeple float :=
  nth 0 (meeples dusk) (Examples.meeple_at 0 0 0).

Definition far_away : Meeple float :=
  nth 1 (meeples dusk) (Examples.meeple_at 0 0 0).

Definition summary (m : Meeple float) : nat * option nat * MState * option (Z * Z) :=
  (mid m, home m, state m, target_pos m).

End Scenarios.



(** A wandering meeple with a home, standing at the centre of its hut on the
    frame in which the clock passes from day to night, is [at_home] with no
    target after that frame, not [going_home]. *)
Lemma night_flip_counterexample :
  let w := Scenarios.dusk in
  let w' := frame (TF := B64.trig) Scenarios.quiet_frame w in
  is_daytime w = true /\ is_daytime w' = false /\
  map Scenarios.summary (meeples w)
  = [(0, Some 0, wandering, None); (1, Some 0, wandering, None)] /\
  map Scenarios.summary (meeples w')
  = [(0, Some 0, at_home, None); (1, Some 0, going_home, Some (400, 300)%Z)].
Proof. repeat split; vm_compute; reflexivity. Qed.

Lemma night_flip_transition_witness :
  let inp := Scenarios.quiet_frame in
  let w := Scenarios.dusk in
  let w1 := advance_clock (frame_dt inp) w in
  let w3 := update_effects inp (handle_events (events inp) w1) in
  let hr := mkRect 375 285 50 30 in
  home_rect (placeables w3) Scenarios.far_away = Some hr /\
  state Scenarios.far_away = wandering /\
  is_daytime w = true /\ is_daytime w1 = false /\
  state (update_one (TF := B64.trig) inp (frame_dt inp) w3 1 Scenarios.far_away) = going_home /\
  target_pos (update_one (TF := B64.trig) inp (frame_dt inp) w3 1 Scenarios.far_away)
  = Some (400, 300)%Z.
Proof.
  intros inp w w1 w3 hr.
  assert (Hh : home_rect (placeables w3) Scenarios.far_away = Some hr)
    by (vm_compute; reflexivity).
  assert (Hs : state Scenarios.far_away = wandering) by (vm_compute; reflexivity).
  split; [exact Hh|]. split; [exact Hs|].
  split; [vm_compute; reflexivity|]. split; [vm_compute; reflexivity|].
  destruct (night_flip_transition (TF := B64.trig) inp w 1 Scenarios.far_away Hh Hs)
    as (_ & _ & Hn & _).
  refine (Hn _ _); vm_compute; reflexivity.
Defined.

(* ================================================================== *)
(** * Further properties: the layout of the placed objects *)

Lemma colliderect_sym (a b : Rect) : colliderect a b = colliderect b a.
Proof.
  unfold colliderect.
  destruct (r_width a =? 0)%Z, (r_height a =? 0)%Z, (r_width b =? 0)%Z,
    (r_height b =? 0)%Z; cbn; try reflexivity.
  destruct (Z.min (r_left a) (r_right a) <? Z.max (r_left b) (r_right b))%Z,
    (Z.min (r_top a) (r_bottom a) <? Z.max (r_top b) (r_bottom b))%Z,
    (Z.min (r_left b) (r_right b) <? Z.max (r_left a) (r_right a))%Z,
    (Z.min (r_top b) (r_bottom b) <? Z.max (r_top a) (r_bottom a))%Z; reflexivity.
Qed.

Lemma ForallOrdPairs_snoc {A} (R : A -> A -> Prop) (l : list A) (z : A) :
  ForallOrdPairs R l -> Forall (fun a => R a z) l -> ForallOrdPairs R (l ++ [z]).
Proof.
  induction 1 as [|a l Ha Hl IH]; intros Hz; simpl.
  - repeat constructor.
  - inversion Hz; subst. constructor; [|now apply IH].
    apply Forall_app. split; [exact Ha | now constructor].
Qed.

Lemma ForallOrdPairs_nth {A} (R : A -> A -> Prop) (l : list A) :
  ForallOrdPairs R l ->
  forall i j a b, i < j -> nth_error l i = Some a -> nth_error l j = Some b -> R a b.
Proof.
  induction 1 as [|h l Hh Hl IH]; intros i j a b Hij Hi Hj.
  - destruct i; discriminate.
  - destruct j as [|j]; [lia|]. destruct i as [|i]; simpl in Hi, Hj.
    + injection Hi as <-. rewrite Forall_forall in Hh. apply Hh.
      eapply nth_error_In; eauto.
    + apply (IH i j); auto. lia.
Qed.

(** Rectangles of positive width and height, none meeting an earlier one. *)
Definition positive_rect (r : Rect) : Prop := (0 < r_width r /\ 0 < r_height r)%Z.

Definition layout_ok (rs : list Rect) : Prop :=
  Forall positive_rect rs /\ ForallOrdPairs (fun a b => colliderect a b = false) rs.

Section Layout.

Context {F : Type} {NF : PyFloat F}.
Implicit Types (w : World F) (p : Placeable F) (ps : list (Placeable F)).

Lemma new_Placeable_positive k id px py :
  positive_rect (collision_rect (new_Placeable (F:=F) k id px py)).
Proof.
  destruct k; unfold positive_rect; cbn;
    unfold rect_union, r_right, r_bottom; cbn; lia.
Qed.

Lemma collision_rect_purge tr p : collision_rect (purge tr p) = collision_rect p.
Proof. apply collision_rect_set_residents. Qed.

Lemma place_layout k px py rb w :
  wf w -> layout_ok (map (@collision_rect F) (placeables w)) ->
  layout_ok (map (@collision_rect F) (placeables (place k px py rb w))).
Proof.
  intros Hw [Hpos Hfop].
  destruct (can_place (new_Placeable k (next_pid w) px py) (placeables w)) eqn:Hcan;
    [|rewrite place_rejected by exact Hcan; now split].
  destruct (place_char k px py rb Hw Hcan) as (_ & _ & -> & _).
  rewrite map_app. cbn [map]. rewrite collision_rect_set_residents.
  destruct (new_Placeable_facts (F:=F) k (next_pid w) px py) as (_ & _ & _ & _ & Hb).
  pose proof (proj1 (can_place_spec _ (placeables w) Hb) Hcan) as Hfree.
  split.
  - apply Forall_app. split; [exact Hpos|].
    constructor; [apply new_Placeable_positive | constructor].
  - apply ForallOrdPairs_snoc; [exact Hfop|].
    apply Forall_forall. intros r Hr. apply in_map_iff in Hr.
    destruct Hr as (p & <- & Hp). rewrite colliderect_sym. now apply Hfree.
Qed.

End Layout.

Section LayoutReachable.

Context {F : Type} {NF : PyFloat F} {TF : PyTrig F}.

Lemma frame_layout (inp : FrameInput F) (w : World F) :
  wf w /\ layout_ok (map (@collision_rect F) (placeables w)) ->
  wf (frame inp w) /\ layout_ok (map (@collision_rect F) (placeables (frame inp w))).
Proof.
  apply (holds_frame (fun sk ps nm np =>
           wf_counted sk ps nm np /\ layout_ok (map (@collision_rect F) ps))).
  - intros k px py rb w0 [Hw Hl]. split; [now apply place_wf | now apply place_layout].
  - intros px py u w0 [Hw Hl]. split; [now apply add_meeple_wf|].
    unfold add_meeple. destruct (negb _); exact Hl.
  - intros w0 ms ps dt [Hw Hl] Hc. unfold holds in *. cbn.
    pose proof (@handle_collisions_wf F NF (meeples w0) (placeables w0) dt _ _ Hw) as H1.
    rewrite Hc in H1. split; [exact H1|].
    destruct Hw as (Hwf & _).
    destruct (handle_collisions_char dt Hwf) as (ms2 & tr & _ & _ & E).
    rewrite Hc in E. injection E as _ ->.
    rewrite map_map.
    rewrite (map_ext _ (@collision_rect F) (collision_rect_purge tr)). exact Hl.
Qed.

Lemma reachable_layout (w : World F) :
  reachable w -> layout_ok (map (@collision_rect F) (placeables w)).
Proof.
  intros Hr.
  assert (H : wf w /\ layout_ok (map (@collision_rect F) (placeables w))).
  { induction Hr as [spawn | inp w Hr IH].
    - split; [apply initial_world_wf|]. split; constructor.
    - now apply frame_layout. }
  apply H.
Qed.

(** X1.  Placed objects never overlap: in every state the game loop reaches, the
    collision rectangles of any two objects in [placeables] do not collide,
    and each has positive width and height (so the guard
    [if obs.collision_rect] never skips an object). *)
Theorem placed_objects_never_overlap (w : World F) (Hr : reachable w) :
  (forall i j a b, i <> j ->
     nth_error (placeables w) i = Some a -> nth_error (placeables w) j = Some b ->
     colliderect (collision_rect a) (collision_rect b) = false) /\
  (forall a, In a (placeables w) -> rect_bool (collision_rect a) = true).
Proof.
  destruct (reachable_layout Hr) as [Hpos Hfop]. split.
  - intros i j a b Hij Hi Hj.
    assert (Ha : nth_error (map (@collision_rect F) (placeables w)) i = Some (collision_rect a))
      by (rewrite nth_error_map, Hi; reflexivity).
    assert (Hb : nth_error (map (@collision_rect F) (placeables w)) j = Some (collision_rect b))
      by (rewrite nth_error_map, Hj; reflexivity).
    destruct (Nat.lt_ge_cases i j) as [Hlt|Hge].
    + exact (ForallOrdPairs_nth Hfop Hlt Ha Hb).
    + rewrite colliderect_sym. apply (ForallOrdPairs_nth Hfop (i:=j) (j:=i)); auto. lia.
  - intros a Ha. rewrite Forall_forall in Hpos.
    destruct (Hpos (collision_rect a) (in_map _ _ _ Ha)) as [Hw Hh].
    unfold rect_bool. apply andb_true_intro.
    split; apply negb_true_iff, Z.eqb_neq; lia.
Qed.

End LayoutReachable.

(* ================================================================== *)
(** * Further properties: what a frame keeps of the store *)

Section Permanence.

Context {F : Type} {NF : PyFloat F} {TF : PyTrig F}.
Implicit Types (w : World F) (p : Placeable F) (ps : list (Placeable F)).

(** [p'] is [p] but for its residents, and lists no resident [p] did not. *)
Definition kept (p p' : Placeable F) : Prop :=
  set_residents [] p' = set_residents [] p /\
  incl (residents_of p') (residents_of p).

(** The objects of [base] are still there, each at its index. *)
Definition objects_kept (base ps : list (Placeable F)) : Prop :=
  forall i p, nth_error base i = Some p ->
  exists p', nth_error ps i = Some p' /\ kept p p'.

Lemma kept_purge tr p p' : kept p p' -> kept p (purge tr p').
Proof.
  intros [Hb Hi]. split.
  - unfold purge. now rewrite set_residents_twice.
  - intros r Hr. rewrite residents_purge in Hr. apply filter_In in Hr. apply Hi, Hr.
Qed.

Lemma frame_objects_kept (base : list (Placeable F)) (inp : FrameInput F) w :
  wf w /\ objects_kept base (placeables w) ->
  wf (frame inp w) /\ objects_kept base (placeables (frame inp w)).
Proof.
  apply (holds_frame (fun sk ps nm np => wf_counted sk ps nm np /\ objects_kept base ps)).
  - intros k px py rb w0 [Hw Hk]. split; [now apply place_wf|].
    destruct (can_place (new_Placeable k (next_pid w0) px py) (placeables w0)) eqn:Hcan;
      [|rewrite place_rejected by exact Hcan; exact Hk].
    destruct (place_char k px py rb Hw Hcan) as (_ & _ & -> & _).
    intros i p Hi. destruct (Hk i p Hi) as (p' & Hp' & Hkept).
    exists p'. split; [|exact Hkept].
    rewrite nth_error_app1; [exact Hp'|]. apply nth_error_Some. congruence.
  - intros px py u w0 [Hw Hk]. split; [now apply add_meeple_wf|].
    unfold add_meeple. destruct (negb _); exact Hk.
  - intros w0 ms ps dt [Hw Hk] Hc. unfold holds in *. cbn.
    pose proof (@handle_collisions_wf F NF (meeples w0) (placeables w0) dt _ _ Hw) as H1.
    rewrite Hc in H1. split; [exact H1|].
    destruct Hw as (Hwf & _).
    destruct (handle_collisions_char dt Hwf) as (ms2 & tr & _ & _ & E).
    rewrite Hc in E. injection E as _ ->.
    intros i p Hi. destruct (Hk i p Hi) as (p' & Hp' & Hkept).
    exists (purge tr p'). split; [|now apply kept_purge].
    rewrite nth_error_map, Hp'. reflexivity.
Qed.

(** X2.  No frame removes, moves, reorders or alters a placed object: after the
    frame each object of [placeables] is at its index with all its
    attributes but [residents], and its [residents] list has gained nobody
    (a hut gets residents at its placement only). *)
Theorem placed_objects_are_permanent (inp : FrameInput F) (w : World F) (Hw : wf w) :
  forall i p, nth_error (placeables w) i = Some p ->
  exists p', nth_error (placeables (frame inp w)) i = Some p' /\
             set_residents [] p' = set_residents [] p /\
             (forall r, In r (residents_of p') -> In r (residents_of p)).
Proof.
  assert (H0 : objects_kept (placeables w) (placeables w)).
  { intros i p Hi. exists p. split; [exact Hi|]. split; [reflexivity | apply incl_refl]. }
  destruct (frame_objects_kept inp (conj Hw H0)) as [_ Hk].
  intros i p Hi. destruct (Hk i p Hi) as (p' & Hp' & Hb & Hincl).
  exists p'. auto.
Qed.

(** The homes of [base] are kept by the meeples still present, whose
    identities are below the counter. *)
Definition homes_kept (base sk : list (nat * option nat)) (nm : nat) : Prop :=
  (forall i o, In (i, o) base -> i < nm) /\
  (forall i h, In (i, Some h) base -> In i (map fst sk) -> In (i, Some h) sk).

Lemma frame_homes_kept (base : list (nat * option nat)) (inp : FrameInput F) w :
  wf w /\ homes_kept base (skel (meeples w)) (next_mid w) ->
  wf (frame inp w) /\ homes_kept base (skel (meeples (frame inp w))) (next_mid (frame inp w)).
Proof.
  apply (holds_frame (fun sk ps nm np => wf_counted sk ps nm np /\ homes_kept base sk nm)).
  - intros k px py rb w0 [Hw [Hlt Hk]]. split; [now apply place_wf|].
    destruct (can_place (new_Placeable k (next_pid w0) px py) (placeables w0)) eqn:Hcan;
      [|rewrite place_rejected by exact Hcan; now split].
    destruct (place_char k px py rb Hw Hcan) as (-> & _ & _ & _ & ->).
    split; [exact Hlt|].
    intros i h Hb Hi. rewrite map_fst_house in Hi. specialize (Hk i h Hb Hi).
    apply In_house. right. split; [|exact Hk].
    destruct (mem i _) eqn:Hm; [|reflexivity]. exfalso.
    apply mem_In in Hm. unfold chosen_residents in Hm.
    destruct (is_Hut _); [|contradiction].
    destruct Hw as (Hwf & _).
    destruct (chosen_ok rb (meeples w0)
                (max_residents_of (new_Placeable k (next_pid w0) px py))) as (_ & Hc & _).
    { rewrite <- map_fst_skel. eapply wf_mids; eauto. }
    specialize (Hc i Hm).
    pose proof (@wf_skel_home_unique _ _ _ _ _ _ Hwf Hk Hc). discriminate.
  - intros px py u w0 [Hw [Hlt Hk]]. split; [now apply add_meeple_wf|].
    unfold add_meeple. destruct (negb _); [|now split].
    cbn. unfold skel. rewrite map_app. cbn. fold (skel (meeples w0)). split.
    + intros i o Hb. specialize (Hlt i o Hb). lia.
    + intros i h Hb Hi. apply in_or_app. left. apply Hk; [exact Hb|].
      rewrite map_app in Hi. apply in_app_or in Hi. destruct Hi as [Hi|[E|[]]]; [exact Hi|].
      simpl in E. specialize (Hlt i _ Hb). lia.
  - intros w0 ms ps dt [Hw [Hlt Hk]] Hc. unfold holds in *.
    cbn [meeples placeables next_mid next_pid set_placeables set_meeples].
    pose proof (@handle_collisions_wf F NF (meeples w0) (placeables w0) dt _ _ Hw) as H1.
    rewrite Hc in H1. split; [exact H1|].
    destruct Hw as (Hwf & _).
    destruct (handle_collisions_char dt Hwf) as (ms2 & tr & _ & Hs & E).
    rewrite Hc in E. injection E as -> _.
    rewrite (skel_filter (fun i => negb (mem i tr))), (skel_still _ _ Hs).
    split; [exact Hlt|].
    intros i h Hb Hi. apply in_map_iff in Hi. destruct Hi as ([i' o] & E & Hi).
    simpl in E. subst i'. apply filter_In in Hi. destruct Hi as [Hi Hf].
    apply filter_In. split; [|exact Hf].
    apply Hk; [exact Hb|]. apply in_map_iff. exists (i, o). auto.
Qed.

(** X3.  A meeple never changes or loses its home: a meeple that has a home
    before a frame and is still present after it has the same home, and
    that hut lists it. *)
Theorem homes_are_permanent (inp : FrameInput F) (w : World F) (Hw : wf w) :
  forall m h, In m (meeples w) -> home m = Some h ->
  forall m', In m' (meeples (frame inp w)) -> mid m' = mid m ->
  home m' = Some h /\
  exists p, In p (placeables (frame inp w)) /\ pid p = h /\ In (mid m) (residents_of p).
Proof.
  intros m h Hm Hh m' Hm' Hid.
  assert (H0 : homes_kept (skel (meeples w)) (skel (meeples w)) (next_mid w)).
  { split; [|auto]. destruct Hw as (_ & Hlt & _). exact Hlt. }
  destruct (frame_homes_kept inp (conj Hw H0)) as [(Hwf' & _) [_ Hk]].
  assert (Hin : In (mid m, Some h) (skel (meeples (frame inp w)))).
  { apply Hk.
    - apply skel_In. eauto.
    - rewrite map_fst_skel, <- Hid. now apply in_map. }
  assert (Hin' : In (mid m, home m') (skel (meeples (frame inp w))))
    by (apply skel_In; eauto).
  split.
  - exact (@wf_skel_home_unique _ _ _ _ _ _ Hwf' Hin' Hin).
  - exact (wf_home Hwf' _ _ Hin).
Qed.

End Permanence.

(* ================================================================== *)
(** * Further properties: invariants of the whole world *)

Section WorldInvariant.

Context {F : Type} {NF : PyFloat F} {TF : PyTrig F}.

(** A property of the world kept by each phase of the loop body is kept by
    a frame, and holds in every state the loop reaches if it holds at the
    start. *)
Variable Q : World F -> Prop.

Hypothesis Q_clock : forall dt w, Q w -> Q (advance_clock dt w).
Hypothesis Q_event : forall e w, Q w -> Q (handle_event e w).
Hypothesis Q_effects : forall inp w, Q w -> Q (update_effects inp w).
Hypothesis Q_update : forall inp dt w, Q w -> Q (update_meeples inp dt w).
Hypothesis Q_collisions : forall dt w, Q w ->
  Q (set_placeables (snd (handle_collisions (meeples w) (placeables w) dt))
       (set_meeples (fst (handle_collisions (meeples w) (placeables w) dt)) w)).

Lemma frame_keeps (inp : FrameInput F) (w : World F) : Q w -> Q (frame inp w).
Proof.
  intros H. unfold frame.
  set (dt := frame_dt inp).
  assert (H2 : Q (handle_events (events inp) (advance_clock dt w))).
  { unfold handle_events. apply (fold_left_inv Q); [|now apply Q_clock].
    intros acc e. apply Q_event. }
  apply (Q_effects inp), (Q_update inp dt), (Q_collisions dt) in H2.
  destruct (handle_collisions _ _ dt) as [ms ps]. exact H2.
Qed.

Lemma reachable_keeps :
  (forall spawn, Q (initial_world spawn)) -> forall w, reachable w -> Q w.
Proof.
  intros H0 w Hr. induction Hr as [spawn | inp w Hr IH]; [apply H0 | now apply frame_keeps].
Qed.

End WorldInvariant.

Section Frozen.

Context {F : Type} {NF : PyFloat F}.
Implicit Types (m : Meeple F) (ms : list (Meeple F)).
Implicit Types (p obs : Placeable F) (ps obstacles : list (Placeable F)).

(** A meeple without its position and velocity: what the collision pass
    cannot touch. *)
Definition frozen (m : Meeple F) : Meeple F :=
  set_vel (of_Z 0) (of_Z 0) (set_pos (of_Z 0) (of_Z 0) m).

Lemma frozen_still m m' : frozen m = frozen m' -> still m = still m'.
Proof. intros H. change (still (frozen m) = still (frozen m')). now rewrite H. Qed.

Lemma pair_step_frozen tr i j ms :
  map frozen (pair_step tr i j ms) = map frozen ms.
Proof.
  unfold pair_step.
  destruct (nth_error ms i) as [m1|] eqn:H1; [|reflexivity].
  destruct (nth_error ms j) as [m2|] eqn:H2; [|reflexivity].
  destruct (mem (mid m2) tr); [reflexivity|].
  match goal with |- context [if ?b then _ else _] => destruct b end; [|reflexivity].
  eapply map_set_nth2; eauto.
Qed.

Lemma meeple_meeple_pass_frozen tr ms :
  map frozen (meeple_meeple_pass tr ms) = map frozen ms.
Proof.
  unfold meeple_meeple_pass.
  apply (fold_left_inv (fun acc => map frozen acc = map frozen ms)); [|reflexivity].
  intros acc i Hacc.
  destruct (nth_error acc i) as [m1|]; [|exact Hacc].
  destruct (mem (mid m1) tr); [exact Hacc|].
  apply (fold_left_inv (fun acc => map frozen acc = map frozen ms)); [|exact Hacc].
  intros acc' j Hacc'. now rewrite pair_step_frozen.
Qed.

Lemma obstacle_push_frozen dt obs m : frozen (obstacle_push dt obs m) = frozen m.
Proof.
  unfold obstacle_push. destruct (r_center (collision_rect obs)) as [cx cy].
  repeat match goal with
         | |- context [if ?b then _ else _] => destruct b
         end; reflexivity.
Qed.

Lemma pushed_through_frozen dt r obstacles m :
  frozen (pushed_through dt r obstacles m) = frozen m.
Proof.
  unfold pushed_through.
  apply (fold_left_inv (fun acc => frozen acc = frozen m)); [|reflexivity].
  intros acc o Hacc. unfold moved.
  destruct (_ && _); [now rewrite obstacle_push_frozen | exact Hacc].
Qed.

Lemma meeple_obstacle_pass_frozen dt obstacles ms :
  forall tr, map frozen (fst (meeple_obstacle_pass dt obstacles tr ms)) = map frozen ms.
Proof.
  induction ms as [|m rest IH]; intros tr; simpl; [reflexivity|].
  destruct (mem (mid m) tr).
  - specialize (IH tr).
    destruct (meeple_obstacle_pass dt obstacles tr rest) as [rest' tr']. simpl in *.
    now rewrite IH.
  - rewrite obstacle_visit_char.
    match goal with
    | |- context [meeple_obstacle_pass dt obstacles ?t rest] =>
        specialize (IH t); destruct (meeple_obstacle_pass dt obstacles t rest) as [rest' tr']
    end.
    simpl in *. now rewrite IH, pushed_through_frozen.
Qed.

(** The meeples after the pass are some of those before it, in their
    order, moved. *)
Lemma handle_collisions_frozen ms ps dt :
  exists ms2 tr,
    map frozen ms2 = map frozen ms /\
    fst (handle_collisions ms ps dt) = filter (fun m => negb (mem (mid m) tr)) ms2.
Proof.
  destruct (meeple_obstacle_pass dt ps [] (meeple_meeple_pass [] ms)) as [ms2 tr] eqn:Hp.
  exists ms2, tr. split.
  - pose proof (meeple_obstacle_pass_frozen dt ps (meeple_meeple_pass [] ms) []) as H.
    rewrite Hp in H. simpl in H. now rewrite H, meeple_meeple_pass_frozen.
  - now rewrite (handle_collisions_eq ms ps dt Hp).
Qed.

Lemma map_eq_In {A B} (f : A -> B) (l l' : list A) (a : A) :
  map f l = map f l' -> In a l -> exists b, In b l' /\ f b = f a.
Proof.
  intros E Ha. apply (in_map f) in Ha. rewrite E in Ha.
  apply in_map_iff in Ha. destruct Ha as (b & Hb & Hin). eauto.
Qed.

Lemma handle_collisions_Forall (P : Meeple F -> Prop) ms ps dt :
  (forall a b, frozen a = frozen b -> P a -> P b) ->
  Forall P ms -> Forall P (fst (handle_collisions ms ps dt)).
Proof.
  intros HP Hms. destruct (handle_collisions_frozen ms ps dt) as (ms2 & tr & Hf & ->).
  rewrite Forall_forall in *. intros m Hm. apply filter_In in Hm. destruct Hm as [Hm _].
  destruct (map_eq_In frozen _ _ m Hf Hm) as (b & Hb & E).
  apply (HP b m E). now apply Hms.
Qed.

(** [isinstance(obs, Hole)] *)
Definition is_Hole (p : Placeable F) : bool :=
  match payload p with Hole _ => true | _ => false end.

Lemma consumed_no_hole dt r obstacles m :
  Forall (fun p => is_Hole p = false) obstacles -> consumed dt r obstacles m = false.
Proof.
  intros H. revert m. induction H as [|o rest Ho Hrest IH]; intros m; simpl; [reflexivity|].
  rewrite IH, orb_false_r. unfold hole_test. unfold is_Hole in Ho.
  destruct (payload o); (discriminate || reflexivity).
Qed.

Lemma is_Hole_purge tr p : is_Hole (purge tr p) = is_Hole p.
Proof. destruct p as [? ? ? ? ? []]; reflexivity. Qed.

(** With no hole among the obstacles the pass removes nobody. *)
Lemma handle_collisions_no_hole ms ps dt :
  Forall (fun p => is_Hole p = false) ps ->
  map frozen (fst (handle_collisions ms ps dt)) = map frozen ms /\
  snd (handle_collisions ms ps dt) = ps.
Proof.
  intros Hno.
  destruct (meeple_obstacle_pass dt ps [] (meeple_meeple_pass [] ms)) as [ms2 tr] eqn:Hp.
  destruct (meeple_obstacle_pass_char _ _ _ _ Hp) as [_ Htr].
  assert (Enil : tr = []).
  { destruct tr as [|a tr]; [reflexivity|]. exfalso.
    destruct (proj1 (Htr a) (or_introl eq_refl)) as [[]|(m & _ & _ & Hc)].
    rewrite consumed_no_hole in Hc by exact Hno. discriminate. }
  subst tr. rewrite (handle_collisions_eq ms ps dt Hp). simpl. rewrite filter_all.
  split; [|reflexivity].
  pose proof (meeple_obstacle_pass_frozen dt ps (meeple_meeple_pass [] ms) []) as H.
  rewrite Hp in H. simpl in H. now rewrite H, meeple_meeple_pass_frozen.
Qed.

Lemma handle_collisions_length ms ps dt :
  length (fst (handle_collisions ms ps dt)) <= length ms.
Proof.
  destruct (handle_collisions_frozen ms ps dt) as (ms2 & tr & Hf & ->).
  rewrite <- (length_map frozen ms), <- Hf, length_map. apply filter_length_le.
Qed.

(** X4.  The collision pass only moves meeples.  Each meeple it returns is one
    it was given, with the same attributes but position and velocity
    ([angle] included, which the pushes do not realign), and it returns no
    more meeples than it was given.  If no obstacle is a [Hole], it returns
    every meeple, in the same order, and the obstacles as they were; a single
    meeple with no obstacle is returned as it is. *)
Theorem collisions_only_move ms ps dt :
  (forall m', In m' (fst (handle_collisions ms ps dt)) ->
     exists m, In m ms /\ frozen m' = frozen m) /\
  (length (fst (handle_collisions ms ps dt)) <= length ms) /\
  (Forall (fun p => is_Hole p = false) ps ->
     map frozen (fst (handle_collisions ms ps dt)) = map frozen ms /\
     snd (handle_collisions ms ps dt) = ps) /\
  (forall m, handle_collisions [m] [] dt = ([m], [])).
Proof.
  split; [|split; [|split]].
  - destruct (handle_collisions_frozen ms ps dt) as (ms2 & tr & Hf & ->).
    intros m' Hm'. apply filter_In in Hm'. destruct Hm' as [Hm' _].
    destruct (map_eq_In frozen _ _ m' Hf Hm') as (b & Hb & E). eauto.
  - apply handle_collisions_length.
  - apply handle_collisions_no_hole.
  - intros m. unfold handle_collisions. rewrite meeple_obstacle_pass_nil. reflexivity.
Qed.

End Frozen.

(* ================================================================== *)
(** * Further properties: the state of a meeple *)

Section StateMachine.

Context {F : Type} {NF : PyFloat F} {TF : PyTrig F}.
Implicit Types (w : World F) (m : Meeple F) (ms : list (Meeple F)).
Implicit Types (p : Placeable F) (ps : list (Placeable F)).

(** The squared distance test of the state logic. *)
Definition is_near (hr : Rect) (m : Meeple F) : bool :=
  fltb (fadd (sq (fsub (x m) (of_Z (r_centerx hr)))) (sq (fsub (y m) (of_Z (r_centery hr)))))
       (of_Z (HOME_PROXIMITY_THRESHOLD ^ 2)).

Lemma update_state_cases ps u d m :
  let m' := update_state ps u d m in
  (home_rect ps m = None -> m' = m) /\
  (forall hr, home_rect ps m = Some hr ->
     (state m = wandering -> d = true -> m' = m) /\
     (state m = at_home ->
        state m' = (if d then wandering else at_home) /\
        target_pos m' = (if d then None else target_pos m)) /\
     (state m = going_home ->
        state m' = (if is_near hr m then at_home else going_home) /\
        target_pos m' = (if is_near hr m then None else target_pos m))).
Proof.
  intros m'. unfold m', update_state. split.
  - intros ->. reflexivity.
  - intros hr ->. fold (is_near hr m).
    destruct (get_random_spot_nearby hr _ _) as [nx ny].
    split; [|split]; intros Hs; rewrite ?Hs.
    + intros ->. cbn. rewrite Hs. reflexivity.
    + destruct d; cbn; rewrite ?Hs; cbn; auto.
    + destruct d; cbn; rewrite ?Hs; cbn; destruct (is_near hr m); cbn; auto.
Qed.

(** X5.  The states of a meeple through [update], for the cases beside the
    nightfall of a wandering meeple.  A meeple with no home keeps its state
    and target.  A meeple [at_home] starts [wandering] on the first update by
    day and stays [at_home] by night.  A meeple [going_home] is not called
    back by daybreak: by day as by night it stays [going_home] with its
    target until it is near its hut, and then is [at_home]. *)
Theorem state_transitions ps (speed : F) u (dt : F) (d : bool) m :
  let m' := update ps speed u dt d m in
  (home_rect ps m = None -> state m' = state m /\ target_pos m' = target_pos m) /\
  (forall hr, home_rect ps m = Some hr ->
     (state m = at_home ->
        state m' = (if d then wandering else at_home) /\
        target_pos m' = (if d then None else target_pos m)) /\
     (state m = going_home ->
        state m' = (if is_near hr m then at_home else going_home) /\
        target_pos m' = (if is_near hr m then None else target_pos m))).
Proof.
  intros m'. unfold m'.
  destruct (update_state_target ps speed u dt d m) as [-> ->].
  destruct (update_state_cases ps u d m) as [H1 H2]. split.
  - intros Hn. now rewrite (H1 Hn).
  - intros hr Hh. destruct (H2 hr Hh) as (_ & Ha & Hg). auto.
Qed.

(** State, target and home fit together. *)
Definition coherent ps m : Prop :=
  match state m with
  | wandering => target_pos m = None
  | going_home =>
      exists hr, home_rect ps m = Some hr /\ target_pos m = Some (r_center hr)
  | at_home => home m <> None /\ target_pos m = None
  end.

Lemma coherent_ext ps a b :
  home a = home b -> state a = state b -> target_pos a = target_pos b ->
  coherent ps a -> coherent ps b.
Proof.
  unfold coherent, home_rect. intros -> -> ->. auto.
Qed.

Lemma coherent_still ps a b : still a = still b -> coherent ps a -> coherent ps b.
Proof.
  unfold still. intros E. apply coherent_ext; congruence.
Qed.

Lemma home_rect_Some ps m hr : home_rect ps m = Some hr -> home m <> None.
Proof. unfold home_rect. destruct (home m); [discriminate | discriminate]. Qed.

Lemma update_state_coherent ps u d m :
  coherent ps m -> coherent ps (update_state ps u d m).
Proof.
  intros Hc. destruct (update_state_cases ps u d m) as [H1 H2].
  destruct (home_rect ps m) as [hr|] eqn:Hh; [|now rewrite H1].
  destruct (H2 hr eq_refl) as (Hw & Ha & Hg).
  assert (Hhome : home (update_state ps u d m) = home m)
    by apply update_state_keeps.
  assert (Hrect : home_rect ps (update_state ps u d m) = Some hr)
    by (unfold home_rect in *; now rewrite Hhome).
  pose proof (home_rect_Some _ _ Hh) as Hne.
  destruct (state m) eqn:Hs.
  - destruct d; [now rewrite Hw|].
    destruct (update_state_wandering ps u false m Hh Hs) as (_ & Hfar & Hnear).
    fold (is_near hr m) in Hfar, Hnear. unfold coherent.
    destruct (is_near hr m).
    + destruct (Hnear eq_refl eq_refl) as [-> ->]. rewrite Hhome. auto.
    + destruct (Hfar eq_refl eq_refl) as [-> ->]. eauto.
  - destruct (Hg eq_refl) as [E1 E2]. unfold coherent. rewrite E1, E2.
    destruct (is_near hr m); [rewrite Hhome; auto|].
    unfold coherent in Hc. rewrite Hs in Hc. destruct Hc as (hr' & Hh' & Ht).
    rewrite Hh in Hh'. injection Hh' as <-. eauto.
  - destruct (Ha eq_refl) as [E1 E2]. unfold coherent. rewrite E1, E2.
    unfold coherent in Hc. rewrite Hs in Hc. destruct Hc as [_ Ht].
    destruct d; [reflexivity|]. rewrite Hhome. auto.
Qed.

Lemma update_one_coherent inp dt w i m :
  coherent (placeables w) m -> coherent (placeables w) (update_one inp dt w i m).
Proof.
  intros Hc. unfold update_one.
  match goal with
  | |- context [update ?ps ?s ?u ?dt0 ?d ?m0] =>
      destruct (update_state_target ps s u dt0 d m0) as [Es Et];
      destruct (update_keeps ps s u dt0 d m0) as (_ & Eh & _);
      destruct (update_state_keeps ps u d m0) as (_ & Eh' & _);
      apply (@coherent_ext ps (update_state ps u d m0) _);
        [congruence | congruence | congruence |];
      apply update_state_coherent
  end.
  match goal with
  | |- context [fold_left ?f ?es ?m1] =>
      destruct (apply_effects_keeps es m1) as (_ & E1 & _ & E2 & E3 & _)
  end.
  eapply coherent_ext; [| | |exact Hc]; cbn in *; congruence.
Qed.

(** [set_home None]: a meeple without its home. *)
Definition but_home m : Meeple F := set_home None m.

Lemma map_update_meeple {B} (g : Meeple F -> B) id f ms :
  (forall m, g (f m) = g m) -> map g (update_meeple id f ms) = map g ms.
Proof.
  intros Hf. induction ms as [|a t IH]; simpl; auto.
  destruct (Nat.eqb (mid a) id); simpl; [now rewrite Hf | now rewrite IH].
Qed.

Lemma assign_home_but_home a h ms ps :
  map but_home (fst (fst (assign_home a h ms ps))) = map but_home ms.
Proof.
  unfold assign_home. destruct (find_placeable h ps); [|reflexivity].
  destruct (_ && _); [|reflexivity]. simpl.
  apply map_update_meeple. reflexivity.
Qed.

Lemma assign_loop_but_home h cap l n ms ps :
  map but_home (fst (fst (assign_loop h cap l n ms ps))) = map but_home ms.
Proof.
  revert n ms ps. induction l as [|a l IH]; intros n ms ps; simpl; [reflexivity|].
  pose proof (assign_home_but_home a h ms ps) as H.
  destruct (assign_home a h ms ps) as [[ms1 ps1] ok]. simpl in H.
  destruct ok; [destruct (cap <=? S n)|]; simpl; rewrite ?IH; exact H.
Qed.

(** A placement leaves every meeple as it is, its home apart. *)
Lemma place_but_home k px py rb w :
  map but_home (meeples (place k px py rb w)) = map but_home (meeples w).
Proof.
  unfold place. destruct (can_place _ _); [|reflexivity].
  destruct (is_Hut _); [|reflexivity].
  unfold assign_residents.
  match goal with
  | |- context [assign_loop ?h ?c ?l ?n ?ms ?ps] =>
      pose proof (assign_loop_but_home h c l n ms ps) as H;
      destruct (assign_loop h c l n ms ps) as [[ms' ps'] cnt]
  end.
  exact H.
Qed.

Lemma find_placeable_app h ps l p :
  find_placeable h ps = Some p -> find_placeable h (ps ++ l) = Some p.
Proof.
  unfold find_placeable. induction ps as [|q t IH]; simpl; [discriminate|].
  destruct (Nat.eqb (pid q) h); auto.
Qed.

Lemma home_rect_app ps l m hr :
  home_rect ps m = Some hr -> home_rect (ps ++ l) m = Some hr.
Proof.
  unfold home_rect. destruct (home m) as [h|]; [|discriminate].
  destruct (find_placeable h ps) as [p|] eqn:Hf; [|discriminate].
  now rewrite (find_placeable_app _ _ l Hf).
Qed.

Lemma home_rect_purge tr ps m :
  home_rect (map (purge tr) ps) m = home_rect ps m.
Proof.
  unfold home_rect. destruct (home m) as [h|]; [|reflexivity].
  rewrite find_placeable_map by apply pid_purge.
  destruct (find_placeable h ps) as [p|]; [|reflexivity]. simpl.
  destruct p as [? ? ? ? ? []]; reflexivity.
Qed.

Lemma coherent_app ps l m : coherent ps m -> coherent (ps ++ l) m.
Proof.
  unfold coherent. destruct (state m); auto.
  intros (hr & Hh & Ht). exists hr. split; [now apply home_rect_app | exact Ht].
Qed.

Lemma coherent_purge tr ps m : coherent ps m -> coherent (map (purge tr) ps) m.
Proof.
  unfold coherent. rewrite home_rect_purge. auto.
Qed.

Lemma coherent_homeless ps m : coherent ps m -> home m = None -> state m = wandering.
Proof.
  unfold coherent, home_rect. intros Hc Hh. rewrite Hh in Hc.
  destruct (state m); [reflexivity | |].
  - destruct Hc as (hr & [=] & _).
  - destruct Hc as [Hc _]. contradiction.
Qed.

Definition coherent_world w : Prop :=
  wf w /\ Forall (coherent (placeables w)) (meeples w).

Lemma place_coherent k px py rb w : coherent_world w -> coherent_world (place k px py rb w).
Proof.
  intros [Hw Hc]. split; [now apply place_wf|].
  destruct (can_place (new_Placeable k (next_pid w) px py) (placeables w)) eqn:Hcan;
    [|rewrite place_rejected by exact Hcan; exact Hc].
  destruct (place_char k px py rb Hw Hcan) as (Esk & _ & Eps & _).
  pose proof (place_but_home k px py rb w) as Eb.
  rewrite Eps. rewrite Forall_forall in *. intros m' Hm'.
  destruct (map_eq_In but_home _ _ m' Eb Hm') as (m & Hm & E).
  assert (Es : state m = state m') by exact (f_equal (@state F) E).
  assert (Et : target_pos m = target_pos m') by exact (f_equal (@target_pos F) E).
  assert (Ei : mid m = mid m') by exact (f_equal (@mid F) E).
  specialize (Hc m Hm).
  assert (Hin' : In (mid m', home m') (skel (meeples (place k px py rb w))))
    by (apply skel_In; eauto).
  assert (Hin : In (mid m', home m) (skel (meeples w)))
    by (apply skel_In; eauto).
  rewrite Esk in Hin'. apply In_house in Hin'.
  destruct Hw as (Hwf & _).
  destruct Hin' as [(Hmem & Eh & _)|(_ & Hin2)].
  - apply mem_In in Hmem. unfold chosen_residents in Hmem.
    destruct (is_Hut _); [|contradiction].
    destruct (chosen_ok rb (meeples w)
                (max_residents_of (new_Placeable k (next_pid w) px py))) as (_ & Hch & _).
    { rewrite <- map_fst_skel. eapply wf_mids; eauto. }
    specialize (Hch _ Hmem).
    pose proof (@wf_skel_home_unique _ _ _ _ _ _ Hwf Hin Hch) as Hnone.
    pose proof (coherent_homeless _ _ Hc Hnone) as Hwander.
    unfold coherent in Hc |- *. rewrite <- Es, <- Et. rewrite Hwander in *. exact Hc.
  - pose proof (@wf_skel_home_unique _ _ _ _ _ _ Hwf Hin Hin2) as Eh.
    eapply coherent_ext; [exact Eh | exact Es | exact Et | apply coherent_app; exact Hc].
Qed.

Lemma handle_event_coherent e w : coherent_world w -> coherent_world (handle_event e w).
Proof.
  intros [Hw Hc]. destruct e as [|k|px py d|]; cbn; try (split; assumption).
  destruct (SIMULATION_WIDTH <=? px)%Z; [split; assumption|].
  destruct (selected_tool w) as [t|]; [|split; assumption].
  destruct t; cbn; try (now apply place_coherent); try (split; assumption).
  - destruct (negb (is_raining w)); split; assumption.
  - split; [now apply add_meeple_wf|].
    unfold add_meeple. destruct (negb _); [|exact Hc]. cbn.
    apply Forall_app. split; [exact Hc|]. repeat constructor.
Qed.

Lemma frame_coherent (inp : FrameInput F) w : coherent_world w -> coherent_world (frame inp w).
Proof.
  apply (frame_keeps coherent_world).
  - intros dt w0 H. exact H.
  - apply handle_event_coherent.
  - intros inp0 w0 H. exact H.
  - intros inp0 dt w0 [Hw Hc]. split.
    + unfold wf in *. rewrite update_meeples_skel.
      destruct (update_meeples_rest inp0 dt w0) as (-> & -> & -> & _). exact Hw.
    + destruct (update_meeples_rest inp0 dt w0) as (-> & _).
      unfold update_meeples. cbn [meeples set_meeples].
      rewrite Forall_forall in *. intros m' Hm'. apply in_map_iff in Hm'.
      destruct Hm' as ([i m] & <- & Hin). apply in_combine_r in Hin.
      apply update_one_coherent. now apply Hc.
  - intros dt w0 [Hw Hc]. split.
    + exact (@handle_collisions_wf F NF (meeples w0) (placeables w0) dt _ _ Hw).
    + cbn [meeples placeables set_meeples set_placeables].
      destruct Hw as (Hwf & _).
      destruct (handle_collisions_char dt Hwf) as (ms2 & tr & _ & _ & E).
      assert (Eps : snd (handle_collisions (meeples w0) (placeables w0) dt)
                    = map (purge tr) (placeables w0)) by (now rewrite E).
      rewrite Eps.
      apply handle_collisions_Forall.
      * intros a b Hab. apply coherent_still. now apply frozen_still.
      * eapply Forall_impl; [|exact Hc]. intros m. apply coherent_purge.
Qed.

(** X6.  State, target and home of a meeple fit together in every state the
    game loop reaches: a [wandering] meeple has no target; a meeple
    [going_home] has a home and its target is the centre of that hut's base
    rectangle; a meeple [at_home] has a home and no target; so a meeple
    without a home is [wandering]. *)
Theorem meeple_state_invariant (w : World F) (Hr : reachable w) :
  forall m, In m (meeples w) ->
  (state m = wandering -> target_pos m = None) /\
  (state m = going_home ->
     exists hr, home_rect (placeables w) m = Some hr /\
                target_pos m = Some (r_center hr)) /\
  (state m = at_home -> home m <> None /\ target_pos m = None) /\
  (home m = None -> state m = wandering).
Proof.
  assert (H : coherent_world w).
  { induction Hr as [spawn | inp w Hr IH]; [|now apply frame_coherent].
    split; [apply initial_world_wf|].
    apply Forall_forall. intros m Hm. unfold initial_world, initial_meeples in Hm.
    cbn [meeples] in Hm. apply in_map_iff in Hm. destruct Hm as (i & <- & _).
    destruct (spawn i) as [[ua ur] u]. reflexivity. }
  destruct H as [_ Hc]. rewrite Forall_forall in Hc.
  intros m Hm. specialize (Hc m Hm).
  split; [|split; [|split]].
  - intros Hs. unfold coherent in Hc. now rewrite Hs in Hc.
  - intros Hs. unfold coherent in Hc. now rewrite Hs in Hc.
  - intros Hs. unfold coherent in Hc. now rewrite Hs in Hc.
  - now apply (coherent_homeless (placeables w)).
Qed.

End StateMachine.

(* ================================================================== *)
(** * Further properties: forces, effects, the clock *)

Section FramePhases.

Context {F : Type} {NF : PyFloat F} {TF : PyTrig F}.
Implicit Types (w : World F) (m : Meeple F) (ms : list (Meeple F)).
Local Open Scope py_scope.

(** The world the collision pass of a frame starts from. *)
Definition before_collisions (inp : FrameInput F) w : World F :=
  update_meeples inp (frame_dt inp)
    (update_effects inp (handle_events (events inp) (advance_clock (frame_dt inp) w))).

Lemma frame_eq inp w :
  frame inp w =
  let w4 := before_collisions inp w in
  let hc := handle_collisions (meeples w4) (placeables w4) (frame_dt inp) in
  set_placeables (snd hc) (set_meeples (fst hc) w4).
Proof.
  unfold frame, before_collisions. cbv zeta.
  destruct (handle_collisions _ _ _) as [ms ps]. reflexivity.
Qed.

Lemma update_boundary_force m :
  force_x (update_boundary m) = force_x m /\ force_y (update_boundary m) = force_y m.
Proof.
  unfold update_boundary.
  repeat match goal with
         | |- context [if ?b then _ else _] => destruct b
         end; cbn; auto.
Qed.

Lemma update_force ps (speed : F) u (dt : F) d m :
  force_x (update ps speed u dt d m) = lit 0 1 /\
  force_y (update ps speed u dt d m) = lit 0 1.
Proof.
  unfold update.
  destruct (update_boundary_force (update_movement speed u dt (update_state ps u d m)))
    as [-> ->].
  unfold update_movement. cbn. auto.
Qed.

(** X7.  Forces do not accumulate: whatever the world before, after a frame
    every meeple has [force_x = force_y = 0.0]; the force a hurricane applies
    is spent by the [update] of the same frame. *)
Theorem forces_are_spent (inp : FrameInput F) (w : World F) :
  Forall (fun m => force_x m = lit 0 1 /\ force_y m = lit 0 1) (meeples (frame inp w)).
Proof.
  rewrite frame_eq. cbv zeta. cbn [meeples set_meeples set_placeables].
  apply handle_collisions_Forall.
  - intros a b E [Hx Hy].
    pose proof (f_equal (@force_x F) E) as Ex. pose proof (f_equal (@force_y F) E) as Ey.
    cbn in Ex, Ey. split; congruence.
  - unfold before_collisions, update_meeples. cbn [meeples set_meeples].
    apply Forall_forall. intros m Hm. apply in_map_iff in Hm.
    destruct Hm as ([i m0] & <- & _). unfold update_one. apply update_force.
Qed.

Lemma place_effects k px py rb w :
  active_effects (place k px py rb w) = active_effects w /\
  cycle_timer (place k px py rb w) = cycle_timer w /\
  selected_tool (place k px py rb w) = selected_tool w /\
  running (place k px py rb w) = running w.
Proof.
  unfold place. destruct (can_place _ _); [|auto].
  destruct (is_Hut _); [|cbn; auto].
  destruct (assign_residents _ _ _ _) as [[ms' ps'] cnt]. cbn. auto.
Qed.

Lemma add_meeple_effects px py u w :
  active_effects (add_meeple px py u w) = active_effects w /\
  cycle_timer (add_meeple px py u w) = cycle_timer w /\
  selected_tool (add_meeple px py u w) = selected_tool w /\
  running (add_meeple px py u w) = running w.
Proof. unfold add_meeple. destruct (negb _); cbn; auto. Qed.

Lemma filter_active_length (t : nat -> F) (es : list (Hurricane F)) :
  length (filter_active t es) <= length es.
Proof.
  unfold filter_active. rewrite length_map.
  etransitivity; [apply filter_length_le|].
  rewrite length_combine, length_seq. lia.
Qed.

Lemma handle_event_one_effect e w :
  length (active_effects w) <= 1 -> length (active_effects (handle_event e w)) <= 1.
Proof.
  intros H. destruct e as [|k|px py d|]; cbn; auto.
  destruct (SIMULATION_WIDTH <=? px)%Z; [exact H|].
  destruct (selected_tool w) as [t|]; [|exact H].
  destruct t; cbn; auto;
    try (destruct (place_effects K_Hole px py (c_randbelow d) w) as (-> & _); exact H);
    try (destruct (place_effects K_Hut px py (c_randbelow d) w) as (-> & _); exact H);
    try (destruct (place_effects K_Farm px py (c_randbelow d) w) as (-> & _); exact H);
    try (destruct (place_effects K_Factory px py (c_randbelow d) w) as (-> & _); exact H);
    try (destruct (place_effects K_Tree px py (c_randbelow d) w) as (-> & _); exact H).
  - destruct (negb (is_raining w)); exact H.
  - destruct (add_meeple_effects px py (c_angle d) w) as (-> & _); exact H.
Qed.

(** X8.  At most one hurricane blows at a time: in every state the game loop
    reaches [active_effects] holds at most one effect.  A click with the
    hurricane tool replaces what was there by a hurricane at the click, and
    the effect update of the same frame keeps it exactly when the clock it
    reads is before the time of the click plus [HURRICANE_DURATION]. *)
Theorem one_hurricane_at_a_time (w : World F) (Hr : reachable w) :
  length (active_effects w) <= 1 /\
  (forall px py d inp,
     active_effects (update_effects inp (use_tool T_hurricane px py d w)) =
       if t_effect inp 0 <? c_time d + of_Z HURRICANE_DURATION
       then [Hurricane_init px py (c_time d)] else []).
Proof.
  split.
  2:{ intros px py d inp. unfold update_effects, use_tool, filter_active.
      cbn [active_effects set_active_effects set_rain length seq combine filter fst snd].
      unfold is_active, Hurricane_init at 1. cbn [h_end_time].
      destruct (_ <? _); reflexivity. }
  apply (reachable_keeps (fun w => length (active_effects w) <= 1)); auto.
  - apply handle_event_one_effect.
  - intros inp w0 H. unfold update_effects. cbn.
    etransitivity; [apply filter_active_length | exact H].
Qed.

Lemma handle_event_clock e w :
  cycle_timer (handle_event e w) = cycle_timer w.
Proof.
  destruct e as [|k|px py d|]; cbn; auto.
  destruct (SIMULATION_WIDTH <=? px)%Z; [reflexivity|].
  destruct (selected_tool w) as [t|]; [|reflexivity].
  destruct t; cbn; try apply place_effects; try apply add_meeple_effects; auto.
  destruct (negb (is_raining w)); reflexivity.
Qed.

Lemma frame_clock inp w :
  cycle_timer (frame inp w) = cycle_timer (advance_clock (frame_dt inp) w) /\
  is_daytime (frame inp w) = is_daytime (advance_clock (frame_dt inp) w).
Proof.
  rewrite frame_eq. cbv zeta. unfold before_collisions, update_meeples, update_effects.
  cbn [cycle_timer is_daytime set_placeables set_meeples set_active_effects set_rain].
  rewrite handle_events_daytime. split; [|reflexivity].
  unfold handle_events.
  apply (fold_left_inv
           (fun acc => cycle_timer acc = cycle_timer (advance_clock (frame_dt inp) w)));
    [|reflexivity].
  intros acc e Hacc. now rewrite handle_event_clock.
Qed.

(** X9.  The clock through a frame.  Only the clock advance touches it: after
    the frame [cycle_timer] is the old value plus [dt] times the speed
    multiplier as it was when the frame began, modulo the full cycle (a speed
    key pressed during the frame acts on the clock from the next frame on),
    and [is_daytime] tells whether the new [cycle_timer] is below
    [DAY_DURATION_SECONDS]. *)
Theorem clock_after_frame (inp : FrameInput F) (w : World F) :
  cycle_timer (frame inp w) =
    fmod (cycle_timer w + frame_dt inp * simulation_speed_multiplier w)
         (of_Z FULL_CYCLE_SECONDS) /\
  is_daytime (frame inp w) = (cycle_timer (frame inp w) <? of_Z DAY_DURATION_SECONDS).
Proof.
  destruct (frame_clock inp w) as [-> ->]. split; reflexivity.
Qed.

End FramePhases.

(* ================================================================== *)
(** * Further properties: the toolbar and the tools *)

Definition toggle (t : Tool) (sel : option Tool) : option Tool :=
  match sel with
  | Some t' => if Tool_eqb t' t then None else Some t
  | None => Some t
  end.

(** The click is on the icon whose top edge is at [icon_y]. *)
Definition on_icon (icon_y mouse_x mouse_y : Z) : Prop :=
  (SIMULATION_WIDTH + ICON_PADDING <= mouse_x < SIMULATION_WIDTH + ICON_PADDING + ICON_SIZE /\
   icon_y <= mouse_y < icon_y + ICON_SIZE)%Z.

Lemma collidepoint_icon (icon_y mx my : Z) :
  collidepoint (mkRect (SIMULATION_WIDTH + ICON_PADDING) icon_y ICON_SIZE ICON_SIZE) mx my = true
  <-> on_icon icon_y mx my.
Proof.
  unfold collidepoint, on_icon, r_right, r_bottom. cbn [r_left r_top r_width r_height].
  rewrite !andb_true_iff, !Z.leb_le, !Z.ltb_lt. lia.
Qed.

Lemma toolbar_click_spec (tools : list Tool) (y0 mx my : Z) (sel : option Tool) :
  (forall i t, nth_error tools i = Some t ->
     on_icon (y0 + (ICON_SIZE + ICON_PADDING) * Z.of_nat i) mx my ->
     toolbar_click tools y0 mx my sel = toggle t sel) /\
  ((forall i, i < length tools ->
      ~ on_icon (y0 + (ICON_SIZE + ICON_PADDING) * Z.of_nat i) mx my) ->
   toolbar_click tools y0 mx my sel = sel).
Proof.
  revert y0. induction tools as [|t0 rest IH]; intros y0.
  - split; [intros [|i] t; discriminate | reflexivity].
  - destruct (IH (y0 + (ICON_SIZE + ICON_PADDING))%Z) as [IH1 IH2].
    cbn [toolbar_click].
    destruct (collidepoint _ mx my) eqn:Hc.
    + apply collidepoint_icon in Hc. split.
      * intros [|i] t Hi Hon; simpl in Hi.
        -- injection Hi as <-. reflexivity.
        -- exfalso. unfold on_icon, ICON_SIZE, ICON_PADDING in *. lia.
      * intros Hnone. exfalso. apply (Hnone 0); [simpl; lia|].
        now rewrite Z.mul_0_r, Z.add_0_r.
    + assert (Hoff : ~ on_icon y0 mx my)
        by (intros Hon; apply collidepoint_icon in Hon; congruence).
      split.
      * intros [|i] t Hi Hon; simpl in Hi.
        -- exfalso. apply Hoff. now rewrite Z.mul_0_r, Z.add_0_r in Hon.
        -- apply (IH1 i t Hi).
           replace (y0 + (ICON_SIZE + ICON_PADDING) +
                    (ICON_SIZE + ICON_PADDING) * Z.of_nat i)%Z
             with (y0 + (ICON_SIZE + ICON_PADDING) * Z.of_nat (S i))%Z by lia.
           exact Hon.
      * intros Hnone. apply IH2. intros i Hi Hon. apply (Hnone (S i)); [simpl; lia|].
        replace (y0 + (ICON_SIZE + ICON_PADDING) * Z.of_nat (S i))%Z
          with (y0 + (ICON_SIZE + ICON_PADDING) +
                (ICON_SIZE + ICON_PADDING) * Z.of_nat i)%Z by lia.
        exact Hon.
Qed.

Section Tools.

Context {F : Type} {NF : PyFloat F} {TF : PyTrig F}.
Implicit Types (w : World F) (m : Meeple F) (p : Placeable F).

Lemma set_selected_tool_same w : set_selected_tool (selected_tool w) w = w.
Proof. destruct w; reflexivity. Qed.

(** X10.  A click in the toolbar strip ([mouse_x >= SIMULATION_WIDTH]) changes at
    most [selected_tool].  The icon of the [i]-th tool of [TOOLS] covers
    [808 <= x < 858], [8 + 58 i <= y < 58 + 58 i]; a click on it selects
    that tool, or deselects it if it was the selected one; a click beside
    the icons (the padding, or below the last icon) changes nothing.  In the
    simulation area a click with no tool selected changes nothing. *)
Theorem toolbar_hit_test (mouse_x mouse_y : Z) (d : ClickDraws F) (w : World F) :
  let w' := handle_event (MOUSEBUTTONDOWN mouse_x mouse_y d) w in
  ((SIMULATION_WIDTH <= mouse_x)%Z ->
     w' = set_selected_tool (selected_tool w') w /\
     (forall i t, nth_error TOOLS i = Some t ->
        (808 <= mouse_x < 858 /\
         8 + 58 * Z.of_nat i <= mouse_y < 58 + 58 * Z.of_nat i)%Z ->
        selected_tool w' = toggle t (selected_tool w)) /\
     ((forall i, i < 8 ->
         ~ (808 <= mouse_x < 858 /\
            8 + 58 * Z.of_nat i <= mouse_y < 58 + 58 * Z.of_nat i)%Z) ->
      w' = w)) /\
  ((mouse_x < SIMULATION_WIDTH)%Z -> selected_tool w = None -> w' = w).
Proof.
  intros w'. unfold w'. cbn [handle_event]. split.
  - intros Hx. apply Z.leb_le in Hx. rewrite Hx.
    cbn [selected_tool set_selected_tool].
    destruct (toolbar_click_spec TOOLS ICON_PADDING mouse_x mouse_y (selected_tool w))
      as [H1 H2].
    split; [reflexivity|]. split.
    + intros i t Hi Hon. apply (H1 i t Hi).
      unfold on_icon, SIMULATION_WIDTH, ICON_PADDING, ICON_SIZE. lia.
    + intros Hnone. rewrite H2; [apply set_selected_tool_same|].
      intros i Hi Hon. apply (Hnone i Hi).
      unfold on_icon, SIMULATION_WIDTH, ICON_PADDING, ICON_SIZE in Hon. lia.
  - intros Hx Hsel.
    destruct (Z.leb_spec SIMULATION_WIDTH mouse_x) as [Hge|_]; [lia|].
    now rewrite Hsel.
Qed.

(** The click point against a rectangle of positive size: the 2 x 2
    rectangle around the point meets it exactly when the point is in the
    closed rectangle. *)
Lemma colliderect_point (r : Rect) (mx my : Z) :
  positive_rect r ->
  (colliderect r (mkRect (mx - 1) (my - 1) 2 2) = true <->
   (r_left r <= mx <= r_right r /\ r_top r <= my <= r_bottom r)%Z).
Proof.
  intros [Hw Hh]. unfold colliderect, r_right, r_bottom.
  cbn [r_left r_top r_width r_height].
  destruct (Z.eqb_spec (r_width r) 0) as [E|_]; [lia|].
  destruct (Z.eqb_spec (r_height r) 0) as [E|_]; [lia|].
  cbn [orb Z.eqb]. rewrite !andb_true_iff, !Z.ltb_lt. lia.
Qed.

(** X11.  The tool "add_meeple".  In a state the game loop reaches, the click
    is refused, and nothing changes, exactly when the point lies in the
    closed collision rectangle of some placed object (border included);
    otherwise a new meeple is appended at the point: no home, [wandering],
    no target, at rest. *)
Theorem add_meeple_rule (w : World F) (Hr : reachable w) (mouse_x mouse_y : Z) (u : F) :
  let blocked :=
    exists p, In p (placeables w) /\
      (r_left (collision_rect p) <= mouse_x <= r_right (collision_rect p) /\
       r_top (collision_rect p) <= mouse_y <= r_bottom (collision_rect p))%Z in
  (blocked -> add_meeple mouse_x mouse_y u w = w) /\
  (~ blocked ->
     add_meeple mouse_x mouse_y u w =
       set_next_mid (S (next_mid w))
         (set_meeples
            (meeples w ++ [Meeple_init (next_mid w) (of_Z mouse_x) (of_Z mouse_y)
                             SIMULATION_WIDTH SCREEN_HEIGHT u]) w)).
Proof.
  intros blocked.
  destruct (reachable_layout Hr) as [Hpos _]. rewrite Forall_forall in Hpos.
  assert (Hp : forall p, In p (placeables w) -> positive_rect (collision_rect p))
    by (intros p Hin; apply Hpos; now apply in_map).
  assert (Hex : existsb (fun obs => rect_bool (collision_rect obs) &&
                    colliderect (collision_rect obs)
                      (mkRect (mouse_x - 1) (mouse_y - 1) 2 2)) (placeables w) = true
                <-> blocked).
  { rewrite existsb_exists. unfold blocked. split.
    - intros (p & Hin & Hc). apply andb_true_iff in Hc. destruct Hc as [_ Hc].
      exists p. split; [exact Hin|]. now apply (colliderect_point _ _ (Hp p Hin)).
    - intros (p & Hin & Hc). exists p. split; [exact Hin|].
      apply andb_true_iff. split; [|now apply (colliderect_point _ _ (Hp p Hin))].
      destruct (Hp p Hin) as [Hw Hh]. unfold rect_bool.
      apply andb_true_intro. split; apply negb_true_iff, Z.eqb_neq; lia. }
  unfold add_meeple. destruct (existsb _ _).
  - split; [reflexivity|]. intros Hn. exfalso. apply Hn, Hex. reflexivity.
  - split; [|reflexivity]. intros Hb. apply Hex in Hb. discriminate.
Qed.

End Tools.

Section AssignHome.

Context {F : Type} {NF : PyFloat F}.
Implicit Types (m : Meeple F) (ms : list (Meeple F)).
Implicit Types (p : Placeable F) (ps : list (Placeable F)).

Lemma find_update_meeple a f ms m :
  (forall m0, mid (f m0) = mid m0) ->
  find_meeple a ms = Some m -> find_meeple a (update_meeple a f ms) = Some (f m).
Proof.
  intros Hf. unfold find_meeple. induction ms as [|m0 l IH]; simpl; [discriminate|].
  destruct (Nat.eqb (mid m0) a) eqn:E; simpl.
  - intros [= ->]. now rewrite Hf, E.
  - intros H. rewrite E. now apply IH.
Qed.

Lemma find_update_placeable_other h h1 f ps :
  (forall p, pid (f p) = pid p) -> h1 <> h ->
  find_placeable h1 (update_placeable h f ps) = find_placeable h1 ps.
Proof.
  intros Hf Hne. unfold find_placeable. induction ps as [|p l IH]; simpl; [reflexivity|].
  destruct (Nat.eqb_spec (pid p) h) as [E|E]; simpl.
  - rewrite Hf. destruct (Nat.eqb_spec (pid p) h1) as [E1|E1]; [congruence | reflexivity].
  - destruct (Nat.eqb (pid p) h1); [reflexivity | exact IH].
Qed.

(** X12.  [assign_home] trusts its caller.  On an object that is not a [Hut] it
    returns [False] and changes nothing.  On a hut with room it does not
    look at the meeple's present home: the meeple gets the hut as [home] and
    is appended to its [residents], and every other object is left as it is,
    so a hut the meeple lived in before goes on listing it. *)
Theorem assign_home_trusts_caller (a h : nat) ms ps :
  (forall hb, find_placeable h ps = Some hb -> is_Hut hb = false ->
     assign_home a h ms ps = (ms, ps, false)) /\
  (forall m hb,
     find_meeple a ms = Some m ->
     find_placeable h ps = Some hb -> is_Hut hb = true ->
     length (residents_of hb) < max_residents_of hb ->
     exists ms' ps',
       assign_home a h ms ps = (ms', ps', true) /\
       find_meeple a ms' = Some (set_home (Some h) m) /\
       find_placeable h ps' = Some (set_residents (residents_of hb ++ [a]) hb) /\
       (forall h1, h1 <> h -> find_placeable h1 ps' = find_placeable h1 ps)).
Proof.
  split.
  - intros hb Hf Hh. unfold assign_home. now rewrite Hf, Hh.
  - intros m hb Hm Hf Hh Hlt.
    rewrite (assign_home_ok a h ms ps Hf Hh Hlt).
    eexists _, _. split; [reflexivity|].
    split; [apply find_update_meeple; [reflexivity | exact Hm]|].
    split; [now apply find_lodge|].
    intros h1 Hne. unfold lodge. rewrite find_update_placeable_other; auto.
    intros p. apply pid_set_residents.
Qed.

End AssignHome.

Section Dimensions.

Context {F : Type} {NF : PyFloat F} {TF : PyTrig F}.
Implicit Types (m : Meeple F).





End Dimensions.

(* ================================================================== *)
(** * Further properties: geometry in exact arithmetic *)

Module ExactGeometry.

Local Open Scope R_scope.




(** ** Hurricane.apply_effect *)



(** ** The push out of an obstacle *)



(** ** The walls *)

Section Walls.

Context {TR : PyTrig R}.



End Walls.

(** ** The clock *)



(** ** Trigonometry on the reals *)

Definition atan2 (b a : R) : R :=
  if Exact.ltb 0 a then atan (b / a)
  else if Exact.ltb a 0 then
    (if Exact.ltb b 0 then atan (b / a) - PI else atan (b / a) + PI)
  else if Exact.ltb 0 b then PI / 2
  else if Exact.ltb b 0 then - (PI / 2)
  else 0.

Definition trig : PyTrig R := {|
  math_cos := cos;
  math_sin := sin;
  math_atan2 := atan2
|}.


(** ** The pushes between meeples *)






(** ** The speed of a meeple *)



End ExactGeometry.

(* ================================================================== *)
(** * The rain drops *)

Definition NUM_RAIN_DROPS : nat := 200.
Definition RAIN_DROP_LENGTH : Z := 5.
Definition RAIN_DROP_BASE_SPEED : Z := 200.

(** [random.randint(a, b)] is [a + randbelow(b - a + 1)]; [r] is the draw,
    reduced into the range. *)
Definition randint (a b : Z) (r : nat) : Z := (a + Z.of_nat r mod (b - a + 1))%Z.

Lemma nth_error_combine_seq {A} (l : list A) (n i : nat) (d : A) :
  nth_error l i = Some d ->
  nth_error (combine (seq n (length l)) l) i = Some (n + i, d).
Proof.
  revert n i. induction l as [|a l IH]; intros n [|i] H; simpl in *; try discriminate.
  - injection H as ->. now rewrite Nat.add_0_r.
  - rewrite (IH (S n) i H). f_equal. f_equal. lia.
Qed.

Section Rain.

Context {F : Type} {NF : PyFloat F}.
Local Open Scope py_scope.

(** A drop of [rain_drop_positions]: its [x] is always an [int]; its [y]
    is an [int] when drawn by [randint] and a [float] once it has fallen. *)
Definition Drop : Type := (Z * F)%type.

(** A line [pygame.draw.line] is asked to draw: start and end point. *)
Definition Line : Type := ((Z * Z) * (Z * Z))%type.

(** [initialize_rain_drops]; [rd i] are the two draws behind drop [i]. *)
Definition initialize_rain_drops (rd : nat -> nat * nat) : list Drop :=
  map (fun i => (randint 0 SIMULATION_WIDTH (fst (rd i)),
                 of_Z (randint 0 SCREEN_HEIGHT (snd (rd i)))))
      (seq 0 NUM_RAIN_DROPS).

(** The body of the loop of [update_and_draw_rain] for drop [i]: the new
    position and the line drawn. *)
Definition rain_step (drop_speed dt : F) (rd : nat -> nat * nat) (i : nat) (d : Drop)
    : Drop * Line :=
  let d1 : Drop := (fst d, snd d + drop_speed * dt) in
  let d2 : Drop :=
    if snd d1 >? of_Z SCREEN_HEIGHT
    then (randint 0 SIMULATION_WIDTH (fst (rd i)), of_Z (randint (-20) (-5) (snd (rd i))))
    else d1 in
  let start_pos := (fst d2, ftrunc (snd d2)) in
  let end_pos := (fst d2, ftrunc (snd d2 + of_Z RAIN_DROP_LENGTH)) in
  (d2, (start_pos, end_pos)).

(** [update_and_draw_rain(screen, dt)]: the new [rain_drop_positions] and
    the lines drawn, in the order drawn. *)
Definition update_and_draw_rain (w : World F) (dt : F) (rd : nat -> nat * nat)
    (drops : list Drop) : list Drop * list Line :=
  if negb (is_raining w) then (drops, [])
  else
    let drop_speed := of_Z RAIN_DROP_BASE_SPEED * simulation_speed_multiplier w in
    let r := map (fun id => rain_step drop_speed dt rd (fst id) (snd id))
                 (combine (seq 0 (length drops)) drops) in
    (map fst r, map snd r).

Definition in_columns (d : Drop) : Prop := (0 <= fst d <= SIMULATION_WIDTH)%Z.

Lemma randint_range (a b : Z) (r : nat) : (a <= b)%Z -> (a <= randint a b r <= b)%Z.
Proof.
  intros H. unfold randint.
  pose proof (Z.mod_pos_bound (Z.of_nat r) (b - a + 1)). lia.
Qed.

Lemma rain_step_facts (drop_speed dt : F) rd i (d : Drop) :
  in_columns d ->
  let d' := fst (rain_step drop_speed dt rd i d) in
  let l := snd (rain_step drop_speed dt rd i d) in
  in_columns d' /\
  ((fst d' = fst d /\ snd d' = snd d + drop_speed * dt /\
    (snd d' >? of_Z SCREEN_HEIGHT) = false) \/
   (snd d + drop_speed * dt >? of_Z SCREEN_HEIGHT) = true /\
   exists z, (-20 <= z <= -5)%Z /\ snd d' = of_Z z) /\
  l = ((fst d', ftrunc (snd d')), (fst d', ftrunc (snd d' + of_Z RAIN_DROP_LENGTH))).
Proof.
  intros Hd d' l. unfold d', l, rain_step. cbn [fst snd].
  destruct (of_Z SCREEN_HEIGHT <? snd d + drop_speed * dt) eqn:E; cbn [fst snd].
  - split; [|split; [|reflexivity]].
    + unfold in_columns. cbn [fst]. apply randint_range. unfold SIMULATION_WIDTH. lia.
    + right. split; [reflexivity|]. eexists. split; [|reflexivity].
      apply randint_range. lia.
  - split; [exact Hd|]. split; [|reflexivity]. left. auto.
Qed.

(** X20.  The rain drops.  [initialize_rain_drops] makes [NUM_RAIN_DROPS = 200]
    drops, each in a column [0 <= x <= 800] at a height [0 <= y <= 600].
    [update_and_draw_rain] does nothing and draws nothing when it does not
    rain.  When it rains it keeps the number of drops and draws one line per
    drop; each drop either falls by [200 * speed * dt] in its column, and
    then is not below the bottom edge, or, having fallen below it, restarts
    in a column [0 <= x <= 800] at a height between [-20] and [-5]; and each
    line is vertical, from the drop's position truncated. *)
Theorem rain_drops_stay_on_the_field (w : World F) (dt : F) (rd rd' : nat -> nat * nat) :
  let drops0 := initialize_rain_drops rd in
  (length drops0 = NUM_RAIN_DROPS /\
   Forall (fun d => in_columns d /\
                    exists z, (0 <= z <= SCREEN_HEIGHT)%Z /\ snd d = of_Z z) drops0) /\
  (forall drops,
     is_raining w = false -> update_and_draw_rain w dt rd' drops = (drops, [])) /\
  (forall drops,
     is_raining w = true -> Forall in_columns drops ->
     let drops' := fst (update_and_draw_rain w dt rd' drops) in
     let lines := snd (update_and_draw_rain w dt rd' drops) in
     let fall := of_Z RAIN_DROP_BASE_SPEED * simulation_speed_multiplier w * dt in
     length drops' = length drops /\ length lines = length drops /\
     Forall in_columns drops' /\
     (forall i d d', nth_error drops i = Some d -> nth_error drops' i = Some d' ->
        (fst d' = fst d /\ snd d' = snd d + fall /\
         (snd d' >? of_Z SCREEN_HEIGHT) = false) \/
        ((snd d + fall >? of_Z SCREEN_HEIGHT) = true /\
         exists z, (-20 <= z <= -5)%Z /\ snd d' = of_Z z)) /\
     (forall i d' l, nth_error drops' i = Some d' -> nth_error lines i = Some l ->
        l = ((fst d', ftrunc (snd d')),
             (fst d', ftrunc (snd d' + of_Z RAIN_DROP_LENGTH))))).
Proof.
  intros drops0. split; [|split].
  - unfold drops0, initialize_rain_drops. split; [now rewrite length_map, length_seq|].
    apply Forall_forall. intros d Hd. apply in_map_iff in Hd.
    destruct Hd as (i & <- & _). cbn [fst snd]. split.
    + unfold in_columns. cbn [fst]. apply randint_range. unfold SIMULATION_WIDTH. lia.
    + eexists. split; [|reflexivity]. apply randint_range. unfold SCREEN_HEIGHT. lia.
  - intros drops Hr. unfold update_and_draw_rain. now rewrite Hr.
  - intros drops Hr Hcol drops' lines fall.
    unfold drops', lines, update_and_draw_rain. rewrite Hr. cbn [negb fst snd].
    set (speed := of_Z RAIN_DROP_BASE_SPEED * simulation_speed_multiplier w).
    set (step := fun id : nat * Drop => rain_step speed dt rd' (fst id) (snd id)).
    assert (Hlen : length (combine (seq 0 (length drops)) drops) = length drops)
      by (rewrite length_combine, length_seq; lia).
    assert (Hnth : forall i d, nth_error drops i = Some d ->
              nth_error (map step (combine (seq 0 (length drops)) drops)) i
              = Some (rain_step speed dt rd' i d)).
    { intros i d Hi. rewrite nth_error_map.
      assert (Hc : nth_error (combine (seq 0 (length drops)) drops) i = Some (i, d))
        by exact (nth_error_combine_seq drops 0 i Hi).
      rewrite Hc. reflexivity. }
    repeat split.
    + now rewrite !length_map.
    + now rewrite !length_map.
    + apply Forall_forall. intros d' Hd'. apply in_map_iff in Hd'.
      destruct Hd' as (r & <- & Hr'). apply in_map_iff in Hr'.
      destruct Hr' as ([i d] & <- & Hin). apply in_combine_r in Hin.
      rewrite Forall_forall in Hcol.
      apply (rain_step_facts speed dt rd' i (Hcol d Hin)).
    + intros i d d' Hi Hi'. rewrite nth_error_map, (Hnth i d Hi) in Hi'.
      injection Hi' as <-.
      rewrite Forall_forall in Hcol.
      apply (rain_step_facts speed dt rd' i (Hcol d (nth_error_In _ _ Hi))).
    + intros i d' l Hi' Hl. rewrite nth_error_map in Hi', Hl.
      rewrite Forall_forall in Hcol.
      destruct (nth_error drops i) as [d|] eqn:Hi.
      * rewrite (Hnth i d Hi) in Hi', Hl. cbn [option_map] in Hi', Hl.
        assert (Ed : d' = fst (rain_step speed dt rd' i d)) by congruence.
        assert (El : l = snd (rain_step speed dt rd' i d)) by congruence.
        rewrite Ed, El.
        apply (rain_step_facts speed dt rd' i (Hcol d (nth_error_In _ _ Hi))).
      * exfalso. apply nth_error_None in Hi.
        assert (Hn : nth_error (map step (combine (seq 0 (length drops)) drops)) i = None)
          by (apply nth_error_None; rewrite length_map, Hlen; exact Hi).
        rewrite Hn in Hi'. discriminate.
Qed.

End Rain.

(* ================================================================== *)
(** * Further properties: the population *)

Section Population.

Context {F : Type} {NF : PyFloat F} {TF : PyTrig F}.
Implicit Types (w : World F) (m : Meeple F) (ms : list (Meeple F)).

Lemma map_mid_but_home ms ms' :
  map (@but_home F) ms = map (@but_home F) ms' -> map (@mid F) ms = map (@mid F) ms'.
Proof.
  intros E. apply (f_equal (map (@mid F))) in E. rewrite !map_map in E. exact E.
Qed.

Lemma map_mid_frozen ms ms' :
  map (@frozen F NF) ms = map (@frozen F NF) ms' -> map (@mid F) ms = map (@mid F) ms'.
Proof.
  intros E. apply (f_equal (map (@mid F))) in E. rewrite !map_map in E. exact E.
Qed.

(** The meeples after an event: those before it, in their order, and at
    most one more. *)
Lemma handle_event_mids e w :
  exists added, map (@mid F) (meeples (handle_event e w)) = map (@mid F) (meeples w) ++ added /\
                length added <= 1.
Proof.
  assert (Hsame : forall w', map (@mid F) (meeples w') = map (@mid F) (meeples w) ->
            exists added, map (@mid F) (meeples w') = map (@mid F) (meeples w) ++ added /\
                          length added <= 1).
  { intros w' E. exists []. rewrite app_nil_r. split; [exact E | simpl; lia]. }
  destruct e as [|k|px py d|]; cbn; try (apply Hsame; reflexivity).
  destruct (SIMULATION_WIDTH <=? px)%Z; [apply Hsame; reflexivity|].
  destruct (selected_tool w) as [t|]; [|apply Hsame; reflexivity].
  destruct t; cbn;
    try (apply Hsame; apply map_mid_but_home, place_but_home);
    try (apply Hsame; reflexivity).
  - destruct (negb (is_raining w)); apply Hsame; reflexivity.
  - unfold add_meeple. destruct (negb _); [|apply Hsame; reflexivity].
    cbn. rewrite map_app. eexists. split; [reflexivity | simpl; lia].
Qed.

Lemma handle_events_mids es w :
  exists added, map (@mid F) (meeples (handle_events es w)) = map (@mid F) (meeples w) ++ added /\
                length added <= length es.
Proof.
  unfold handle_events. revert w. induction es as [|e es IH]; intros w; simpl.
  - exists []. now rewrite app_nil_r.
  - destruct (IH (handle_event e w)) as (a2 & E2 & L2).
    destruct (handle_event_mids e w) as (a1 & E1 & L1).
    exists (a1 ++ a2). rewrite E2, E1, <- app_assoc. split; [reflexivity|].
    rewrite length_app. lia.
Qed.

Lemma before_collisions_mids inp w :
  exists added,
    map (@mid F) (meeples (before_collisions inp w)) = map (@mid F) (meeples w) ++ added /\
    length added <= length (events inp).
Proof.
  unfold before_collisions.
  rewrite <- map_fst_skel, update_meeples_skel, map_fst_skel.
  destruct (update_effects_rest inp
              (handle_events (events inp) (advance_clock (frame_dt inp) w))) as (-> & _).
  apply (handle_events_mids (events inp) (advance_clock (frame_dt inp) w)).
Qed.

Lemma before_collisions_wf inp w : wf w -> wf (before_collisions inp w).
Proof.
  intros Hw. unfold before_collisions, wf. rewrite update_meeples_skel.
  destruct (update_meeples_rest inp (frame_dt inp)
              (update_effects inp
                 (handle_events (events inp) (advance_clock (frame_dt inp) w))))
    as (-> & -> & -> & _).
  apply (holds_handle_events (@wf_counted F)).
  - intros k px py rb w0. apply place_wf.
  - intros px py u w0. apply add_meeple_wf.
  - exact Hw.
Qed.

(** X21.  The population through a frame.  A frame adds at most one meeple per
    event, and only holes remove meeples: if no object is a [Hole] when the
    frame ends, every meeple present before the frame is present after it,
    the meeples keep their order, and new ones come last. *)
Theorem only_holes_remove_meeples (inp : FrameInput F) (w : World F) (Hw : wf w) :
  length (meeples (frame inp w)) <= length (meeples w) + length (events inp) /\
  (Forall (fun p => is_Hole p = false) (placeables (frame inp w)) ->
   exists added,
     map (@mid F) (meeples (frame inp w)) = map (@mid F) (meeples w) ++ added /\
     length added <= length (events inp)).
Proof.
  rewrite frame_eq. cbv zeta. cbn [meeples placeables set_meeples set_placeables].
  destruct (before_collisions_mids inp w) as (added & E & L).
  set (w4 := before_collisions inp w) in *.
  split.
  - etransitivity; [apply handle_collisions_length|].
    rewrite <- (length_map (@mid F) (meeples w4)), E, length_app, length_map. lia.
  - intros Hno.
    pose proof (before_collisions_wf inp Hw) as Hw4. fold w4 in Hw4.
    destruct Hw4 as (Hwf & _).
    destruct (handle_collisions_char (frame_dt inp) Hwf) as (ms2 & tr & _ & _ & Ehc).
    assert (Hno4 : Forall (fun p => is_Hole p = false) (placeables w4)).
    { rewrite Ehc in Hno. cbn [snd] in Hno. rewrite Forall_forall in *.
      intros p Hp. rewrite <- (is_Hole_purge tr). apply Hno. now apply in_map. }
    destruct (handle_collisions_no_hole (meeples w4) (frame_dt inp) Hno4) as [Ef _].
    exists added. split; [|exact L].
    rewrite (map_mid_frozen _ _ Ef). exact E.
Qed.

End Population.

(* ================================================================== *)
(** * The further properties on concrete worlds *)

Module Gallery.

(** A second frame of play: with the hut tool still selected, a click
    builds a second hut. *)
Definition second_hut_input : FrameInput float :=
  {| tick_ms := 16;
     events := [MOUSEBUTTONDOWN 200 400 Examples.click_draws];
     t_rain := 1000%float;
     t_effect := fun _ => 1000%float;
     draws := Examples.quiet_draws |}.

Definition two_huts : World float :=
  frame second_hut_input (frame Examples.build_hut_input (initial_world Examples.spawn)).

Definition first_hut : Placeable float := nth 0 (placeables two_huts) (Hole_init 0 0 0).
Definition second_hut : Placeable float := nth 1 (placeables two_huts) (Hole_init 0 0 0).

(** A resident of the first hut. *)
Definition lodger : Meeple float := nth 19 (meeples two_huts) (Examples.meeple_at 0 0 0).

Definition quiet_after : World float := frame Scenarios.quiet_frame two_huts.

Definition lodger_after : Meeple float :=
  nth 19 (meeples quiet_after) (Examples.meeple_at 0 0 0).

Fixpoint run (n : nat) (inp : FrameInput float) (w : World float) : World float :=
  match n with
  | O => w
  | S k => frame inp (run k inp w)
  end.

(** Twenty presses of the plus key bring the speed to its maximum. *)
Definition speed_up_input : FrameInput float :=
  {| tick_ms := 50;
     events := repeat (KEYDOWN K_PLUS) 20;
     t_rain := 1000%float;
     t_effect := fun _ => 1000%float;
     draws := Examples.quiet_draws |}.

Definition tick_input : FrameInput float :=
  {| tick_ms := 50;
     events := [];
     t_rain := 1000%float;
     t_effect := fun _ => 1000%float;
     draws := Examples.quiet_draws |}.

(** The world when night has just fallen. *)
Definition nightfall : World float :=
  run 121 tick_input (frame speed_up_input two_huts).

Definition homebound : Meeple float :=
  nth 19 (meeples nightfall) (Examples.meeple_at 0 0 0).

(** The hurricane tool is picked and used. *)
Definition storm_input : FrameInput float :=
  {| tick_ms := 16;
     events := [MOUSEBUTTONDOWN 830 250 Examples.click_draws;
                MOUSEBUTTONDOWN 300 300 Examples.click_draws];
     t_rain := 1000%float;
     t_effect := fun _ => 1000%float;
     draws := Examples.quiet_draws |}.

Definition stormy : World float := frame storm_input two_huts.

End Gallery.

Lemma two_huts_reachable : reachable Gallery.two_huts.
Proof.
  exact (reach_frame Gallery.second_hut_input
           (reach_frame Examples.build_hut_input (reach_init Examples.spawn))).
Qed.

Lemma two_huts_wf : wf Gallery.two_huts.
Proof. apply wfb_sound. vm_compute. reflexivity. Qed.

Lemma placed_objects_never_overlap_witness :
  map (@collision_rect float) (placeables Gallery.two_huts)
    = [mkRect 375 55 50 60; mkRect 175 355 50 60] /\
  colliderect (collision_rect Gallery.first_hut) (collision_rect Gallery.second_hut) = false.
Proof.
  split; [vm_compute; reflexivity|].
  refine (proj1 (placed_objects_never_overlap two_huts_reachable) 0 1 _ _ _ _ _).
  - lia.
  - vm_compute. reflexivity.
  - vm_compute. reflexivity.
Defined.

Lemma placed_objects_are_permanent_witness :
  wf Gallery.two_huts /\
  exists p', nth_error (placeables Gallery.quiet_after) 0 = Some p' /\
             set_residents [] p' = set_residents [] Gallery.first_hut /\
             (forall r, In r (residents_of p') -> In r (residents_of Gallery.first_hut)).
Proof.
  split; [exact two_huts_wf|].
  refine (placed_objects_are_permanent (TF := B64.trig) Scenarios.quiet_frame
            two_huts_wf 0 (p := Gallery.first_hut) _).
  vm_compute. reflexivity.
Defined.

Lemma homes_are_permanent_witness :
  home Gallery.lodger = Some 0 /\ home Gallery.lodger_after = Some 0.
Proof.
  assert (H1 : home Gallery.lodger = Some 0) by (vm_compute; reflexivity).
  split; [exact H1|].
  refine (proj1 (homes_are_permanent (TF := B64.trig) Scenarios.quiet_frame two_huts_wf
                   Gallery.lodger _ H1 Gallery.lodger_after _ _)).
  - apply nth_In. vm_compute. lia.
  - apply nth_In. vm_compute. lia.
  - vm_compute. reflexivity.
Defined.

Lemma run_reachable (n : nat) (inp : FrameInput float) (w : World float) :
  reachable w -> reachable (Gallery.run n inp w).
Proof.
  intros Hw. induction n as [|n IH]; simpl; [exact Hw | now apply reach_frame].
Qed.

Lemma nightfall_reachable : reachable Gallery.nightfall.
Proof.
  apply run_reachable. apply reach_frame. exact two_huts_reachable.
Qed.

Lemma meeple_state_invariant_witness :
  is_daytime Gallery.nightfall = false /\
  state Gallery.homebound = going_home /\
  exists hr, home_rect (placeables Gallery.nightfall) Gallery.homebound = Some hr /\
             target_pos Gallery.homebound = Some (r_center hr).
Proof.
  split; [vm_compute; reflexivity|].
  assert (Es : state Gallery.homebound = going_home) by (vm_compute; reflexivity).
  split; [exact Es|].
  assert (Hin : In Gallery.homebound (meeples Gallery.nightfall))
    by (apply nth_In; vm_compute; lia).
  exact (proj1 (proj2 (meeple_state_invariant (TF := B64.trig) nightfall_reachable
                         Gallery.homebound Hin)) Es).
Defined.

Lemma one_hurricane_at_a_time_witness :
  map (fun e => (h_x e, h_y e)) (active_effects Gallery.stormy) = [(300, 300)%Z] /\
  length (active_effects Gallery.stormy) <= 1.
Proof.
  split; [vm_compute; reflexivity|].
  exact (proj1 (one_hurricane_at_a_time (TF := B64.trig)
                  (reach_frame Gallery.storm_input two_huts_reachable))).
Defined.

Lemma add_meeple_rule_witness :
  add_meeple 380 60 0.5%float Gallery.two_huts = Gallery.two_huts.
Proof.
  refine (proj1 (add_meeple_rule (TF := B64.trig) two_huts_reachable 380 60 0.5%float) _).
  exists Gallery.first_hut. split.
  - apply nth_In. vm_compute. lia.
  - vm_compute. intuition discriminate.
Defined.

Module ExactGallery.

Local Open Scope R_scope.






End ExactGallery.





Lemma only_holes_remove_meeples_witness :
  length (meeples Gallery.quiet_after) <= length (meeples Gallery.two_huts) + 0 /\
  exists added,
    map (@mid float) (meeples Gallery.quiet_after)
      = map (@mid float) (meeples Gallery.two_huts) ++ added /\
    length added <= 0.
Proof.
  destruct (only_holes_remove_meeples (TF := B64.trig) Scenarios.quiet_frame two_huts_wf)
    as [H1 H2].
  split; [exact H1|].
  refine (H2 _). vm_compute. repeat constructor.
Defined.
